(** * dir2opds: the request-to-feed handler of [internal/service/service.go]

    A shallow embedding of the OPDS handler and of the Go library functions
    it calls, followed by the properties of the handler that the
    specification states.

    Go strings are byte sequences and are modelled by [string]; Go [int]
    indexes and lengths by [nat]; runes and [time.Time] instants by [Z]. *)

From Stdlib Require Import String Ascii ZArith Lia Bool Arith.
From Stdlib Require Import List Permutation Sorted.
Import ListNotations.
Local Open Scope string_scope.
Set Warnings "-register-all".

(** ** package unicode *)
Module Unicode.
Local Open Scope Z_scope.

(** The functions of the package that read the Unicode tables of the Go
    release, for the runes above the ASCII range: [To(TitleCase, r)],
    [IsLetter], [IsDigit] and [IsSpace].  The tables are data of the
    run-time library, like the MIME table; a world gives them. *)
Record Tables := mkTables {
  To_TitleCase : Z -> Z;
  IsLetter : Z -> bool;
  IsDigit : Z -> bool;
  IsSpace : Z -> bool
}.

Definition MaxASCII : Z := 127.

(** [unicode.ToTitle(r)]: on the ASCII range the title case is the upper
    case; above it the table is read. *)
Definition ToTitle (u : Tables) (r : Z) : Z :=
  if r <=? MaxASCII then
    if (97 <=? r) && (r <=? 122) then r - 32 else r
  else To_TitleCase u r.

End Unicode.

(** ** package unicode/utf8 *)
Module Utf8.
Local Open Scope Z_scope.

Definition RuneError : Z := 65533.   (* U+FFFD *)
Definition MaxRune : Z := 1114111.   (* U+10FFFF *)

Definition byte (c : ascii) : Z := Z.of_N (N_of_ascii c).
Definition char (b : Z) : ascii := ascii_of_N (Z.to_N b).

(** The table [first] with [acceptRanges]: for a byte that begins a
    sequence of several bytes, the length of the sequence and the range of
    its second byte; [None] for the bytes that begin none (continuation
    bytes, 0xC0, 0xC1 and 0xF5 to 0xFF). *)
Definition lead (b0 : Z) : option (nat * Z * Z) :=
  if (194 <=? b0) && (b0 <=? 223) then Some (2%nat, 128, 191)
  else if b0 =? 224 then Some (3%nat, 160, 191)
  else if (225 <=? b0) && (b0 <=? 236) then Some (3%nat, 128, 191)
  else if b0 =? 237 then Some (3%nat, 128, 159)
  else if (238 <=? b0) && (b0 <=? 239) then Some (3%nat, 128, 191)
  else if b0 =? 240 then Some (4%nat, 144, 191)
  else if (241 <=? b0) && (b0 <=? 243) then Some (4%nat, 128, 191)
  else if b0 =? 244 then Some (4%nat, 128, 143)
  else None.

(** A continuation byte: 0x80 to 0xBF. *)
Definition cont (b : Z) : bool := (128 <=? b) && (b <=? 191).

(** [utf8.DecodeRuneInString(s)]: the first rune of [s] and its width in
    bytes; an invalid or truncated sequence gives [RuneError] with width 1,
    the empty string [RuneError] with width 0. *)
Definition DecodeRuneInString (s : string) : Z * nat :=
  match s with
  | EmptyString => (RuneError, 0%nat)
  | String c0 s1 =>
      let b0 := byte c0 in
      if b0 <? 128 then (b0, 1%nat)
      else
        match lead b0 with
        | None => (RuneError, 1%nat)
        | Some (sz, lo, hi) =>
            match s1 with
            | EmptyString => (RuneError, 1%nat)
            | String c1 s2 =>
                let b1 := byte c1 in
                if (b1 <? lo) || (hi <? b1) then (RuneError, 1%nat)
                else if Nat.eqb sz 2 then
                  (Z.lor (Z.shiftl (Z.land b0 31) 6) (Z.land b1 63), 2%nat)
                else
                  match s2 with
                  | EmptyString => (RuneError, 1%nat)
                  | String c2 s3 =>
                      let b2 := byte c2 in
                      if negb (cont b2) then (RuneError, 1%nat)
                      else if Nat.eqb sz 3 then
                        (Z.lor (Z.shiftl (Z.land b0 15) 12)
                           (Z.lor (Z.shiftl (Z.land b1 63) 6) (Z.land b2 63)),
                         3%nat)
                      else
                        match s3 with
                        | EmptyString => (RuneError, 1%nat)
                        | String c3 _ =>
                            let b3 := byte c3 in
                            if negb (cont b3) then (RuneError, 1%nat)
                            else
                              (Z.lor (Z.shiftl (Z.land b0 7) 18)
                                 (Z.lor (Z.shiftl (Z.land b1 63) 12)
                                    (Z.lor (Z.shiftl (Z.land b2 63) 6)
                                       (Z.land b3 63))),
                               4%nat)
                        end
                  end
            end
        end
  end.

(** [for _, c := range s]: the runes of [s] in order.  [skip] counts the
    bytes still to pass of the rune decoded last. *)
Fixpoint runes_from (skip : nat) (s : string) : list Z :=
  match s with
  | EmptyString => []
  | String _ s' =>
      match skip with
      | S k => runes_from k s'
      | O =>
          let (r, width) := DecodeRuneInString s in
          r :: runes_from (Nat.pred width) s'
      end
  end.

Definition runes (s : string) : list Z := runes_from 0 s.

(** [utf8.EncodeRune]: one to four bytes; a surrogate or a value out of
    range is written as [RuneError]. *)
Definition encode3 (r : Z) : string :=
  String (char (Z.lor 224 (Z.shiftr r 12)))
    (String (char (Z.lor 128 (Z.land (Z.shiftr r 6) 63)))
       (String (char (Z.lor 128 (Z.land r 63))) EmptyString)).

Definition EncodeRune (r : Z) : string :=
  if (0 <=? r) && (r <=? 127) then String (char r) EmptyString
  else if (0 <=? r) && (r <=? 2047) then
    String (char (Z.lor 192 (Z.shiftr r 6)))
      (String (char (Z.lor 128 (Z.land r 63))) EmptyString)
  else if (r <? 0) || (MaxRune <? r) || ((55296 <=? r) && (r <=? 57343))
  then encode3 RuneError
  else if r <=? 65535 then encode3 r
  else
    String (char (Z.lor 240 (Z.shiftr r 18)))
      (String (char (Z.lor 128 (Z.land (Z.shiftr r 12) 63)))
         (String (char (Z.lor 128 (Z.land (Z.shiftr r 6) 63)))
            (String (char (Z.lor 128 (Z.land r 63))) EmptyString))).

End Utf8.

(** ** package strings *)
Module Strings.

(** [strings.TrimPrefix(s, prefix)] *)
Fixpoint TrimPrefix_aux (s p : string) : option string :=
  match p with
  | EmptyString => Some s
  | String c p' =>
      match s with
      | EmptyString => None
      | String d s' => if Ascii.eqb c d then TrimPrefix_aux s' p' else None
      end
  end.

Definition TrimPrefix (s p : string) : string :=
  match TrimPrefix_aux s p with
  | Some r => r
  | None => s
  end.

(** [strings.HasSuffix(s, suffix)] and [strings.TrimSuffix(s, suffix)] *)
Definition HasSuffix (s suf : string) : bool :=
  Nat.leb (String.length suf) (String.length s) &&
  String.eqb (substring (String.length s - String.length suf)
                        (String.length suf) s) suf.

Definition TrimSuffix (s suf : string) : string :=
  if HasSuffix s suf
  then substring 0 (String.length s - String.length suf) s
  else s.

(** Tests on bytes. *)
Definition between (lo hi : N) (c : ascii) : bool :=
  (lo <=? N_of_ascii c)%N && (N_of_ascii c <=? hi)%N.

Definition isDigit (c : ascii) : bool := between 48 57 c.
Definition isLower (c : ascii) : bool := between 97 122 c.
Definition isUpper (c : ascii) : bool := between 65 90 c.

(** [strings.isSeparator(r)]: ASCII digits, letters and the underscore are
    not separators and every other ASCII rune is; above ASCII, letters and
    digits are not separators, and of the rest the spaces are. *)
Definition isSeparator (u : Unicode.Tables) (r : Z) : bool :=
  if (r <=? 127)%Z then
    if (48 <=? r)%Z && (r <=? 57)%Z then false
    else if (97 <=? r)%Z && (r <=? 122)%Z then false
    else if (65 <=? r)%Z && (r <=? 90)%Z then false
    else if (r =? 95)%Z then false
    else true
  else if Unicode.IsLetter u r || Unicode.IsDigit u r then false
  else Unicode.IsSpace u r.

(** [strings.Map(mapping, s)]: the runes of [s] are passed in order to
    [mapping], here a function with a state since the mapping of [Title]
    is a closure over a variable; each result is written in UTF-8, a
    negative one is dropped.  A byte of [s] that is not part of a valid
    sequence is read as [RuneError] and so written as three bytes.  (Go
    copies the input up to the first rune that changes; the result is the
    same, since a valid sequence is the encoding of its rune.) *)
Definition Map_write (r : Z) : string :=
  if (r <? 0)%Z then "" else Utf8.EncodeRune r.

Fixpoint Map_runes {S : Type} (mapping : S -> Z -> S * Z) (st : S)
    (rs : list Z) : string :=
  match rs with
  | [] => ""
  | c :: rs' =>
      let (st', r) := mapping st c in
      Map_write r ++ Map_runes mapping st' rs'
  end.

Definition Map {S : Type} (mapping : S -> Z -> S * Z) (st : S) (s : string)
  : string :=
  Map_runes mapping st (Utf8.runes s).

(** [strings.Title(s)]: the closure remembers the previous rune in [prev],
    initially a space, and maps to title case each rune that follows a
    separator. *)
Definition Title_mapping (u : Unicode.Tables) (prev r : Z) : Z * Z :=
  (r, if isSeparator u prev then Unicode.ToTitle u r else r).

Definition Title (u : Unicode.Tables) (s : string) : string :=
  Map (Title_mapping u) 32%Z s.

(** [strings.Compare(a, b) < 0]: byte-wise lexicographic order. *)
Definition Compare_lt (a b : string) : bool := String.ltb a b.

(** [strings.Split(s, "/")] *)
Fixpoint split_slash_aux (cur : string) (s : string) : list string :=
  match s with
  | EmptyString => [cur]
  | String c s' =>
      if Ascii.eqb c "/"%char
      then cur :: split_slash_aux "" s'
      else split_slash_aux (cur ++ String c "") s'
  end.

Definition split_slash (s : string) : list string := split_slash_aux "" s.

End Strings.

(** ** package path/filepath (Unix) *)
Module Filepath.

(** [filepath.Ext(path)]: the suffix beginning at the final dot in the
    final slash-separated element of [path], empty if there is no dot.
    Go scans from the last byte backwards and stops at a separator; here
    the scan goes forwards and keeps the last candidate. *)
Fixpoint Ext_aux (acc : string) (s : string) : string :=
  match s with
  | EmptyString => acc
  | String c s' =>
      if Ascii.eqb c "/"%char then Ext_aux "" s'
      else if Ascii.eqb c "."%char then Ext_aux s s'
      else Ext_aux acc s'
  end.

Definition Ext (path : string) : string := Ext_aux "" path.

Definition isRooted (path : string) : bool :=
  match path with
  | String c _ => Ascii.eqb c "/"%char
  | EmptyString => false
  end.

(** One element of the path being cleaned; [stk] holds the elements kept
    so far, the last one first. *)
Definition clean_step (rooted : bool) (stk : list string) (seg : string)
  : list string :=
  if String.eqb seg "" || String.eqb seg "." then stk
  else if String.eqb seg ".." then
    match stk with
    | top :: rest => if String.eqb top ".." then seg :: stk else rest
    | [] => if rooted then [] else [seg]
    end
  else seg :: stk.

(** [filepath.Clean(path)]: multiple slashes become one, "." elements
    disappear, an inner ".." disappears with the element before it, a
    ".." that begins a rooted path disappears, and the empty path
    becomes ".". *)
Definition render (rooted : bool) (stk : list string) : string :=
  let body := String.concat "/" (rev stk) in
  if rooted then "/" ++ body
  else if String.eqb body "" then "." else body.

Definition Clean (path : string) : string :=
  if String.eqb path "" then "."
  else
    let rooted := isRooted path in
    render rooted
      (fold_left (clean_step rooted) (Strings.split_slash path) []).

(** [filepath.Join(a, b)]: empty elements before the first non-empty one
    are ignored, the rest is joined with slashes and cleaned. *)
Definition Join (a b : string) : string :=
  if negb (String.eqb a "") then Clean (a ++ "/" ++ b)
  else if negb (String.eqb b "") then Clean b
  else "".

(** [filepath.Base(path)] *)
Definition Base (path : string) : string :=
  if String.eqb path "" then "."
  else
    match rev (filter (fun seg => negb (String.eqb seg ""))
                      (Strings.split_slash path)) with
    | last :: _ => last
    | [] => "/"
    end.

End Filepath.

(** ** package net/url *)
Module Url.

Definition hexDigit (n : N) : ascii :=
  if (n <? 10)%N then ascii_of_N (48 + n) else ascii_of_N (55 + n).

Definition isAlnum (c : ascii) : bool :=
  Strings.isDigit c || Strings.isLower c || Strings.isUpper c.

Definition memb (c : ascii) (s : string) : bool :=
  existsb (Ascii.eqb c) (list_ascii_of_string s).

(** [shouldEscape(c, encodePathSegment)] *)
Definition shouldEscape (c : ascii) : bool :=
  if isAlnum c then false
  else if memb c "-_.~" then false
  else if memb c "$&+,/:;=?@" then memb c "/;,?"
  else true.

(** [url.PathEscape(s)] *)
Fixpoint PathEscape (s : string) : string :=
  match s with
  | EmptyString => EmptyString
  | String c s' =>
      if shouldEscape c
      then String "%" (String (hexDigit (N_of_ascii c / 16))
                      (String (hexDigit (N_of_ascii c mod 16))
                              (PathEscape s')))
      else String c (PathEscape s')
  end.

Definition unhex (c : ascii) : option N :=
  if Strings.isDigit c then Some (N_of_ascii c - 48)%N
  else if Strings.between 97 102 c then Some (N_of_ascii c - 97 + 10)%N
  else if Strings.between 65 70 c then Some (N_of_ascii c - 65 + 10)%N
  else None.

(** [url.PathUnescape(s)]: [None] stands for the [EscapeError] returned
    when a '%' is not followed by two hexadecimal digits. *)
Fixpoint PathUnescape (s : string) : option string :=
  match s with
  | EmptyString => Some EmptyString
  | String c s' =>
      if Ascii.eqb c "%"%char then
        match s' with
        | String h (String l s'') =>
            match unhex h, unhex l with
            | Some a, Some b =>
                match PathUnescape s'' with
                | Some r => Some (String (ascii_of_N (16 * a + b)) r)
                | None => None
                end
            | _, _ => None
            end
        | _ => None
        end
      else
        match PathUnescape s' with
        | Some r => Some (String c r)
        | None => None
        end
  end.

End Url.


(** ** package sort, as of Go 1.16 (the toolchain the Dockerfile builds with)

    [sort.Slice] runs [quickSort_func] of [sort/zfuncversion.go] on the
    slice: quicksort with a median-of-three (ninther) pivot, heapsort once
    the depth budget is spent, and a ShellSort pass followed by insertion
    sort on ranges of at most 12 elements.  The slice is sorted in place;
    [data] is the content of its backing array and each function returns
    the content after it ran. *)
Module Sort.
Local Open Scope nat_scope.
Section Slice.

Context {A : Type}.

(** The order on elements that the [less] closure implements:
    [less(i, j)] is [lt data[i] data[j]]. *)
Variable lt : A -> A -> bool.

(** [data[i] = x].  Out of range Go panics; the sort never writes there
    and the model leaves the slice as it is. *)
Fixpoint set (data : list A) (i : nat) (x : A) : list A :=
  match data, i with
  | [], _ => []
  | _ :: t, O => x :: t
  | h :: t, S i' => h :: set t i' x
  end.

Definition Less (data : list A) (i j : nat) : bool :=
  match nth_error data i, nth_error data j with
  | Some x, Some y => lt x y
  | _, _ => false
  end.

Definition Swap (data : list A) (i j : nat) : list A :=
  match nth_error data i, nth_error data j with
  | Some x, Some y => set (set data i y) j x
  | _, _ => data
  end.

(** [for i := lo; i < lo+n; i++ { body }] *)
Fixpoint for_up {S : Type} (i n : nat) (body : nat -> S -> S) (s : S) : S :=
  match n with
  | O => s
  | Datatypes.S n' => for_up (Datatypes.S i) n' body (body i s)
  end.

(** [for i := n-1; i >= 0; i-- { body }] *)
Fixpoint for_down {S : Type} (n : nat) (body : nat -> S -> S) (s : S) : S :=
  match n with
  | O => s
  | Datatypes.S n' => for_down n' body (body n' s)
  end.

(** [for ; i < i+n && p(i); i++ {}] and [for ; c-n < c && p(c-1); c-- {}] *)
Fixpoint scan_up (p : nat -> bool) (i n : nat) : nat :=
  match n with
  | O => i
  | Datatypes.S n' => if p i then scan_up p (Datatypes.S i) n' else i
  end.

Fixpoint scan_down (p : nat -> bool) (c n : nat) : nat :=
  match n with
  | O => c
  | Datatypes.S n' => if p (c - 1) then scan_down p (c - 1) n' else c
  end.

(** The inner loop of [insertionSort_func], with [j = a + n]:
    [for j := i; j > a && data.Less(j, j-1); j-- { data.Swap(j, j-1) }] *)
Fixpoint insert_down (data : list A) (a n : nat) : list A :=
  match n with
  | O => data
  | Datatypes.S n' =>
      if Less data (a + n) (a + n')
      then insert_down (Swap data (a + n) (a + n')) a n'
      else data
  end.

Definition insertionSort (data : list A) (a b : nat) : list A :=
  for_up (a + 1) (b - (a + 1)) (fun i d => insert_down d a (i - a)) data.

(** [siftDown_func]; the loop runs at most [hi] times since [root] grows. *)
Fixpoint siftDown_loop (fuel : nat) (data : list A) (root hi first : nat)
  : list A :=
  match fuel with
  | O => data
  | Datatypes.S fuel' =>
      let child := 2 * root + 1 in
      if hi <=? child then data
      else
        let child :=
          if (child + 1 <? hi) && Less data (first + child) (first + child + 1)
          then child + 1 else child in
        if negb (Less data (first + root) (first + child)) then data
        else siftDown_loop fuel' (Swap data (first + root) (first + child))
                           child hi first
  end.

Definition siftDown (data : list A) (lo hi first : nat) : list A :=
  siftDown_loop hi data lo hi first.

Definition heapSort (data : list A) (a b : nat) : list A :=
  let first := a in
  let lo := 0 in
  let hi := b - a in
  let data :=
    for_down ((hi - 1) / 2 + 1) (fun i d => siftDown d i hi first) data in
  for_down hi (fun i d => siftDown (Swap d first (first + i)) lo i first) data.

(** [medianOfThree_func(data, m1, m0, m2)] moves the median of the three
    values to [data[m1]]. *)
Definition medianOfThree (data : list A) (m1 m0 m2 : nat) : list A :=
  let data := if Less data m1 m0 then Swap data m1 m0 else data in
  if Less data m2 m1 then
    let data := Swap data m2 m1 in
    if Less data m1 m0 then Swap data m1 m0 else data
  else data.

(** The partitioning loop of [doPivot_func]; [c - b] shrinks at every turn. *)
Fixpoint partition_loop (fuel : nat) (data : list A) (pivot b c : nat)
  : list A * nat * nat :=
  match fuel with
  | O => (data, b, c)
  | Datatypes.S fuel' =>
      let b := scan_up (fun i => negb (Less data pivot i)) b (c - b) in
      let c := scan_down (fun i => Less data pivot i) c (c - b) in
      if c <=? b then (data, b, c)
      else partition_loop fuel' (Swap data b (c - 1)) pivot (b + 1) (c - 1)
  end.

(** The loop that protects against a lot of duplicates. *)
Fixpoint protect_loop (fuel : nat) (data : list A) (pivot a b : nat)
  : list A * nat * nat :=
  match fuel with
  | O => (data, a, b)
  | Datatypes.S fuel' =>
      let b := scan_down (fun i => negb (Less data i pivot)) b (b - a) in
      let a := scan_up (fun i => Less data i pivot) a (b - a) in
      if b <=? a then (data, a, b)
      else protect_loop fuel' (Swap data a (b - 1)) pivot (a + 1) (b - 1)
  end.

(** The start of [doPivot_func]: the median of three, or of three medians
    of three on more than 40 elements, is moved to [data[lo]]. *)
Definition choosePivot (data : list A) (lo hi : nat) : list A :=
  let m := (lo + hi) / 2 in
  let data :=
    if 40 <? hi - lo then
      let s := (hi - lo) / 8 in
      let data := medianOfThree data lo (lo + s) (lo + 2 * s) in
      let data := medianOfThree data m (m - s) (m + s) in
      medianOfThree data (hi - 1) (hi - 1 - s) (hi - 1 - 2 * s)
    else data in
  medianOfThree data lo m (hi - 1).

(** The three tests of [doPivot_func] for elements equal to the pivot;
    the last component is [dups > 1]. *)
Definition testDups (data : list A) (hi m pivot b c : nat)
  : list A * nat * nat * bool :=
  let dups := 0 in
  let '(data, c, dups) :=
    if negb (Less data pivot (hi - 1))
    then (Swap data c (hi - 1), c + 1, dups + 1)
    else (data, c, dups) in
  let '(b, dups) :=
    if negb (Less data (b - 1) pivot)
    then (b - 1, dups + 1)
    else (b, dups) in
  let '(data, b, dups) :=
    if negb (Less data m pivot)
    then (Swap data m (b - 1), b - 1, dups + 1)
    else (data, b, dups) in
  (data, b, c, 1 <? dups).

Definition doPivot (data : list A) (lo hi : nat) : list A * nat * nat :=
  let m := (lo + hi) / 2 in
  let data := choosePivot data lo hi in
  let pivot := lo in
  let a := lo + 1 in
  let c := hi - 1 in
  let a := scan_up (fun i => Less data i pivot) a (c - a) in
  let b := a in
  let '(data, b, c) := partition_loop (Datatypes.S (c - b)) data pivot b c in
  let protect := hi - c <? 5 in
  let '(data, b, c, protect) :=
    if negb protect && (hi - c <? (hi - lo) / 4)
    then testDups data hi m pivot b c
    else (data, b, c, protect) in
  let '(data, b) :=
    if protect then
      let '(data, _, b) :=
        protect_loop (Datatypes.S (b - a)) data pivot a b in
      (data, b)
    else (data, b) in
  let data := Swap data pivot (b - 1) in
  (data, b - 1, c).

(** [quickSort_func]: the [for b-a > 12] loop continues on the larger part
    after the recursive call on the smaller one; both run with the
    decremented depth budget. *)
Fixpoint quickSort (data : list A) (a b maxDepth : nat) : list A :=
  if 12 <? b - a then
    match maxDepth with
    | O => heapSort data a b
    | Datatypes.S maxDepth' =>
        let '(data, mlo, mhi) := doPivot data a b in
        if mlo - a <? b - mhi then
          let data := quickSort data a mlo maxDepth' in
          quickSort data mhi b maxDepth'
        else
          let data := quickSort data mhi b maxDepth' in
          quickSort data a mlo maxDepth'
    end
  else if 1 <? b - a then
    let data :=
      for_up (a + 6) (b - (a + 6))
             (fun i d => if Less d i (i - 6) then Swap d i (i - 6) else d)
             data in
    insertionSort data a b
  else data.

(** [maxDepth(n)]: twice the number of bits of [n]. *)
Fixpoint bits (fuel i depth : nat) : nat :=
  match fuel with
  | O => depth
  | Datatypes.S fuel' =>
      if 0 <? i then bits fuel' (i / 2) (depth + 1) else depth
  end.

Definition maxDepth (n : nat) : nat := bits n n 0 * 2.

(** [sort.Slice(x, less)] *)
Definition Slice (x : list A) : list A :=
  let length := List.length x in
  quickSort x 0 length (maxDepth length).

End Slice.
End Sort.


(** ** The environment: file system, clock and MIME table *)

(** [fs.FileInfo], with the three methods the handler calls. *)
Record FileInfo := mkFileInfo {
  fi_Name : string;
  fi_IsDir : bool;
  fi_ModTime : Z
}.

(** A file-system entry: a regular file, or a directory with its entries
    in the order in which [os.ReadDir] lists them (by file name).  There
    are no symbolic links. *)
Inductive node :=
| File (modTime : Z)
| Dir (modTime : Z) (entries : list (string * node)).

Record World := mkWorld {
  fs_root : node;                         (* the directory "/" *)
  cwd : list string;                      (* the working directory, from "/" *)
  clock : Z;                              (* what time.Now() returns *)
  mime_TypeByExtension : string -> string; (* the process's MIME table *)
  unicode : Unicode.Tables                (* the Unicode tables *)
}.

Definition info (name : string) (n : node) : FileInfo :=
  match n with
  | File mt => mkFileInfo name false mt
  | Dir mt _ => mkFileInfo name true mt
  end.

Fixpoint lookup_entry (name : string) (es : list (string * node))
  : option node :=
  match es with
  | [] => None
  | (nm, n) :: rest => if String.eqb nm name then Some n else lookup_entry name rest
  end.

(** One step of path resolution.  [stk] is the entry reached so far followed
    by its ancestors up to the root. *)
Definition resolve_step (stk : list node) (seg : string) : option (list node) :=
  match stk with
  | [] => None
  | File _ :: _ => None
  | Dir _ es :: up =>
      if String.eqb seg "." then Some stk
      else if String.eqb seg ".." then
        Some (match up with [] => stk | _ :: _ => up end)
      else
        match lookup_entry seg es with
        | Some n => Some (n :: stk)
        | None => None
        end
  end.

Fixpoint resolve_steps (stk : list node) (segs : list string)
  : option (list node) :=
  match segs with
  | [] => Some stk
  | seg :: rest =>
      match resolve_step stk seg with
      | Some stk' => resolve_steps stk' rest
      | None => None
      end
  end.

Definition segments (path : string) : list string :=
  filter (fun seg => negb (String.eqb seg "")) (Strings.split_slash path).

(** The entry reached by following the elements of a path, from the root
    or from the working directory. *)
Definition follow (w : World) (path : string) : option node :=
  if String.eqb path "" then None
  else
    let start := if Filepath.isRooted path then [] else cwd w in
    match resolve_steps [fs_root w] (start ++ segments path) with
    | Some (n :: _) => Some n
    | _ => None
    end.

Fixpoint endsWithSlash (path : string) : bool :=
  match path with
  | EmptyString => false
  | String c EmptyString => Ascii.eqb c "/"%char
  | String _ rest => endsWithSlash rest
  end.

(** What a path names, for [stat] and [open]: a path that ends in a slash
    names a directory or nothing. *)
Definition resolve (w : World) (path : string) : option node :=
  match follow w path with
  | Some (File mt) => if endsWithSlash path then None else Some (File mt)
  | r => r
  end.

(** [os.Stat(path)] and [os.Lstat(path)]: [None] is the pair of a nil
    [FileInfo] and an error. *)
Definition os_Stat (w : World) (path : string) : option FileInfo :=
  option_map (info (Filepath.Base path)) (resolve w path).

Definition entry_infos (es : list (string * node)) : list FileInfo :=
  map (fun e => info (fst e) (snd e)) es.

(** [ioutil.ReadDir(path)]: [None] is the pair of a nil slice and an error. *)
Definition ioutil_ReadDir (w : World) (path : string) : option (list FileInfo) :=
  match resolve w path with
  | Some (Dir _ es) => Some (entry_infos es)
  | _ => None
  end.

(** ** package opds: the values the builders produce *)
Module Opds.

Record Link := mkLink {
  l_Rel : string;
  l_Href : string;
  l_Type : string;
  l_Title : string
}.

Record Author := mkAuthor {
  a_Name : string;
  a_Email : string;
  a_URI : string
}.

Record Entry := mkEntry {
  e_ID : string;
  e_Title : string;
  e_Updated : Z;
  e_Published : Z;
  e_Links : list Link
}.

Record Feed := mkFeed {
  f_ID : string;
  f_Title : string;
  f_Author : Author;
  f_Updated : Z;
  f_Links : list Link;
  f_Entries : list Entry
}.

(** [FeedBuilder.AddEntry(e)] *)
Definition AddEntry (f : Feed) (e : Entry) : Feed :=
  mkFeed (f_ID f) (f_Title f) (f_Author f) (f_Updated f) (f_Links f)
         (f_Entries f ++ [e]).

End Opds.

(** ** package service *)

Inductive pathType := pathTypeFile | pathTypeDirOfDirs | pathTypeDirOfFiles.

Definition pathType_eqb (a b : pathType) : bool :=
  match a, b with
  | pathTypeFile, pathTypeFile => true
  | pathTypeDirOfDirs, pathTypeDirOfDirs => true
  | pathTypeDirOfFiles, pathTypeDirOfFiles => true
  | _, _ => false
  end.

Record BookFile := mkBookFile {
  Name : string;
  Path : string;
  Author : string;
  FileInfo_of : FileInfo
}.

Record OPDS := mkOPDS {
  DirRoot : string;
  OAuthor : string;
  AuthorEmail : string;
  AuthorURI : string
}.

(** The package variables: [TimeNow] and [files]. *)
Record Globals := mkGlobals {
  TimeNow : unit -> Z;
  files : list BookFile
}.

(** A computation that may end in a run-time panic. *)
Inductive run (A : Type) :=
| Done (a : A)
| Panicked.
Arguments Done {A} a.
Arguments Panicked {A}.

Definition bind {A B : Type} (m : run A) (k : A -> run B) : run B :=
  match m with
  | Done a => k a
  | Panicked => Panicked
  end.

Notation "x <- m ;; k" := (bind m (fun x => k))
  (at level 61, m at next level, right associativity).

Fixpoint mapM {A B : Type} (f : A -> run B) (l : list A) : run (list B) :=
  match l with
  | [] => Done []
  | a :: t => b <- f a ;; bs <- mapM f t ;; Done (b :: bs)
  end.

Definition navigationType : string :=
  "application/atom+xml;profile=opds-catalog;kind=navigation".

Definition acquisitionType : string :=
  "application/atom+xml;profile=opds-catalog;kind=acquisition".

(** [timeNowFunc]: reads the clock once and returns a closure over the
    instant read. *)
Definition timeNowFunc (w : World) : unit -> Z :=
  let t := clock w in
  fun _ => t.

(** The state of the package once its variables are initialised, in the
    world [w0] of the process's start. *)
Definition startup (w0 : World) : Globals :=
  mkGlobals (timeNowFunc w0) [].

(** [isFile(fi)]: calls a method of [fi], which panics when [fi] is nil. *)
Definition isFile (fi : option FileInfo) : run bool :=
  match fi with
  | Some fi => Done (negb (fi_IsDir fi))
  | None => Panicked
  end.

(** The loop of [getPathType] over the directory's entries. *)
Fixpoint scanEntries (fis : list FileInfo) : run pathType :=
  match fis with
  | [] => Done pathTypeDirOfDirs
  | fi :: rest =>
      f <- isFile (Some fi) ;;
      if f then Done pathTypeDirOfFiles else scanEntries rest
  end.

Definition getPathType (w : World) (dirpath : string) : run pathType :=
  let fi := os_Stat w dirpath in
  f <- isFile fi ;;
  if f then Done pathTypeFile
  else
    let fis := match ioutil_ReadDir w dirpath with
               | Some fis => fis
               | None => []
               end in
    scanEntries fis.

Definition relSubsection : string := "subsection".
Definition relThumbnail : string := "http://opds-spec.org/image/thumbnail".
Definition relAcquisition : string := "http://opds-spec.org/acquisition".

Definition getRel (name : string) (pt : pathType) : string :=
  if pathType_eqb pt pathTypeDirOfFiles || pathType_eqb pt pathTypeDirOfDirs
  then relSubsection
  else
    let ext := Filepath.Ext name in
    if String.eqb ext ".png" || String.eqb ext ".jpg"
       || String.eqb ext ".jpeg" || String.eqb ext ".gif"
    then relThumbnail
    else relAcquisition.

Definition getType (w : World) (name : string) (pt : pathType) : string :=
  match pt with
  | pathTypeFile => mime_TypeByExtension w (Filepath.Ext name)
  | pathTypeDirOfFiles => acquisitionType
  | pathTypeDirOfDirs => navigationType
  end.

(** The comparison closures of the two sorts. *)
Definition laterThan (x y : BookFile) : bool :=
  (fi_ModTime (FileInfo_of y) <? fi_ModTime (FileInfo_of x))%Z.

Definition nameBefore (x y : BookFile) : bool :=
  Strings.Compare_lt (Name x) (Name y).

(** [sortByLatest] and [sortByTitle].  [sortedFiles := files] copies the
    slice header, not the backing array: the sort permutes the array of the
    argument.  The first component is the slice returned, the second the
    content of the argument's backing array when the function returns. *)
Definition sortByLatest (files : list BookFile)
  : list BookFile * list BookFile :=
  let sortedFiles := Sort.Slice laterThan files in
  (sortedFiles, sortedFiles).

Definition sortByTitle (files : list BookFile)
  : list BookFile * list BookFile :=
  let sortedFiles := Sort.Slice nameBefore files in
  (sortedFiles, sortedFiles).

(** [filepath.WalkDir] with the callback of the handler, which appends a
    [BookFile] for every entry that is not a directory and always returns
    nil.  [de.Info()] does not fail in this model. *)
Fixpoint walkDir (path name : string) (n : node) (files : list BookFile)
  : list BookFile :=
  match n with
  | File _ => files ++ [mkBookFile name path "" (info name n)]
  | Dir _ es =>
      (fix walkEntries (es : list (string * node)) (files : list BookFile)
         : list BookFile :=
         match es with
         | [] => files
         | (nm, child) :: rest =>
             walkEntries rest (walkDir (Filepath.Join path nm) nm child files)
         end) es files
  end.

(** When [os.Lstat(root)] fails, [WalkDir] calls the callback with a nil
    [DirEntry], and the callback calls [de.IsDir()]. *)
Definition WalkDir (w : World) (root : string) (files : list BookFile)
  : run (list BookFile) :=
  match resolve w root with
  | None => Panicked
  | Some n => Done (walkDir root (Filepath.Base root) n files)
  end.

(** What the handler did with the request. *)
Inductive document :=
| NavigationFeed (feed : Opds.Feed)
| AcquisitionFeed (feed : Opds.Feed) (dc opds : string).

Inductive response :=
| Panic
| ReturnError
| ServeFile (fPath : string)
| ServeContent (contentType : string) (modtime : Z) (content : document).

Definition synthetic (w : World) (g : Globals) (id title name : string)
  : Opds.Entry :=
  Opds.mkEntry id title (TimeNow g tt) (TimeNow g tt)
    [Opds.mkLink (getRel name pathTypeDirOfDirs)
                 (Filepath.Join "/" (Url.PathEscape name))
                 (getType w title pathTypeDirOfDirs)
                 title].

(** The body of the loops over the sorted files. *)
Definition fileEntry (s : OPDS) (w : World) (g : Globals) (urlPath : string)
                     (f : BookFile) : run Opds.Entry :=
  let fi := FileInfo_of f in
  pt <- getPathType w (Path f) ;;
  Done (Opds.mkEntry (urlPath ++ fi_Name fi) (fi_Name fi)
          (TimeNow g tt) (TimeNow g tt)
          [Opds.mkLink (getRel (Path f) pt)
             (Filepath.Join "/"
                (Url.PathEscape (Strings.TrimPrefix (Path f) (DirRoot s))))
             (getType w (Path f) pt)
             (fi_Name fi)]).

(** The end of the handler: the feed is serialized as an acquisition feed
    when [fPath] is a directory of files, as a navigation feed otherwise. *)
Definition serveFeed (w : World) (g : Globals) (fPath : string)
                     (navFeed : Opds.Feed) : response :=
  match getPathType w fPath with
  | Panicked => Panic
  | Done pt =>
      if pathType_eqb pt pathTypeDirOfFiles
      then ServeContent acquisitionType (TimeNow g tt)
             (AcquisitionFeed navFeed "http://purl.org/dc/terms/"
                              "http://opds-spec.org/2010/catalog")
      else ServeContent navigationType (TimeNow g tt) (NavigationFeed navFeed)
  end.

Definition withFiles (g : Globals) (fs : list BookFile) : Globals :=
  mkGlobals (TimeNow g) fs.

Definition addEntries (f : Opds.Feed) (es : list Opds.Entry) : Opds.Feed :=
  fold_left Opds.AddEntry es f.

(** [OPDS.Handler]: the response to a request for [reqPath] (the
    [req.URL.Path] of the request) in the world [w], and the package
    variables afterwards. *)
Definition Handler (s : OPDS) (g : Globals) (w : World) (reqPath : string)
  : response * Globals :=
  match Url.PathUnescape reqPath with
  | None => (ReturnError, g)
  | Some urlPath =>
      let fPath := Filepath.Join (DirRoot s) urlPath in
      let feedBuilder :=
        Opds.mkFeed urlPath
          (Strings.Title (unicode w) (Strings.TrimPrefix urlPath "/"))
          (Opds.mkAuthor (OAuthor s) (AuthorEmail s) (AuthorURI s))
          (TimeNow g tt)
          [Opds.mkLink "start" "/" navigationType ""]
          [] in
      if String.eqb urlPath "/" then
        let g := withFiles g [] in
        match WalkDir w (DirRoot s) (files g) with
        | Panicked => (Panic, g)
        | Done fs =>
            let g := withFiles g fs in
            let feedBuilder :=
              addEntries feedBuilder
                [synthetic w g "/latest" "Latest" "latest";
                 synthetic w g "/titles" "By Title" "titles"] in
            (serveFeed w g fPath feedBuilder, g)
        end
      else if String.eqb urlPath "/latest" then
        let fPath := Strings.TrimSuffix fPath "/latest" in
        let '(sorted, arr) := sortByLatest (files g) in
        let g := withFiles g arr in
        match mapM (fileEntry s w g urlPath) sorted with
        | Panicked => (Panic, g)
        | Done es => (serveFeed w g fPath (addEntries feedBuilder es), g)
        end
      else if String.eqb urlPath "/titles" then
        let fPath := Strings.TrimSuffix fPath "/titles" in
        let '(sorted, arr) := sortByTitle (files g) in
        let g := withFiles g arr in
        match mapM (fileEntry s w g urlPath) sorted with
        | Panicked => (Panic, g)
        | Done es => (serveFeed w g fPath (addEntries feedBuilder es), g)
        end
      else
        match getPathType w fPath with
        | Panicked => (Panic, g)
        | Done pt =>
            if pathType_eqb pt pathTypeFile then (ServeFile fPath, g)
            else (serveFeed w g fPath feedBuilder, g)
        end
  end.

(** *** A small catalog to run the handler on *)
Module Example.

Definition mime (ext : string) : string :=
  if String.eqb ext ".epub" then "application/epub+zip"
  else if String.eqb ext ".mobi" then "application/x-mobipocket-ebook"
  else if String.eqb ext ".pdf" then "application/pdf"
  else "".

(** The rows of the Unicode tables for the Latin-1 Supplement, U+0080 to
    U+00FF; the runes above are left alone. *)
Definition unicode : Unicode.Tables :=
  Unicode.mkTables
    (fun r => if (r =? 181)%Z then 924%Z
              else if (224 <=? r)%Z && (r <=? 254)%Z && negb (r =? 247)%Z
                   then (r - 32)%Z
              else if (r =? 255)%Z then 376%Z
              else r)
    (fun r => (r =? 170)%Z || (r =? 181)%Z || (r =? 186)%Z
              || ((192 <=? r)%Z && (r <=? 255)%Z
                  && negb (r =? 215)%Z && negb (r =? 247)%Z))
    (fun _ => false)
    (fun r => (r =? 133)%Z || (r =? 160)%Z).

(** /srv/books holds a.epub (modified at 10) and sub/b.epub (modified at
    20); /srv/shelves and /srv/nested hold one directory each, the first
    with a file in it, the second empty. *)
Definition books : node :=
  Dir 5 [("a.epub", File 10);
         ("sci fi", Dir 7 []);
         ("sub", Dir 6 [("b.epub", File 20)])].

Definition shelves : node :=
  Dir 5 [("sub", Dir 6 [("b.epub", File 20)])].

(** /srv/library holds six files named b.epub, modified at 1, in the
    directories d1 to d6, and z/a.epub, modified at 2. *)
Definition library : node :=
  Dir 5 [("d1", Dir 5 [("b.epub", File 1)]);
         ("d2", Dir 5 [("b.epub", File 1)]);
         ("d3", Dir 5 [("b.epub", File 1)]);
         ("d4", Dir 5 [("b.epub", File 1)]);
         ("d5", Dir 5 [("b.epub", File 1)]);
         ("d6", Dir 5 [("b.epub", File 1)]);
         ("z", Dir 5 [("a.epub", File 2)])].

Definition world (now : Z) : World :=
  mkWorld (Dir 1 [("srv", Dir 2 [("books", books);
                                 ("empty", Dir 3 []);
                                 ("library", library);
                                 ("nested", Dir 4 [("inner", Dir 4 [])]);
                                 ("shelves", shelves)])])
          ["srv"] now mime unicode.




Definition booksService : OPDS := mkOPDS "./books" "dir2opds" "" "".
Definition emptyService : OPDS := mkOPDS "/srv/empty" "dir2opds" "" "".
Definition shelvesService : OPDS := mkOPDS "/srv/shelves" "dir2opds" "" "".
Definition srvService : OPDS := mkOPDS "/srv" "dir2opds" "" "".
Definition libraryService : OPDS := mkOPDS "/srv/library" "dir2opds" "" "".

(** The file found first by the walk of /srv/library. *)
Definition firstBook : BookFile :=
mkBookFile "b.epub" "/srv/library/d1/b.epub" ""
           (mkFileInfo "b.epub" false 1).

(** The package variables after the process started at 100 and served a
    request for "/" at 200. *)
Definition indexed (s : OPDS) : Globals :=
  snd (Handler s (startup (world 100)) (world 200) "/").

(** The feed served for the directory /srv/books/sci fi. *)
Definition sciFiFeed : Opds.Feed :=
  Opds.mkFeed "/books/sci fi" "Books/Sci Fi"
    (Opds.mkAuthor "dir2opds" "" "") 100
    [Opds.mkLink "start" "/" navigationType ""] [].

End Example.


(** ** Vocabulary of the properties *)

Definition isDirNode (n : node) : bool :=
  match n with
  | File _ => false
  | Dir _ _ => true
  end.

(** The kinds (directory or not) of the immediate children, in order. *)
Definition childKinds (es : list (string * node)) : list bool :=
  map (fun e => isDirNode (snd e)) es.

(** Whether a directory has an immediate child that is not a directory. *)
Definition hasFileChild (es : list (string * node)) : bool :=
  negb (forallb (fun b => b) (childKinds es)).

Definition imageExts : list string := [".png"; ".jpg"; ".jpeg"; ".gif"].

(** A string with neither a dot nor a slash. *)
Fixpoint plain (s : string) : bool :=
  match s with
  | EmptyString => true
  | String c s' =>
      negb (Ascii.eqb c "/"%char) && negb (Ascii.eqb c "."%char) && plain s'
  end.

(** A path element free of slashes, and one that is neither empty nor ".". *)
Fixpoint noSlash (s : string) : bool :=
  match s with
  | EmptyString => true
  | String c s' => negb (Ascii.eqb c "/"%char) && noSlash s'
  end.

Definition properElement (s : string) : Prop :=
  noSlash s = true /\ s <> "" /\ s <> ".".

(** The stack that [filepath.Clean] keeps: proper elements, and no ".." when
    the path is rooted. *)
Definition cleanStack (rooted : bool) (K : list string) : Prop :=
  Forall properElement K /\ (rooted = true -> ~ In ".." K).

Definition feedOf (d : document) : Opds.Feed :=
  match d with
  | NavigationFeed f => f
  | AcquisitionFeed f _ _ => f
  end.

(** The document that [serveFeed] writes for a feed, by kind. *)
Definition serialized (acquisition : bool) (g : Globals) (feed : Opds.Feed)
  : response :=
  if acquisition
  then ServeContent acquisitionType (TimeNow g tt)
         (AcquisitionFeed feed "http://purl.org/dc/terms/"
                          "http://opds-spec.org/2010/catalog")
  else ServeContent navigationType (TimeNow g tt) (NavigationFeed feed).

(** Every instant a response carries: the modification time handed to
    [http.ServeContent], the feed's [updated], and the [updated] and
    [published] of each entry. *)
Definition feedTimes (f : Opds.Feed) : list Z :=
  Opds.f_Updated f ::
  flat_map (fun e => [Opds.e_Updated e; Opds.e_Published e]) (Opds.f_Entries f).

Definition responseTimes (r : response) : list Z :=
  match r with
  | ServeContent _ modtime doc => modtime :: feedTimes (feedOf doc)
  | _ => []
  end.

(** The life of the process: the requests are served one after the other,
    each in the world of its own time, on the package variables the
    previous ones left (net/http recovers the panic of a handler). *)
Fixpoint serveAll (s : OPDS) (g : Globals) (reqs : list (World * string))
  : list response :=
  match reqs with
  | [] => []
  | (w, reqPath) :: rest =>
      let '(r, g') := Handler s g w reqPath in
      r :: serveAll s g' rest
  end.

(** The title as the specification words it: the last segment of the
    request path, each word capitalized. *)
Definition titleOfLastSegment (u : Unicode.Tables) (urlPath : string)
  : string :=
  Strings.Title u (Filepath.Base urlPath).

(** Title case, rune by rune: the rune at [i] begins a word when it is the
    first one or follows a separator; [ts] is [rs] with each rune that
    begins a word mapped to title case and every other rune kept. *)
Definition startsWord (u : Unicode.Tables) (rs : list Z) (i : nat) : bool :=
  match i with
  | O => true
  | S j =>
      match nth_error rs j with
      | Some prev => Strings.isSeparator u prev
      | None => false
      end
  end.

Definition titleCased (u : Unicode.Tables) (rs ts : list Z) : Prop :=
  length ts = length rs /\
  forall i r,
    nth_error rs i = Some r ->
    nth_error ts i
    = Some (if startsWord u rs i then Unicode.ToTitle u r else r).

(** On the ASCII range: the upper case of a letter, and the runes that
    words are made of, which are the letters, the digits and the
    underscore. *)
Definition asciiUpper (r : Z) : Z :=
  if (97 <=? r)%Z && (r <=? 122)%Z then (r - 32)%Z else r.

Definition asciiWordRune (r : Z) : bool :=
  ((48 <=? r)%Z && (r <=? 57)%Z) || ((97 <=? r)%Z && (r <=? 122)%Z)
  || ((65 <=? r)%Z && (r <=? 90)%Z) || (r =? 95)%Z.

(** The runes [ts] written one after the other in UTF-8. *)
Definition writeRunes (ts : list Z) : string :=
  fold_right (fun r acc => Strings.Map_write r ++ acc) "" ts.

(** "écrits" and a byte that begins no UTF-8 sequence. *)
Definition ecrits : string :=
  String (ascii_of_nat 195) (String (ascii_of_nat 169) "crits").

Definition Ecrits : string :=
  String (ascii_of_nat 195) (String (ascii_of_nat 137) "crits").

Definition strayByte : string := String (ascii_of_nat 255) "".

Definition replacementChar : string :=
  String (ascii_of_nat 239)
    (String (ascii_of_nat 191) (String (ascii_of_nat 189) "")).

(** The title and the link targets of each entry of a feed. *)
Definition entryTargets (f : Opds.Feed) : list (string * list string) :=
  map (fun e => (Opds.e_Title e, map Opds.l_Href (Opds.e_Links e)))
      (Opds.f_Entries f).

(** *** Vocabulary of the sort's correctness

    [get d l i] is [l[i]]; a range [a, b) of a slice is sorted when no
    element is less than an earlier one; [l'] rearranges [l] within [a, b)
    when it has the length of [l], agrees with it outside the range, and
    whatever holds of every element of the range of [l] holds of every
    element of the range of [l']. *)
Definition get {A : Type} (d : A) (l : list A) (i : nat) : A := nth i l d.

Definition sortedRange {A : Type} (lt : A -> A -> bool) (d : A)
    (l : list A) (a b : nat) : Prop :=
  forall i j, a <= i -> i < j -> j < b -> lt (get d l j) (get d l i) = false.

Definition rearranges {A : Type} (d : A) (l l' : list A) (a b : nat) : Prop :=
  length l' = length l /\
  (forall k, k < a \/ b <= k -> get d l' k = get d l k) /\
  (forall P : A -> Prop,
      (forall k, a <= k -> k < b -> P (get d l k)) ->
      forall k, a <= k -> k < b -> P (get d l' k)).

(** The heap property of [siftDown_func]: from node [lo] on, no node of the
    heap of [hi] elements based at [first] is less than a child of it. *)
Definition heapFrom {A : Type} (lt : A -> A -> bool) (d : A)
    (l : list A) (first lo hi : nat) : Prop :=
  forall p c, lo <= p -> c < hi -> c = 2 * p + 1 \/ c = 2 * p + 2 ->
              lt (get d l (first + p)) (get d l (first + c)) = false.

(** The state of [doPivot_func] once the elements are partitioned around
    the pivot [l[lo]]: at most the pivot before [b], equivalent to it from
    [b] to [c], at least the pivot from [c] on. *)
Definition parted {A : Type} (lt : A -> A -> bool) (d : A)
    (l : list A) (lo hi b c : nat) : Prop :=
  lo + 1 <= b /\ b <= c /\ c <= hi /\
  (forall i, lo + 1 <= i -> i < b -> lt (get d l lo) (get d l i) = false) /\
  (forall i, b <= i -> i < c ->
             lt (get d l lo) (get d l i) = false /\
             lt (get d l i) (get d l lo) = false) /\
  (forall i, c <= i -> i < hi -> lt (get d l i) (get d l lo) = false).

(** The two sorted views of a snapshot. *)
Definition latest (snapshot : list BookFile) : list BookFile :=
  fst (sortByLatest snapshot).

Definition byTitle (snapshot : list BookFile) : list BookFile :=
  fst (sortByTitle snapshot).

(** [x] may come before [y]: [x] was modified no earlier than [y];
    the name of [x] is at most the name of [y] in byte order. *)
Definition notOlder (x y : BookFile) : Prop :=
  (fi_ModTime (FileInfo_of y) <= fi_ModTime (FileInfo_of x))%Z.

Definition nameAtMost (x y : BookFile) : Prop :=
  String.leb (Name x) (Name y) = true.

Definition sameModTime (x y : BookFile) : bool :=
  (fi_ModTime (FileInfo_of x) =? fi_ModTime (FileInfo_of y))%Z.

Definition sameName (x y : BookFile) : bool :=
  String.eqb (Name x) (Name y).

(** A view is stable when the entries that share a key with any given
    entry come in the order they have in the snapshot. *)
Definition stable (sameKey : BookFile -> BookFile -> bool)
    (snapshot view : list BookFile) : Prop :=
  forall f, filter (sameKey f) view = filter (sameKey f) snapshot.



(** *** Vocabulary of the further properties *)

(** The number of entries below (and including) a node that are not
    directories. *)
Fixpoint countFiles (n : node) : nat :=
  match n with
  | File _ => 1
  | Dir _ es =>
      (fix count (es : list (string * node)) : nat :=
         match es with
         | [] => 0
         | (_, child) :: rest => countFiles child + count rest
         end) es
  end.

(** The walk of the entries of a directory, as a fold. *)
Definition walkEntries (path : string) (es : list (string * node))
    (files : list BookFile) : list BookFile :=
  fold_left (fun acc e => walkDir (Filepath.Join path (fst e)) (fst e) (snd e) acc)
            es files.

(** Induction on a file-system tree: a property that holds of files, and of
    a directory when it holds of every entry, holds of every node. *)
Fixpoint node_induction (P : node -> Prop)
    (HF : forall mt, P (File mt))
    (HD : forall mt es, Forall (fun e => P (snd e)) es -> P (Dir mt es))
    (n : node) : P n :=
  match n with
  | File mt => HF mt
  | Dir mt es =>
      HD mt es
         ((fix all (es : list (string * node)) : Forall (fun e => P (snd e)) es :=
             match es with
             | [] => Forall_nil _
             | e :: rest =>
                 Forall_cons e (node_induction P HF HD (snd e)) (all rest)
             end) es)
  end.

(** The three paths the handler treats apart. *)
Definition isVirtual (urlPath : string) : bool :=
  String.eqb urlPath "/" || String.eqb urlPath "/latest"
  || String.eqb urlPath "/titles".

(** The header every feed of the handler starts from. *)
Definition feedHeader (s : OPDS) (g : Globals) (w : World) (urlPath : string)
  : Opds.Feed :=
  Opds.mkFeed urlPath
    (Strings.Title (unicode w) (Strings.TrimPrefix urlPath "/"))
    (Opds.mkAuthor (OAuthor s) (AuthorEmail s) (AuthorURI s))
    (TimeNow g tt)
    [Opds.mkLink "start" "/" navigationType ""]
    [].

(** The feed a response carries, if it carries one. *)
Definition servedFeed (r : response) : option Opds.Feed :=
  match r with
  | ServeContent _ _ doc => Some (feedOf doc)
  | _ => None
  end.

(** The Content-Type of a response names the kind of document it carries:
    the acquisition type with a feed in the wrapper that adds the [dc] and
    [opds] name spaces, the navigation type with a bare feed. *)
Definition consistentKind (r : response) : bool :=
  match r with
  | ServeContent ct _ (AcquisitionFeed _ dc opds) =>
      String.eqb ct acquisitionType
      && String.eqb dc "http://purl.org/dc/terms/"
      && String.eqb opds "http://opds-spec.org/2010/catalog"
  | ServeContent ct _ (NavigationFeed _) => String.eqb ct navigationType
  | _ => true
  end.

(** The entry the loops of the handler make for the file [f] of the
    snapshot, in the feed for [urlPath]: named after the file, with one
    link, whose relation and type follow the classification of the file's
    path when the request is served. *)
Definition entryFor (s : OPDS) (w : World) (urlPath : string)
    (f : BookFile) (e : Opds.Entry) : Prop :=
  Opds.e_ID e = urlPath ++ fi_Name (FileInfo_of f) /\
  Opds.e_Title e = fi_Name (FileInfo_of f) /\
  exists pt,
    getPathType w (Path f) = Done pt /\
    Opds.e_Links e =
      [Opds.mkLink (getRel (Path f) pt)
         (Filepath.Join "/"
            (Url.PathEscape (Strings.TrimPrefix (Path f) (DirRoot s))))
         (getType w (Path f) pt)
         (fi_Name (FileInfo_of f))].

(** The feed served for "/latest" on the catalog of the example. *)
Definition exampleLatestFeed : Opds.Feed :=
  Eval vm_compute in
    match servedFeed (fst (Handler Example.booksService
                                   (Example.indexed Example.booksService)
                                   (Example.world 300) "/latest")) with
    | Some feed => feed
    | None => Example.sciFiFeed
    end.

(** A name a directory entry can have: no slash, not empty, neither "."
    nor "..". *)
Definition entryName (nm : string) : Prop :=
  properElement nm /\ nm <> "..".

(** A tree in which the entries of every directory have proper names,
    each name once. *)
Fixpoint wellNamed (n : node) : Prop :=
  match n with
  | File _ => True
  | Dir _ es =>
      NoDup (map fst es) /\
      (fix all (es : list (string * node)) : Prop :=
         match es with
         | [] => True
         | (nm, child) :: rest => entryName nm /\ wellNamed child /\ all rest
         end) es
  end.

(** An absolute clean path other than "/": a slash followed by entry names
    joined by slashes; [K] holds the names, the last one first. *)
Definition cleanAbsolute (p : string) : Prop :=
  exists K, K <> [] /\ Forall entryName K /\ p = Filepath.render true K.

(** A regular file of a tree, by the names that lead to it from the top of
    the tree, with its modification time. *)
Inductive fileAt : node -> list string -> Z -> Prop :=
| fileAt_here (mt : Z) : fileAt (File mt) [] mt
| fileAt_below (mt0 : Z) (es : list (string * node)) (nm : string)
    (child : node) (names : list string) (mt : Z) :
    In (nm, child) es -> fileAt child names mt ->
    fileAt (Dir mt0 es) (nm :: names) mt.

(** The path the walk builds for the entry that [names] lead to from
    [root]: one [filepath.Join] for each name. *)
Definition joinAll (root : string) (names : list string) : string :=
  fold_left Filepath.Join names root.

(** The entry of the snapshot for the file that [names] lead to, in the
    walk of the tree [n] from [root]. *)
Definition entryOf (root : string) (n : node) (names : list string)
    (f : BookFile) : Prop :=
  Path f = joinAll root names /\
  Name f = last names (Filepath.Base root) /\
  fi_Name (FileInfo_of f) = Name f /\
  fi_IsDir (FileInfo_of f) = false /\
  fileAt n names (fi_ModTime (FileInfo_of f)).

(** A string without a per-cent sign. *)
Fixpoint noPercent (s : string) : bool :=
  match s with
  | EmptyString => true
  | String c s' => negb (Ascii.eqb c "%"%char) && noPercent s'
  end.

(** The target of the link that the views make for the file [f] of the
    snapshot. *)
Definition hrefOf (s : OPDS) (f : BookFile) : string :=
  Filepath.Join "/"
    (Url.PathEscape (Strings.TrimPrefix (Path f) (DirRoot s))).

(** What follows a '%' that is not the start of an escape: anything but
    two hexadecimal digits. *)
Definition notAnEscape (t : string) : Prop :=
  match t with
  | String h (String l _) => Url.unhex h = None \/ Url.unhex l = None
  | _ => True
  end.

(** What the one link of the entry [e], made for the file [f] of the
    snapshot, says of the path of [f] as it is in the world [w]. *)
Definition followsFileSystem (w : World) (f : BookFile) (e : Opds.Entry)
    : Prop :=
  exists l,
    Opds.e_Links e = [l] /\
    match resolve w (Path f) with
    | Some (File _) =>
        (Opds.l_Rel l = relThumbnail \/ Opds.l_Rel l = relAcquisition) /\
        Opds.l_Type l = mime_TypeByExtension w (Filepath.Ext (Path f))
    | Some (Dir _ es) =>
        Opds.l_Rel l = relSubsection /\
        Opds.l_Type l = if hasFileChild es then acquisitionType
                        else navigationType
    | None => False
    end.

(** The view served for a request path: by time for "/latest", by name
    otherwise. *)
Definition viewOf (reqPath : string) (snapshot : list BookFile)
    : list BookFile :=
  if String.eqb reqPath "/latest" then latest snapshot else byTitle snapshot.

(** * Properties *)

(** ** Strings and paths *)

Lemma append_nil_r (s : string) : s ++ "" = s.
Proof. induction s; simpl; congruence. Qed.

Lemma append_assoc (s t u : string) : (s ++ t) ++ u = s ++ t ++ u.
Proof. induction s; simpl; congruence. Qed.

Lemma length_append (s t : string) :
  String.length (s ++ t) = String.length s + String.length t.
Proof. induction s; simpl; congruence. Qed.

Lemma substring_all (s : string) : substring 0 (String.length s) s = s.
Proof. induction s; simpl; congruence. Qed.

Lemma substring_head (s t : string) :
  substring 0 (String.length s) (s ++ t) = s.
Proof.
  induction s; simpl; [destruct t; reflexivity | congruence].
Qed.

Lemma substring_tail (s t : string) :
  substring (String.length s) (String.length t) (s ++ t) = t.
Proof. induction s; simpl; [apply substring_all | assumption]. Qed.

Lemma TrimSuffix_append (x suf : string) :
  Strings.TrimSuffix (x ++ suf) suf = x.
Proof.
  unfold Strings.TrimSuffix, Strings.HasSuffix.
  rewrite length_append.
  replace (String.length x + String.length suf - String.length suf)
    with (String.length x) by lia.
  rewrite substring_tail, String.eqb_refl, substring_head.
  replace (Nat.leb _ _) with true; [reflexivity|].
  symmetry. apply Nat.leb_le. lia.
Qed.

Lemma split_slash_aux_append (cur s t : string) :
  Strings.split_slash_aux cur (s ++ String "/" t) =
  (Strings.split_slash_aux cur s ++ Strings.split_slash_aux "" t)%list.
Proof.
  revert cur. induction s as [|c s IH]; intros cur; simpl.
  - reflexivity.
  - destruct (Ascii.eqb c "/"); simpl; rewrite IH; reflexivity.
Qed.

Lemma isRooted_append (p q : string) :
  p <> "" -> Filepath.isRooted (p ++ q) = Filepath.isRooted p.
Proof.
  destruct p as [|c p]; [congruence|]. intros _. reflexivity.
Qed.

(** Joining a path with "/" cleans it. *)
Lemma Join_slash (p : string) : p <> "" -> Filepath.Join p "/" = Filepath.Clean p.
Proof.
  intros Hp. unfold Filepath.Join.
  apply String.eqb_neq in Hp. rewrite Hp. simpl negb. cbv iota.
  unfold Filepath.Clean. rewrite Hp.
  replace (String.eqb (p ++ "/" ++ "/") "") with false
    by (destruct p; [discriminate Hp | reflexivity]).
  apply String.eqb_neq in Hp.
  rewrite isRooted_append by exact Hp.
  change (p ++ "/" ++ "/") with (p ++ String "/" "/").
  unfold Strings.split_slash. rewrite split_slash_aux_append, fold_left_app.
  reflexivity.
Qed.

(** ** Path classification *)

Lemma info_IsDir (name : string) (n : node) :
  fi_IsDir (info name n) = isDirNode n.
Proof. destruct n; reflexivity. Qed.

Lemma scanEntries_kinds (es : list (string * node)) :
  scanEntries (entry_infos es) =
  Done (if forallb (fun b => b) (childKinds es)
        then pathTypeDirOfDirs else pathTypeDirOfFiles).
Proof.
  induction es as [|[nm n] es IH]; simpl; [reflexivity|].
  rewrite info_IsDir. destruct (isDirNode n); simpl; [exact IH|reflexivity].
Qed.

Lemma getPathType_resolve (w : World) (p : string) :
  getPathType w p =
  match resolve w p with
  | None => Panicked
  | Some (File _) => Done pathTypeFile
  | Some (Dir _ es) =>
      Done (if forallb (fun b => b) (childKinds es)
            then pathTypeDirOfDirs else pathTypeDirOfFiles)
  end.
Proof.
  unfold getPathType, os_Stat, ioutil_ReadDir.
  destruct (resolve w p) as [[mt|mt es]|]; simpl; try reflexivity.
  apply scanEntries_kinds.
Qed.

(** C1. Classification looks one level deep: a directory with a child that
    is not a directory is a directory of files, however many
    sub-directories it has; a directory whose children are all directories
    (possibly none) is a directory of directories, whatever those hold; a
    path that names a non-directory is a file; and two directories whose
    immediate children have the same kinds classify alike, whatever lies
    below. *)
Theorem getPathType_shallow (w : World) (p : string) :
  (forall mt es nm mt',
      resolve w p = Some (Dir mt es) -> In (nm, File mt') es ->
      getPathType w p = Done pathTypeDirOfFiles) /\
  (forall mt es,
      resolve w p = Some (Dir mt es) ->
      (forall nm n, In (nm, n) es -> isDirNode n = true) ->
      getPathType w p = Done pathTypeDirOfDirs) /\
  (forall mt,
      resolve w p = Some (File mt) ->
      getPathType w p = Done pathTypeFile) /\
  (forall w' p' mt es mt' es',
      resolve w p = Some (Dir mt es) ->
      resolve w' p' = Some (Dir mt' es') ->
      childKinds es = childKinds es' ->
      getPathType w p = getPathType w' p').
Proof.
  repeat split.
  - intros mt es nm mt' Hr Hin. rewrite getPathType_resolve, Hr.
    replace (forallb (fun b => b) (childKinds es)) with false; [reflexivity|].
    symmetry. apply not_true_is_false. intro Hall.
    rewrite forallb_forall in Hall.
    specialize (Hall (isDirNode (File mt'))).
    simpl in Hall. discriminate Hall.
    unfold childKinds. change false with (isDirNode (snd (nm, File mt'))).
    apply in_map with (f := fun e => isDirNode (snd e)). exact Hin.
  - intros mt es Hr Hall. rewrite getPathType_resolve, Hr.
    replace (forallb (fun b => b) (childKinds es)) with true; [reflexivity|].
    symmetry. apply forallb_forall. intros b Hb.
    unfold childKinds in Hb. apply in_map_iff in Hb.
    destruct Hb as [[nm n] [<- Hin]]. simpl. eapply Hall; eauto.
  - intros mt Hr. rewrite getPathType_resolve, Hr. reflexivity.
  - intros w' p' mt es mt' es' Hr Hr' Hk.
    rewrite !getPathType_resolve, Hr, Hr', Hk. reflexivity.
Qed.

Lemma getPathType_shallow_witness :
  getPathType (Example.world 0) "/srv/books" = Done pathTypeDirOfFiles /\
  getPathType (Example.world 0) "/srv/shelves" = Done pathTypeDirOfDirs /\
  getPathType (Example.world 0) "/srv/books/a.epub" = Done pathTypeFile /\
  getPathType (Example.world 0) "/srv/nested" =
    getPathType (Example.world 0) "/srv/shelves".
Proof.
  destruct (getPathType_shallow (Example.world 0) "/srv/books") as [H1 _].
  destruct (getPathType_shallow (Example.world 0) "/srv/shelves")
    as [_ [H2 _]].
  destruct (getPathType_shallow (Example.world 0) "/srv/books/a.epub")
    as [_ [_ [H3 _]]].
  destruct (getPathType_shallow (Example.world 0) "/srv/nested")
    as [_ [_ [_ H4]]].
  split; [|split; [|split]].
  - eapply H1; [reflexivity | left; reflexivity].
  - eapply H2; [reflexivity|].
    intros nm n [E|[]]. inversion E. reflexivity.
  - eapply H3. reflexivity.
  - eapply H4; reflexivity.
Defined.

(** ** Relation of a link *)

(** The forward scan of [Ext_aux] finds what the backward scan of
    [filepath.Ext] finds: the path has no dot and no slash and the result
    is the candidate kept; or the result is the suffix from the last dot,
    with no slash after it; or the path has a slash with no dot after it
    and the result is empty. *)
Lemma Ext_aux_spec (s : string) :
  forall acc,
    (Filepath.Ext_aux acc s = acc /\ plain s = true) \/
    (exists pre rest, s = pre ++ String "." rest /\ plain rest = true /\
                      Filepath.Ext_aux acc s = String "." rest) \/
    (exists pre rest, s = pre ++ String "/" rest /\ plain rest = true /\
                      Filepath.Ext_aux acc s = "").
Proof.
  induction s as [|c s IH]; intros acc; simpl.
  - left. auto.
  - destruct (Ascii.eqb_spec c "/") as [->|Hs].
    + right. destruct (IH "") as [[E P]|[[pre [rest [-> [P E]]]]|[pre [rest [-> [P E]]]]]].
      * right. exists "", s. auto.
      * left. exists (String "/" pre), rest. auto.
      * right. exists (String "/" pre), rest. auto.
    + destruct (Ascii.eqb_spec c ".") as [->|Hd].
      * right.
        destruct (IH (String "." s))
          as [[E P]|[[pre [rest [-> [P E]]]]|[pre [rest [-> [P E]]]]]].
        -- left. exists "", s. auto.
        -- left. exists (String "." pre), rest. auto.
        -- right. exists (String "." pre), rest. auto.
      * destruct (IH acc)
          as [[E P]|[[pre [rest [-> [P E]]]]|[pre [rest [-> [P E]]]]]].
        -- left. simpl. auto.
        -- right. left. exists (String c pre), rest. auto.
        -- right. right. exists (String c pre), rest. auto.
Qed.

(** [filepath.Ext]: empty when the last element of the path has no dot,
    and otherwise the suffix of the path from its last dot, which lies in
    the last element. *)
Lemma Ext_spec (path : string) :
  (Filepath.Ext path = "" /\
   (plain path = true \/
    exists pre rest, path = pre ++ String "/" rest /\ plain rest = true)) \/
  (exists pre rest, path = pre ++ String "." rest /\ plain rest = true /\
                    Filepath.Ext path = String "." rest).
Proof.
  unfold Filepath.Ext.
  destruct (Ext_aux_spec path "")
    as [[E P]|[[pre [rest [-> [P E]]]]|[pre [rest [-> [P E]]]]]].
  - left. auto.
  - right. eauto.
  - left. split; [exact E|]. right. eauto.
Qed.


Lemma imageExts_eqb (ext : string) :
  (String.eqb ext ".png" || String.eqb ext ".jpg"
   || String.eqb ext ".jpeg" || String.eqb ext ".gif") = true
  <-> In ext imageExts.
Proof.
  unfold imageExts. simpl. rewrite !orb_true_iff, !String.eqb_eq.
  intuition congruence.
Qed.

(** C2. The relation is the thumbnail relation exactly for a file whose
    extension is .png, .jpg, .jpeg or .gif, the subsection relation exactly
    for the two kinds of directory, and the acquisition relation exactly
    for a file with any other extension. *)
Theorem getRel_spec (name : string) (pt : pathType) :
  (getRel name pt = relThumbnail <->
   pt = pathTypeFile /\ In (Filepath.Ext name) imageExts) /\
  (getRel name pt = relSubsection <->
   pt = pathTypeDirOfFiles \/ pt = pathTypeDirOfDirs) /\
  (getRel name pt = relAcquisition <->
   pt = pathTypeFile /\ ~ In (Filepath.Ext name) imageExts).
Proof.
  unfold getRel. rewrite <- imageExts_eqb.
  destruct pt; simpl;
    destruct (String.eqb (Filepath.Ext name) ".png"
              || String.eqb (Filepath.Ext name) ".jpg"
              || String.eqb (Filepath.Ext name) ".jpeg"
              || String.eqb (Filepath.Ext name) ".gif");
    unfold relThumbnail, relSubsection, relAcquisition;
    repeat split; intros; try discriminate; try tauto;
    try (destruct H; discriminate); try (destruct H; congruence);
    try (left; reflexivity); try (right; reflexivity);
    try (intros [? ?]; discriminate).
Qed.

Lemma split_slash_aux_noSlash (cur s : string) :
  noSlash cur = true -> Forall (fun x => noSlash x = true) (Strings.split_slash_aux cur s).
Proof.
  revert cur. induction s as [|c s IH]; intros cur Hc; simpl.
  - constructor; [exact Hc | constructor].
  - destruct (Ascii.eqb c "/") eqn:E.
    + constructor; [exact Hc | apply IH; reflexivity].
    + apply IH. clear IH. induction cur as [|d cur IHc]; simpl in *.
      * rewrite E. reflexivity.
      * apply andb_true_iff in Hc. destruct Hc as [-> Hc]. simpl. auto.
Qed.

Lemma split_slash_aux_plain (cur x : string) :
  noSlash x = true -> Strings.split_slash_aux cur x = [cur ++ x].
Proof.
  revert cur. induction x as [|c x IH]; intros cur Hx; simpl in *.
  - rewrite append_nil_r. reflexivity.
  - apply andb_true_iff in Hx. destruct Hx as [Hc Hx].
    apply negb_true_iff in Hc. rewrite Hc, IH by exact Hx.
    rewrite append_assoc. reflexivity.
Qed.

Lemma split_slash_concat (l : list string) :
  l <> [] -> Forall (fun x => noSlash x = true) l ->
  Strings.split_slash (String.concat "/" l) = l.
Proof.
  unfold Strings.split_slash.
  induction l as [|x l IH]; intros Hne Hall; [congruence|].
  inversion Hall as [|? ? Hx Hl]; subst.
  destruct l as [|y l].
  - simpl. rewrite split_slash_aux_plain by exact Hx. reflexivity.
  - change (String.concat "/" (x :: y :: l))
      with (x ++ String "/" (String.concat "/" (y :: l))).
    rewrite split_slash_aux_append, split_slash_aux_plain by exact Hx.
    rewrite IH by (congruence || assumption). reflexivity.
Qed.

Lemma resolve_steps_app (stk : list node) (l1 l2 : list string) :
  resolve_steps stk (l1 ++ l2) =
  match resolve_steps stk l1 with
  | Some stk' => resolve_steps stk' l2
  | None => None
  end.
Proof.
  revert stk. induction l1 as [|x l1 IH]; intros stk; simpl; [reflexivity|].
  destruct (resolve_step stk x); [apply IH | reflexivity].
Qed.

Lemma resolve_steps_nonempty (segs : list string) :
  forall stk stk', stk <> [] -> resolve_steps stk segs = Some stk' -> stk' <> [].
Proof.
  induction segs as [|x segs IH]; intros stk stk' Hne H; simpl in H.
  - congruence.
  - destruct (resolve_step stk x) as [stk1|] eqn:E; [|discriminate].
    apply (IH stk1); [|exact H].
    unfold resolve_step in E.
    destruct stk as [|[mt|mt es] up]; try discriminate.
    destruct (String.eqb x "."); [congruence|].
    destruct (String.eqb x "..").
    + destruct up; inversion E; congruence.
    + destruct (lookup_entry x es); inversion E; congruence.
Qed.

Lemma clean_step_stack (rooted : bool) (K : list string) (seg : string) :
  noSlash seg = true -> cleanStack rooted K -> cleanStack rooted (Filepath.clean_step rooted K seg).
Proof.
  intros Hs [HK Hr]. unfold Filepath.clean_step.
  destruct (String.eqb_spec seg ""); simpl; [split; assumption|].
  destruct (String.eqb_spec seg "."); simpl; [split; assumption|].
  assert (Hp : properElement seg) by (repeat split; assumption).
  destruct (String.eqb_spec seg "..").
  - destruct K as [|top rest].
    + destruct rooted eqn:R.
      * split; [constructor | intros _ []].
      * split; [constructor; [exact Hp | constructor] | intros; discriminate].
    + destruct (String.eqb_spec top "..").
      * split; [constructor; assumption|].
        intros R. exfalso. apply (Hr R). left. assumption.
      * inversion HK; subst. split; [assumption|].
        intros R Hin. apply (Hr R). right. exact Hin.
  - split; [constructor; assumption|].
    intros R [E|Hin]; [congruence | exact (Hr R Hin)].
Qed.

Section CleanResolves.

Variable rooted : bool.
Variable S0 : list node.
Hypothesis S0_nonempty : S0 <> [].
Hypothesis S0_root : rooted = true -> exists r, S0 = [r].

Lemma clean_simulates (segs : list string) :
  forall K N N',
    Forall (fun x => noSlash x = true) segs ->
    cleanStack rooted K ->
    resolve_steps S0 (rev K) = Some N ->
    resolve_steps N (filter (fun seg => negb (String.eqb seg "")) segs) = Some N' ->
    cleanStack rooted (fold_left (Filepath.clean_step rooted) segs K) /\
    resolve_steps S0 (rev (fold_left (Filepath.clean_step rooted) segs K)) = Some N'.
Proof.
  induction segs as [|seg segs IH]; intros K N N' Hseg HK HN HN'.
  - simpl in *. split; [assumption | congruence].
  - inversion Hseg as [|? ? Hs Hsegs]; subst.
    pose proof (clean_step_stack rooted K seg Hs HK) as HK'.
    simpl fold_left. simpl filter in HN'.
    unfold Filepath.clean_step in *.
    destruct (String.eqb_spec seg "") as [->|Hne]; simpl in *.
    { eapply IH; eauto. }
    destruct (resolve_step N seg) as [N1|] eqn:E1; [|discriminate].
    destruct (String.eqb_spec seg ".") as [->|Hnd]; simpl in *.
    { apply (IH K N1 N'); auto.
      unfold resolve_step in E1. destruct N as [|[mt|mt es] up]; try discriminate.
      simpl in E1. inversion E1; subst. exact HN. }
    destruct (String.eqb_spec seg "..") as [->|Hndd].
    + destruct K as [|top rest].
      * simpl in HN. inversion HN; subst N.
        destruct rooted eqn:R.
        -- destruct (S0_root eq_refl) as [r Hr]. rewrite Hr in E1.
           unfold resolve_step in E1. destruct r as [mt|mt es]; [discriminate|].
           simpl in E1. inversion E1; subst N1.
           apply (IH [] S0 N'); auto. rewrite Hr. exact HN'.
        -- apply (IH [".."] N1 N'); auto. simpl. rewrite E1. reflexivity.
      * destruct (String.eqb_spec top "..") as [->|Hnt].
        -- apply (IH (".." :: ".." :: rest) N1 N'); auto.
           change (rev (".." :: ".." :: rest)) with (rev (".." :: rest) ++ [".."])%list.
           rewrite resolve_steps_app, HN. simpl. rewrite E1. reflexivity.
        -- apply (IH rest N1 N'); auto.
           simpl in HN. rewrite resolve_steps_app in HN.
           destruct (resolve_steps S0 (rev rest)) as [M|] eqn:EM; [|discriminate].
           simpl in HN.
           destruct (resolve_step M top) as [N0|] eqn:E0; [|discriminate].
           inversion HN; subst N0. clear HN.
           destruct HK as [HK _]. inversion HK as [|? ? [_ [Hte Htd]] _]; subst.
           unfold resolve_step in E0.
           destruct M as [|[mt|mt es] up]; try discriminate.
           apply String.eqb_neq in Htd, Hnt. rewrite Htd, Hnt in E0.
           destruct (lookup_entry top es) as [n|]; [|discriminate].
           inversion E0; subst N. clear E0.
           unfold resolve_step in E1. destruct n as [mt'|mt' es']; [discriminate|].
           simpl in E1. inversion E1. reflexivity.
    + apply (IH (seg :: K) N1 N'); auto.
      simpl. rewrite resolve_steps_app, HN. simpl. rewrite E1. reflexivity.
Qed.

End CleanResolves.

Lemma split_slash_aux_head (cur s : string) :
  exists x rest, Strings.split_slash_aux cur s = (cur ++ x) :: rest.
Proof.
  revert cur. induction s as [|c s IH]; intros cur; simpl.
  - exists "", []. rewrite append_nil_r. reflexivity.
  - destruct (Ascii.eqb c "/").
    + exists "", (Strings.split_slash_aux "" s). rewrite append_nil_r. reflexivity.
    + destruct (IH (cur ++ String c "")) as [x [rest E]].
      exists (String c x), rest. rewrite E, append_assoc. reflexivity.
Qed.

Lemma filter_proper (l : list string) :
  Forall properElement l ->
  filter (fun seg => negb (String.eqb seg "")) l = l.
Proof.
  induction 1 as [|x l [_ [Hx _]] _ IH]; simpl; [reflexivity|].
  apply String.eqb_neq in Hx. rewrite Hx, IH. reflexivity.
Qed.

Lemma concat_proper_nonempty (l : list string) :
  l <> [] -> Forall properElement l ->
  exists c t, String.concat "/" l = String c t /\ Ascii.eqb c "/" = false.
Proof.
  intros Hne Hall. destruct l as [|x l]; [congruence|].
  inversion Hall as [|? ? [Hs [Hx _]] _]; subst.
  destruct x as [|c x]; [congruence|].
  simpl in Hs. apply andb_true_iff in Hs. destruct Hs as [Hc _].
  apply negb_true_iff in Hc.
  exists c. destruct l; simpl; eauto.
Qed.

Lemma Forall_properElement_noSlash (l : list string) :
  Forall properElement l -> Forall (fun x => noSlash x = true) l.
Proof. apply Forall_impl. intros x [H _]. exact H. Qed.

(** The elements of a rendered clean stack are the stack. *)
Lemma segments_render (rooted : bool) (K : list string) :
  Forall properElement K -> (rooted = true \/ K <> []) ->
  segments (Filepath.render rooted K) = rev K /\
  Filepath.isRooted (Filepath.render rooted K) = rooted /\
  Filepath.render rooted K <> "".
Proof.
  intros HK Hor.
  assert (HR : Forall properElement (rev K)) by (apply Forall_rev; exact HK).
  unfold Filepath.render, segments.
  destruct K as [|top rest] eqn:EK.
  - destruct Hor as [->|]; [|congruence]. repeat split; discriminate.
  - rewrite <- EK in *.
    assert (Hne : rev K <> []).
    { intro E. apply (f_equal (@rev string)) in E. rewrite rev_involutive in E.
      simpl in E. congruence. }
    clear EK.
    destruct (concat_proper_nonempty (rev K) Hne HR) as [c [t [E Hc]]].
    pose proof (split_slash_concat (rev K) Hne (Forall_properElement_noSlash _ HR)) as Hsp.
    destruct rooted.
    + repeat split; [|discriminate].
      change ("/" ++ String.concat "/" (rev K))
        with ("" ++ String "/" (String.concat "/" (rev K))).
      unfold Strings.split_slash in *.
      rewrite split_slash_aux_append, Hsp. simpl.
      apply filter_proper. exact HR.
    + rewrite E. simpl String.eqb. cbv iota. rewrite <- E.
      repeat split.
      * rewrite Hsp. apply filter_proper. exact HR.
      * rewrite E. simpl. exact Hc.
      * rewrite E. discriminate.
Qed.

Lemma segments_relative_nonempty (p : string) :
  p <> "" -> Filepath.isRooted p = false -> segments p <> [].
Proof.
  intros Hp Hr. destruct p as [|c p]; [congruence|].
  unfold segments, Strings.split_slash. simpl in *. rewrite Hr.
  destruct (split_slash_aux_head (String c "") p) as [x [rest E]].
  rewrite E. simpl. discriminate.
Qed.

Lemma fold_clean_stack (rooted : bool) (segs : list string) :
  forall K,
    Forall (fun x => noSlash x = true) segs -> cleanStack rooted K ->
    cleanStack rooted (fold_left (Filepath.clean_step rooted) segs K).
Proof.
  induction segs as [|seg segs IH]; intros K Hs HK; simpl; [exact HK|].
  inversion Hs; subst. apply IH; [assumption|].
  apply clean_step_stack; assumption.
Qed.

Lemma fold_clean_stack_proper (rooted : bool) (p : string) :
  Forall properElement
         (fold_left (Filepath.clean_step rooted) (Strings.split_slash p) []).
Proof.
  apply (fold_clean_stack rooted (Strings.split_slash p) []).
  - apply split_slash_aux_noSlash. reflexivity.
  - split; [constructor | intros _ []].
Qed.

Lemma follow_Clean (w : World) (p : string) (n : node) :
  follow w p = Some n -> follow w (Filepath.Clean p) = Some n.
Proof.
  unfold follow, Filepath.Clean.
  destruct (String.eqb_spec p "") as [|Hp]; [discriminate|].
  set (rooted := Filepath.isRooted p).
  set (start := if rooted then [] else cwd w).
  rewrite resolve_steps_app.
  destruct (resolve_steps [fs_root w] start) as [S0|] eqn:ES; [|discriminate].
  destruct (resolve_steps S0 (segments p)) as [[|n0 rest]|] eqn:EN; try discriminate.
  intros H. inversion H; subst n0. clear H.
  assert (HS0 : S0 <> []).
  { eapply resolve_steps_nonempty; [|exact ES]. discriminate. }
  assert (HS0r : rooted = true -> exists r, S0 = [r]).
  { intros R. subst start. rewrite R in ES. simpl in ES. inversion ES. eauto. }
  destruct (clean_simulates rooted S0 HS0r (Strings.split_slash p) [] S0 (n :: rest))
    as [[HK HKr] Hres].
  { apply split_slash_aux_noSlash. reflexivity. }
  { split; [constructor | intros _ []]. }
  { reflexivity. }
  { exact EN. }
  set (K := fold_left (Filepath.clean_step rooted) (Strings.split_slash p) []) in *.
  destruct (Bool.bool_dec rooted true) as [R|R];
    [|destruct K as [|top rest'] eqn:EK].
  - destruct (segments_render rooted K HK (or_introl R)) as [Hseg [Hroot Hne]].
    apply String.eqb_neq in Hne. rewrite Hne, Hroot, Hseg.
    fold start. rewrite resolve_steps_app, ES, Hres. reflexivity.
  - apply not_true_is_false in R.
    simpl in Hres. inversion Hres; subst S0. clear Hres.
    pose proof (segments_relative_nonempty p Hp R) as Hsn.
    destruct (segments p) as [|seg segs]; [congruence|].
    simpl in EN.
    destruct n as [mt|mt es]; [discriminate|].
    rewrite R. simpl. subst start. rewrite R in ES.
    change (segments ".") with ["."].
    rewrite resolve_steps_app, ES. reflexivity.
  - rewrite <- EK in *.
    assert (HKne : K <> []) by congruence.
    destruct (segments_render rooted K HK (or_intror HKne)) as [Hseg [Hroot Hne]].
    apply String.eqb_neq in Hne. rewrite Hne, Hroot, Hseg.
    fold start. rewrite resolve_steps_app, ES, Hres. reflexivity.
Qed.

Lemma endsWithSlash_append (p q : string) :
  q <> "" -> endsWithSlash (p ++ q) = endsWithSlash q.
Proof.
  intros Hq. induction p as [|c p IH]; [reflexivity|].
  simpl append. simpl endsWithSlash. rewrite IH.
  destruct (p ++ q) eqn:E; [|reflexivity].
  destruct p; [simpl in E; congruence | discriminate E].
Qed.

Lemma endsWithSlash_noSlash (x : string) :
  noSlash x = true -> endsWithSlash x = false.
Proof.
  induction x as [|c x IH]; [reflexivity|]. simpl noSlash.
  intros H. apply andb_true_iff in H. destruct H as [Hc Hx].
  apply negb_true_iff in Hc. simpl. rewrite (IH Hx).
  destruct x; [exact Hc | reflexivity].
Qed.

Lemma endsWithSlash_concat (l : list string) :
  l <> [] -> Forall properElement l ->
  endsWithSlash (String.concat "/" l) = false.
Proof.
  induction l as [|x l IH]; intros Hne Hall; [congruence|].
  inversion Hall as [|? ? [Hx _] Hl]; subst.
  destruct l as [|y l]; [apply endsWithSlash_noSlash; exact Hx|].
  change (String.concat "/" (x :: y :: l))
    with (x ++ String "/" (String.concat "/" (y :: l))).
  rewrite endsWithSlash_append by discriminate.
  destruct (concat_proper_nonempty (y :: l)) as [c [t [E _]]];
    [discriminate | exact Hl|].
  pose proof (IH ltac:(discriminate) Hl) as Hy.
  set (cc := String.concat "/" (y :: l)) in *. rewrite E in *.
  exact Hy.
Qed.

Lemma endsWithSlash_render (rooted : bool) (K : list string) :
  Forall properElement K ->
  endsWithSlash (Filepath.render rooted K) = true ->
  Filepath.render rooted K = "/".
Proof.
  intros HK. unfold Filepath.render.
  destruct K as [|top rest] eqn:EK.
  - destruct rooted; [reflexivity | discriminate].
  - rewrite <- EK in *.
    assert (HR : Forall properElement (rev K)) by (apply Forall_rev; exact HK).
    assert (Hne : rev K <> []).
    { rewrite EK. simpl. destruct (rev rest); discriminate. }
    pose proof (endsWithSlash_concat (rev K) Hne HR) as He.
    destruct (concat_proper_nonempty (rev K) Hne HR) as [c [t [E Hc]]].
    destruct rooted.
    + change ("/" ++ String.concat "/" (rev K))
        with (String "/" (String.concat "/" (rev K))).
      simpl endsWithSlash. rewrite E. rewrite <- E, He. discriminate.
    + rewrite E. simpl String.eqb. cbv iota. rewrite <- E, He. discriminate.
Qed.

Lemma endsWithSlash_Clean (p : string) :
  endsWithSlash (Filepath.Clean p) = true -> Filepath.Clean p = "/".
Proof.
  unfold Filepath.Clean.
  destruct (String.eqb p ""); [discriminate|].
  apply endsWithSlash_render.
  apply fold_clean_stack_proper.
Qed.

Lemma segments_nil_aux (s : string) :
  forall cur,
    filter (fun seg => negb (String.eqb seg ""))
           (Strings.split_slash_aux cur s) = [] ->
    cur = "" /\ (s <> "" -> endsWithSlash s = true).
Proof.
  induction s as [|c s IH]; intros cur H; simpl in H.
  - destruct (String.eqb_spec cur ""); [|discriminate H].
    split; [assumption | congruence].
  - destruct (Ascii.eqb_spec c "/") as [->|Hc].
    + simpl in H. destruct (String.eqb_spec cur ""); [|discriminate H].
      simpl in H. destruct (IH _ H) as [_ Hs].
      split; [assumption|]. intros _. simpl.
      destruct s; [reflexivity | apply Hs; discriminate].
    + destruct (IH _ H) as [E _]. destruct cur; discriminate E.
Qed.

Lemma segments_nil_endsWithSlash (p : string) :
  p <> "" -> segments p = [] -> endsWithSlash p = true.
Proof.
  intros Hp H. destruct (segments_nil_aux p "" H) as [_ Hs]. auto.
Qed.

(** Cleaning a path that resolves does not change what it resolves to. *)
Lemma resolve_Clean (w : World) (p : string) (n : node) :
  resolve w p = Some n -> resolve w (Filepath.Clean p) = Some n.
Proof.
  unfold resolve.
  destruct (follow w p) as [[mt|mt es]|] eqn:EF; try discriminate.
  - destruct (endsWithSlash p) eqn:EP; [discriminate|].
    intros H. inversion H; subst n. clear H.
    pose proof (follow_Clean _ _ _ EF) as EC. rewrite EC.
    destruct (endsWithSlash (Filepath.Clean p)) eqn:ES; [|reflexivity].
    exfalso. apply endsWithSlash_Clean in ES.
    assert (Hp : p <> "") by (intros ->; discriminate EF).
    assert (Hr : Filepath.isRooted p = true).
    { unfold Filepath.Clean in ES. pose proof Hp as Hp'.
      apply String.eqb_neq in Hp'. rewrite Hp' in ES.
      destruct (Filepath.isRooted p) eqn:R; [reflexivity|].
      exfalso.
      pose proof (fold_clean_stack_proper false p) as HK.
      unfold Filepath.render in ES.
      destruct (fold_left _ _ _) as [|top rest] eqn:EK; [discriminate ES|].
      rewrite <- EK in *.
      assert (Hne : rev (fold_left (Filepath.clean_step false)
                                   (Strings.split_slash p) []) <> []).
      { rewrite EK. simpl. destruct (rev rest); discriminate. }
      destruct (concat_proper_nonempty _ Hne (Forall_rev HK))
        as [c [t [E Hc]]].
      rewrite E in ES. simpl in ES. inversion ES; subst.
      discriminate Hc. }
    rewrite ES in EC. unfold follow in EC, EF. simpl in EC.
    inversion EC as [Hroot]. apply String.eqb_neq in Hp.
    rewrite Hp, Hr, Hroot in EF. simpl in EF.
    destruct (segments p) as [|seg segs] eqn:Eseg; [|discriminate EF].
    apply String.eqb_neq in Hp.
    rewrite (segments_nil_endsWithSlash p Hp Eseg) in EP. discriminate.
  - intros H. inversion H; subst n.
    rewrite (follow_Clean _ _ _ EF). reflexivity.
Qed.

(** ** The sort permutes the slice *)
Section SortPermutes.

Local Open Scope nat_scope.
Context {A : Type}.
Variable lt : A -> A -> bool.

Lemma set_Permutation (l : list A) (i : nat) (a x : A) :
  nth_error l i = Some a -> Permutation (a :: Sort.set l i x) (x :: l).
Proof.
  revert i. induction l as [|h l IH]; intros [|i] H; simpl in *; try discriminate.
  - inversion H; subst. apply perm_swap.
  - specialize (IH i H).
    apply perm_trans with (h :: a :: Sort.set l i x); [apply perm_swap|].
    apply perm_trans with (h :: x :: l); [apply perm_skip; exact IH|].
    apply perm_swap.
Qed.

Lemma nth_error_set (l : list A) (i j : nat) (x : A) :
  nth_error (Sort.set l i x) j =
  if Nat.eqb i j then (if Nat.ltb i (List.length l) then Some x else None)
  else nth_error l j.
Proof.
  revert i j. induction l as [|h l IH]; intros [|i] [|j]; simpl; try reflexivity.
  - destruct (Nat.eqb i j); reflexivity.
  - rewrite IH. destruct (Nat.eqb i j); reflexivity.
Qed.

Lemma Swap_Permutation (l : list A) (i j : nat) :
  Permutation (Sort.Swap l i j) l.
Proof.
  unfold Sort.Swap.
  destruct (nth_error l i) as [x|] eqn:Ei; [|reflexivity].
  destruct (nth_error l j) as [y|] eqn:Ej; [|reflexivity].
  pose proof (set_Permutation l i x y Ei) as H1.
  assert (Ej' : nth_error (Sort.set l i y) j = Some y).
  { rewrite nth_error_set. destruct (Nat.eqb_spec i j) as [->|]; [|exact Ej].
    replace (Nat.ltb j (List.length l)) with true; [reflexivity|].
    symmetry. apply Nat.ltb_lt. apply nth_error_Some. congruence. }
  pose proof (set_Permutation (Sort.set l i y) j y x Ej') as H2.
  apply Permutation_cons_inv with (a := y).
  apply perm_trans with (x :: Sort.set l i y); [exact H2|exact H1].
Qed.

Lemma for_up_invariant {S : Type} (P : S -> Prop) (body : nat -> S -> S) :
  (forall i s, P s -> P (body i s)) ->
  forall n i s, P s -> P (Sort.for_up i n body s).
Proof.
  intros Hb. induction n as [|n IH]; intros i s Hs; simpl; auto.
Qed.

Lemma for_down_invariant {S : Type} (P : S -> Prop) (body : nat -> S -> S) :
  (forall i s, P s -> P (body i s)) ->
  forall n s, P s -> P (Sort.for_down n body s).
Proof.
  intros Hb. induction n as [|n IH]; intros s Hs; simpl; auto.
Qed.

Lemma insert_down_Permutation (n a : nat) (l : list A) :
  Permutation (Sort.insert_down lt l a n) l.
Proof.
  revert l. induction n as [|n IH]; intros l; simpl; [reflexivity|].
  destruct (Sort.Less lt l (a + S n) (a + n)); [|reflexivity].
  rewrite IH. apply Swap_Permutation.
Qed.

Lemma insertionSort_Permutation (l : list A) (a b : nat) :
  Permutation (Sort.insertionSort lt l a b) l.
Proof.
  unfold Sort.insertionSort.
  apply (for_up_invariant (fun d => Permutation d l)); [|reflexivity].
  intros i d Hd. rewrite insert_down_Permutation. exact Hd.
Qed.

Lemma siftDown_loop_Permutation (fuel : nat) :
  forall l root hi first,
    Permutation (Sort.siftDown_loop lt fuel l root hi first) l.
Proof.
  induction fuel as [|fuel IH]; intros l root hi first; simpl; [reflexivity|].
  match goal with |- context [hi <=? ?x] => destruct (hi <=? x) end;
    [reflexivity|].
  match goal with |- context [negb ?c] => destruct c end; simpl; [|reflexivity].
  rewrite IH. apply Swap_Permutation.
Qed.

Lemma heapSort_Permutation (l : list A) (a b : nat) :
  Permutation (Sort.heapSort lt l a b) l.
Proof.
  unfold Sort.heapSort.
  apply (for_down_invariant (fun d => Permutation d l)).
  - intros i d Hd. unfold Sort.siftDown.
    rewrite siftDown_loop_Permutation, Swap_Permutation. exact Hd.
  - apply (for_down_invariant (fun d => Permutation d l)); [|reflexivity].
    intros i d Hd. unfold Sort.siftDown.
    rewrite siftDown_loop_Permutation. exact Hd.
Qed.

Lemma medianOfThree_Permutation (l : list A) (m1 m0 m2 : nat) :
  Permutation (Sort.medianOfThree lt l m1 m0 m2) l.
Proof.
  unfold Sort.medianOfThree.
  repeat match goal with
         | |- context [if ?c then _ else _] => destruct c
         end;
    repeat rewrite Swap_Permutation; reflexivity.
Qed.

Lemma partition_loop_Permutation (fuel : nat) :
  forall l pivot b c,
    Permutation (fst (fst (Sort.partition_loop lt fuel l pivot b c))) l.
Proof.
  induction fuel as [|fuel IH]; intros l pivot b c; simpl; [reflexivity|].
  match goal with |- context [if ?c then _ else _] => destruct c end;
    simpl; [reflexivity|].
  rewrite IH. apply Swap_Permutation.
Qed.

Lemma protect_loop_Permutation (fuel : nat) :
  forall l pivot a b,
    Permutation (fst (fst (Sort.protect_loop lt fuel l pivot a b))) l.
Proof.
  induction fuel as [|fuel IH]; intros l pivot a b; simpl; [reflexivity|].
  match goal with |- context [if ?c then _ else _] => destruct c end;
    simpl; [reflexivity|].
  rewrite IH. apply Swap_Permutation.
Qed.

Lemma choosePivot_Permutation (l : list A) (lo hi : nat) :
  Permutation (Sort.choosePivot lt l lo hi) l.
Proof.
  unfold Sort.choosePivot.
  destruct (40 <? hi - lo); repeat rewrite medianOfThree_Permutation;
    reflexivity.
Qed.

Lemma testDups_Permutation (l : list A) (hi m pivot b c : nat) :
  Permutation (fst (fst (fst (Sort.testDups lt l hi m pivot b c)))) l.
Proof.
  unfold Sort.testDups.
  repeat match goal with
         | |- context [if ?c then _ else _] => destruct c
         end; simpl; repeat rewrite Swap_Permutation; reflexivity.
Qed.

Lemma doPivot_Permutation (l : list A) (lo hi : nat) :
  Permutation (fst (fst (Sort.doPivot lt l lo hi))) l.
Proof.
  unfold Sort.doPivot.
  pose proof (choosePivot_Permutation l lo hi) as H1.
  set (l1 := Sort.choosePivot lt l lo hi) in *. clearbody l1.
  match goal with
  | |- context [Sort.partition_loop lt ?f ?d ?p ?b ?c] =>
      pose proof (partition_loop_Permutation f d p b c) as H2;
      destruct (Sort.partition_loop lt f d p b c) as [[l2 b2] c2]
  end.
  simpl in H2.
  match goal with
  | |- context [if ?c then Sort.testDups lt ?d ?h ?m ?p ?b ?c' else ?e] =>
      assert (H3 : Permutation
                     (fst (fst (fst (if c then Sort.testDups lt d h m p b c'
                                     else e)))) l);
      [destruct c; [rewrite testDups_Permutation|simpl]; rewrite H2; exact H1|];
      destruct (if c then Sort.testDups lt d h m p b c' else e)
        as [[[l3 b3] c3] pr]
  end.
  simpl in H3.
  destruct pr.
  - match goal with
    | |- context [Sort.protect_loop lt ?f ?d ?p ?a ?b] =>
        pose proof (protect_loop_Permutation f d p a b) as H4;
        destruct (Sort.protect_loop lt f d p a b) as [[l4 a4] b4]
    end.
    simpl in *. rewrite Swap_Permutation, H4. exact H3.
  - simpl. rewrite Swap_Permutation. exact H3.
Qed.

Lemma quickSort_Permutation (maxDepth : nat) :
  forall l a b, Permutation (Sort.quickSort lt l a b maxDepth) l.
Proof.
  induction maxDepth as [|d IH]; intros l a b; simpl.
  - destruct (12 <? b - a); [apply heapSort_Permutation|].
    destruct (1 <? b - a); [|reflexivity].
    rewrite insertionSort_Permutation.
    apply (for_up_invariant (fun x => Permutation x l)); [|reflexivity].
    intros i x Hx. destruct (Sort.Less lt x i (i - 6)); [|exact Hx].
    rewrite Swap_Permutation. exact Hx.
  - destruct (12 <? b - a).
    + pose proof (doPivot_Permutation l a b) as Hp.
      destruct (Sort.doPivot lt l a b) as [[l1 mlo] mhi]. simpl in Hp.
      destruct (mlo - a <? b - mhi); rewrite !IH; exact Hp.
    + destruct (1 <? b - a); [|reflexivity].
      rewrite insertionSort_Permutation.
      apply (for_up_invariant (fun x => Permutation x l)); [|reflexivity].
      intros i x Hx. destruct (Sort.Less lt x i (i - 6)); [|exact Hx].
      rewrite Swap_Permutation. exact Hx.
Qed.

Lemma Slice_Permutation (l : list A) : Permutation (Sort.Slice lt l) l.
Proof. apply quickSort_Permutation. Qed.

End SortPermutes.

(** ** The sort sorts *)
Section SortSorts.

Local Open Scope nat_scope.

Context {A : Type}.
Variable lt : A -> A -> bool.
Variable d : A.
Hypothesis lt_asym : forall x y, lt x y = true -> lt y x = false.
Hypothesis le_trans :
  forall x y z, lt y x = false -> lt z y = false -> lt z x = false.

Notation "l .[ i ]" := (get d l i) (at level 1, format "l .[ i ]").

Lemma lt_irrefl (x : A) : lt x x = false.
Proof. destruct (lt x x) eqn:E; [apply lt_asym in E as E'; congruence | reflexivity]. Qed.

Lemma lt_irrefl_eq (l : list A) (i j : nat) : i = j -> lt l.[i] l.[j] = false.
Proof. intros ->. apply lt_irrefl. Qed.

Lemma get_nth_error (l : list A) (i : nat) :
  i < length l -> nth_error l i = Some l.[i].
Proof. intros H. unfold get. apply nth_error_nth'. exact H. Qed.

Lemma length_set (l : list A) (i : nat) (x : A) :
  length (Sort.set l i x) = length l.
Proof. revert i. induction l as [|h l IH]; intros [|i]; simpl; auto. Qed.

Lemma get_set (l : list A) (i k : nat) (x : A) :
  i < length l -> (Sort.set l i x).[k] = if k =? i then x else l.[k].
Proof.
  unfold get. revert i k. induction l as [|h l IH]; intros i k H; simpl in H; [lia|].
  destruct i as [|i], k as [|k]; simpl; try reflexivity.
  apply IH. lia.
Qed.

Lemma length_Swap (l : list A) (i j : nat) :
  length (Sort.Swap l i j) = length l.
Proof.
  unfold Sort.Swap. destruct (nth_error l i); [|reflexivity].
  destruct (nth_error l j); [|reflexivity].
  rewrite !length_set. reflexivity.
Qed.

Lemma get_Swap (l : list A) (i j k : nat) :
  i < length l -> j < length l ->
  (Sort.Swap l i j).[k] =
  if k =? j then l.[i] else if k =? i then l.[j] else l.[k].
Proof.
  intros Hi Hj. unfold Sort.Swap.
  rewrite (get_nth_error l i Hi), (get_nth_error l j Hj).
  rewrite get_set by (rewrite length_set; exact Hj).
  destruct (k =? j); [reflexivity|].
  apply get_set. exact Hi.
Qed.

Lemma Less_get (l : list A) (i j : nat) :
  i < length l -> j < length l -> Sort.Less lt l i j = lt l.[i] l.[j].
Proof.
  intros Hi Hj. unfold Sort.Less.
  rewrite (get_nth_error l i Hi), (get_nth_error l j Hj). reflexivity.
Qed.

Lemma rearranges_refl (l : list A) (a b : nat) : rearranges d l l a b.
Proof. repeat split; auto. Qed.

Lemma rearranges_trans (l1 l2 l3 : list A) (a b : nat) :
  rearranges d l1 l2 a b -> rearranges d l2 l3 a b -> rearranges d l1 l3 a b.
Proof.
  intros [L1 [O1 K1]] [L2 [O2 K2]]. repeat split.
  - congruence.
  - intros k Hk. rewrite O2, O1 by exact Hk. reflexivity.
  - intros P HP. apply K2. apply K1. exact HP.
Qed.

Lemma rearranges_widen (l l' : list A) (a b a' b' : nat) :
  a' <= a -> b <= b' -> rearranges d l l' a b -> rearranges d l l' a' b'.
Proof.
  intros Ha Hb [L [O K]]. repeat split.
  - exact L.
  - intros k Hk. apply O. lia.
  - intros P HP k Hk1 Hk2.
    destruct (le_lt_dec a k) as [H1|H1]; [destruct (le_lt_dec b k) as [H2|H2]|].
    + rewrite O by lia. apply HP; lia.
    + apply K; try lia. intros k' ? ?. apply HP; lia.
    + rewrite O by lia. apply HP; lia.
Qed.

Lemma rearranges_Swap (l : list A) (i j a b : nat) :
  a <= i -> i < b -> a <= j -> j < b -> b <= length l ->
  rearranges d l (Sort.Swap l i j) a b.
Proof.
  intros. repeat split.
  - apply length_Swap.
  - intros k Hk. rewrite get_Swap by lia.
    destruct (Nat.eqb_spec k j); [lia|]. destruct (Nat.eqb_spec k i); [lia|].
    reflexivity.
  - intros P HP k Hk1 Hk2. rewrite get_Swap by lia.
    destruct (Nat.eqb_spec k j); [apply HP; lia|].
    destruct (Nat.eqb_spec k i); apply HP; lia.
Qed.

Lemma rearranges_length (l l' : list A) (a b : nat) :
  rearranges d l l' a b -> length l' = length l.
Proof. intros [L _]. exact L. Qed.

(** Indexed loop rules *)
Lemma for_up_rule {St : Type} (P : nat -> St -> Prop) (body : nat -> St -> St) :
  forall n lo s,
    P lo s ->
    (forall i s, lo <= i -> i < lo + n -> P i s -> P (i + 1) (body i s)) ->
    P (lo + n) (Sort.for_up lo n body s).
Proof.
  induction n as [|n IH]; intros lo s H0 Hstep; simpl.
  - rewrite Nat.add_0_r. exact H0.
  - replace (lo + S n) with (S lo + n) by lia. apply IH.
    + replace (S lo) with (lo + 1) by lia. apply Hstep; [lia | lia | exact H0].
    + intros i s' ? ? Hi. apply Hstep; [lia | lia | exact Hi].
Qed.

Lemma for_down_rule {St : Type} (P : nat -> St -> Prop) (body : nat -> St -> St) :
  forall n s,
    P n s ->
    (forall i s, i < n -> P (i + 1) s -> P i (body i s)) ->
    P 0 (Sort.for_down n body s).
Proof.
  induction n as [|n IH]; intros s H0 Hstep; simpl.
  - exact H0.
  - apply IH.
    + apply Hstep; [lia|]. replace (n + 1) with (S n) by lia. exact H0.
    + intros i s' ? Hi. apply Hstep; [lia | exact Hi].
Qed.

(** Insertion sort *)
Lemma insert_down_spec (a i : nat) :
  forall n l,
    a + n <= i -> i < length l ->
    sortedRange lt d l a (a + n) ->
    sortedRange lt d l (a + n) (i + 1) ->
    (forall p q, a <= p -> p < a + n -> a + n < q -> q <= i ->
                 lt l.[q] l.[p] = false) ->
    rearranges d l (Sort.insert_down lt l a n) a (i + 1) /\
    sortedRange lt d (Sort.insert_down lt l a n) a (i + 1).
Proof.
  induction n as [|n IH]; intros l Hn Hi S1 S2 X; simpl.
  - split; [apply rearranges_refl|].
    rewrite Nat.add_0_r in *. exact S2.
  - rewrite Less_get by lia.
    destruct (lt l.[a + S n] l.[a + n]) eqn:E.
    + assert (E' := lt_asym _ _ E).
      destruct (IH (Sort.Swap l (a + S n) (a + n))) as [R S'].
      * lia.
      * rewrite length_Swap. exact Hi.
      * intros p q Hp Hpq Hq. rewrite !get_Swap by lia.
        destruct (Nat.eqb_spec q (a + n)); [lia|].
        destruct (Nat.eqb_spec q (a + S n)); [lia|].
        destruct (Nat.eqb_spec p (a + n)); [lia|].
        destruct (Nat.eqb_spec p (a + S n)); [lia|].
        apply S1; lia.
      * intros p q Hp Hpq Hq. rewrite !get_Swap by lia.
        destruct (Nat.eqb_spec q (a + n)); [lia|].
        destruct (Nat.eqb_spec p (a + n)).
        -- destruct (Nat.eqb_spec q (a + S n)); [exact E'|].
           apply S2; lia.
        -- destruct (Nat.eqb_spec p (a + S n)).
           ++ destruct (Nat.eqb_spec q (a + S n)); [lia|].
              apply X; lia.
           ++ destruct (Nat.eqb_spec q (a + S n)); [lia|].
              apply S2; lia.
      * intros p q Hp Hp' Hq Hq'. rewrite !get_Swap by lia.
        destruct (Nat.eqb_spec p (a + n)); [lia|].
        destruct (Nat.eqb_spec p (a + S n)); [lia|].
        destruct (Nat.eqb_spec q (a + n)); [lia|].
        destruct (Nat.eqb_spec q (a + S n)).
        -- apply S1; lia.
        -- apply X; lia.
      * split; [|exact S'].
        eapply rearranges_trans; [|exact R].
        apply rearranges_Swap; lia.
    + split; [apply rearranges_refl|].
      intros p q Hp Hpq Hq.
      destruct (le_lt_dec (a + S n) p) as [H1|H1]; [apply S2; lia|].
      destruct (le_lt_dec (a + S n) q) as [H2|H2]; [|apply S1; lia].
      destruct (Nat.eq_dec q (a + S n)) as [->|H3].
      * destruct (Nat.eq_dec p (a + n)) as [->|H4]; [exact E|].
        apply le_trans with (y := l.[a + n]); [apply S1; lia | exact E].
      * apply X; lia.
Qed.

Lemma insertionSort_spec (l : list A) (a b : nat) :
  a <= b -> b <= length l ->
  rearranges d l (Sort.insertionSort lt l a b) a b /\
  sortedRange lt d (Sort.insertionSort lt l a b) a b.
Proof.
  intros Hab Hb. unfold Sort.insertionSort.
  destruct (le_lt_dec b (a + 1)) as [Hs|Hs].
  { replace (b - (a + 1)) with 0 by lia. simpl.
    split; [apply rearranges_refl|]. intros i j ? ? ?. lia. }
  pose proof (for_up_rule
    (fun i l' => rearranges d l l' a b /\ sortedRange lt d l' a i)
    (fun i d0 => Sort.insert_down lt d0 a (i - a))
    (b - (a + 1)) (a + 1) l) as H.
  replace (a + 1 + (b - (a + 1))) with b in H by lia.
  apply H; clear H.
  - split; [apply rearranges_refl|]. intros i j ? ? ?. lia.
  - intros i l' Hi1 Hi2 [R S1].
    pose proof (rearranges_length _ _ _ _ R) as L.
    destruct (insert_down_spec a i (i - a) l') as [R' S'].
    + lia.
    + lia.
    + replace (a + (i - a)) with i by lia. exact S1.
    + intros p q ? ? ?. lia.
    + intros p q ? ? ? ?. lia.
    + split; [|exact S'].
      eapply rearranges_trans; [exact R|].
      eapply rearranges_widen; [| |exact R']; lia.
Qed.


(** Heap sort *)
Lemma siftDown_loop_unfold (fuel : nat) (l : list A) (root hi first : nat) :
  Sort.siftDown_loop lt (S fuel) l root hi first =
  if hi <=? 2 * root + 1 then l
  else
    let child :=
      if (2 * root + 1 + 1 <? hi)
         && Sort.Less lt l (first + (2 * root + 1)) (first + (2 * root + 1) + 1)
      then 2 * root + 1 + 1 else 2 * root + 1 in
    if negb (Sort.Less lt l (first + root) (first + child)) then l
    else Sort.siftDown_loop lt fuel (Sort.Swap l (first + root) (first + child))
                            child hi first.
Proof. reflexivity. Qed.

Lemma siftDown_loop_spec (first lo hi : nat) :
  forall fuel r l,
    hi <= r + fuel -> lo <= r -> first + hi <= length l ->
    (forall p c, lo <= p -> p <> r -> c < hi -> c = 2 * p + 1 \/ c = 2 * p + 2 ->
                 lt l.[first + p] l.[first + c] = false) ->
    (forall p c, lo <= p -> r = 2 * p + 1 \/ r = 2 * p + 2 ->
                 c < hi -> c = 2 * r + 1 \/ c = 2 * r + 2 ->
                 lt l.[first + p] l.[first + c] = false) ->
    rearranges d l (Sort.siftDown_loop lt fuel l r hi first)
               (first + lo) (first + hi) /\
    heapFrom lt d (Sort.siftDown_loop lt fuel l r hi first) first lo hi.
Proof.
  induction fuel as [|fuel IH]; intros r l Hf Hlo Hlen H1 H2.
  - simpl. split; [apply rearranges_refl|].
    intros p c Hp Hc Hpc. apply H1; auto. lia.
  - rewrite siftDown_loop_unfold.
    destruct (Nat.leb_spec hi (2 * r + 1)) as [Hh|Hh].
    { split; [apply rearranges_refl|].
      intros p c Hp Hc Hpc. apply H1; auto. lia. }
    set (ch := if (2 * r + 1 + 1 <? hi)
                  && Sort.Less lt l (first + (2 * r + 1)) (first + (2 * r + 1) + 1)
               then 2 * r + 1 + 1 else 2 * r + 1).
    assert (Hch : (ch = 2 * r + 1 \/ ch = 2 * r + 2) /\ ch < hi /\
                  forall c, c < hi -> c = 2 * r + 1 \/ c = 2 * r + 2 ->
                            lt l.[first + ch] l.[first + c] = false).
    { subst ch. destruct (Nat.ltb_spec (2 * r + 1 + 1) hi) as [Hh2|Hh2];
        cbn [andb].
      - rewrite Less_get by lia.
        destruct (lt l.[first + (2 * r + 1)] l.[first + (2 * r + 1) + 1]) eqn:E;
          cbv iota.
        + split; [lia|]. split; [lia|]. intros c Hc [->| ->].
          * replace (first + (2 * r + 1 + 1)) with (first + (2 * r + 1) + 1) by lia.
            apply lt_asym. exact E.
          * apply lt_irrefl_eq. lia.
        + split; [lia|]. split; [lia|]. intros c Hc [->| ->].
          * apply lt_irrefl.
          * replace (first + (2 * r + 2)) with (first + (2 * r + 1) + 1) by lia.
            exact E.
      - split; [lia|]. split; [lia|]. intros c Hc [->|Hc2]; [apply lt_irrefl | lia]. }
    destruct Hch as [Hch1 [Hch2 Hch3]]. clearbody ch.
    cbv zeta. rewrite Less_get by lia.
    destruct (lt l.[first + r] l.[first + ch]) eqn:E; cbn [negb]; cbv iota.
    + destruct (IH ch (Sort.Swap l (first + r) (first + ch))) as [R Hp].
      * lia.
      * lia.
      * rewrite length_Swap. exact Hlen.
      * intros p c Hp Hne Hc Hpc. rewrite !get_Swap by lia.
        destruct (Nat.eq_dec p r) as [->|Hpr].
        -- (* the node that received the larger child *)
           destruct (Nat.eqb_spec (first + r) (first + ch)); [lia|].
           rewrite Nat.eqb_refl.
           destruct (Nat.eqb_spec (first + c) (first + ch)).
           ++ apply lt_asym. exact E.
           ++ destruct (Nat.eqb_spec (first + c) (first + r)); [lia|].
              apply Hch3; auto.
        -- destruct (Nat.eqb_spec (first + p) (first + ch)); [lia|].
           destruct (Nat.eqb_spec (first + p) (first + r)); [lia|].
           destruct (Nat.eqb_spec (first + c) (first + ch)); [lia|].
           destruct (Nat.eqb_spec (first + c) (first + r)).
           ++ apply (H2 p ch); auto; lia.
           ++ apply H1; auto.
      * intros p c Hp Hrp Hc Hpc. rewrite !get_Swap by lia.
        assert (p = r) by lia. subst p.
        destruct (Nat.eqb_spec (first + r) (first + ch)); [lia|].
        rewrite Nat.eqb_refl.
        destruct (Nat.eqb_spec (first + c) (first + ch)); [lia|].
        destruct (Nat.eqb_spec (first + c) (first + r)); [lia|].
        apply H1; auto; lia.
      * split; [|exact Hp].
        eapply rearranges_trans; [|exact R].
        apply rearranges_Swap; lia.
    + split; [apply rearranges_refl|].
      intros p c Hp Hc Hpc.
      destruct (Nat.eq_dec p r) as [->|Hpr]; [|apply H1; auto].
      apply le_trans with (y := l.[first + ch]); [apply Hch3; auto | exact E].
Qed.

Lemma siftDown_spec (first lo hi : nat) (l : list A) :
  first + hi <= length l ->
  heapFrom lt d l first (lo + 1) hi ->
  rearranges d l (Sort.siftDown lt l lo hi first) (first + lo) (first + hi) /\
  heapFrom lt d (Sort.siftDown lt l lo hi first) first lo hi.
Proof.
  intros Hlen H. unfold Sort.siftDown.
  apply siftDown_loop_spec; try lia.
  intros p c Hp Hne Hc Hpc. apply H; auto. lia.
Qed.

Lemma heap_root_max (first hi : nat) (l : list A) :
  heapFrom lt d l first 0 hi ->
  forall p, p < hi -> lt l.[first + 0] l.[first + p] = false.
Proof.
  intros H p. induction p as [p IH] using lt_wf_ind. intros Hp.
  destruct p as [|p]; [apply lt_irrefl|].
  apply le_trans with (y := l.[first + (p / 2)]).
  - apply H; [lia | lia |].
    pose proof (Nat.div_mod_eq p 2).
    pose proof (Nat.mod_upper_bound p 2). lia.
  - apply IH; [|]; pose proof (Nat.div_mod_eq p 2); lia.
Qed.

Lemma heapSort_spec (l : list A) (a b : nat) :
  a <= b -> b <= length l ->
  rearranges d l (Sort.heapSort lt l a b) a b /\
  sortedRange lt d (Sort.heapSort lt l a b) a b.
Proof.
  intros Hab Hb. unfold Sort.heapSort.
  set (hi := b - a).
  (* building the heap *)
  pose proof (for_down_rule
    (fun i l' => rearranges d l l' a b /\ heapFrom lt d l' a i hi)
    (fun i d0 => Sort.siftDown lt d0 i hi a)
    ((hi - 1) / 2 + 1) l) as Hbuild.
  destruct Hbuild as [R0 H0].
  { split; [apply rearranges_refl|].
    intros p c Hp Hc Hpc. exfalso.
    pose proof (Nat.div_mod_eq (hi - 1) 2).
    pose proof (Nat.mod_upper_bound (hi - 1) 2). lia. }
  { intros i l' Hi [R H].
    pose proof (rearranges_length _ _ _ _ R) as L.
    destruct (siftDown_spec a i hi l') as [R' H']; [subst hi; lia | exact H|].
    split; [|exact H'].
    eapply rearranges_trans; [exact R|].
    eapply rearranges_widen; [| |exact R']; subst hi; lia. }
  set (l0 := Sort.for_down ((hi - 1) / 2 + 1)
               (fun i d0 => Sort.siftDown lt d0 i hi a) l) in *.
  clearbody l0.
  (* popping the elements *)
  pose proof (for_down_rule
    (fun k l' =>
       rearranges d l l' a b /\ heapFrom lt d l' a 0 k /\
       sortedRange lt d l' (a + k) b /\
       (forall p q, p < k -> k <= q -> q < hi ->
                    lt l'.[a + q] l'.[a + p] = false))
    (fun i d0 => Sort.siftDown lt (Sort.Swap d0 a (a + i)) 0 i a)
    hi l0) as Hpop.
  destruct Hpop as [R1 [_ [S1 _]]].
  { split; [exact R0|]. split; [exact H0|].
    split; [intros i j ? ? ?; subst hi; lia|].
    intros p q ? ? ?. lia. }
  { intros i l' Hi [R [H [Ss X]]].
    pose proof (rearranges_length _ _ _ _ R) as L.
    assert (Hmax := heap_root_max a (i + 1) l' H).
    set (l1 := Sort.Swap l' a (a + i)).
    assert (L1 : length l1 = length l') by apply length_Swap.
    assert (G1 : forall k, l1.[k] = if k =? a + i then l'.[a]
                                    else if k =? a then l'.[a + i] else l'.[k]).
    { intros k. subst l1. apply get_Swap; subst hi; lia. }
    destruct (siftDown_spec a 0 i l1) as [R' H'].
    { subst hi. lia. }
    { intros p c Hp Hc Hpc. rewrite !G1.
      destruct (Nat.eqb_spec (a + p) (a + i)); [lia|].
      destruct (Nat.eqb_spec (a + p) a); [lia|].
      destruct (Nat.eqb_spec (a + c) (a + i)); [lia|].
      destruct (Nat.eqb_spec (a + c) a); [lia|].
      apply H; auto; lia. }
    set (l2 := Sort.siftDown lt l1 0 i a) in *.
    destruct R' as [L2 [O2 K2]].
    assert (X1 : forall p q, p < i -> i <= q -> q < hi ->
                             lt l1.[a + q] l1.[a + p] = false).
    { intros p q Hp Hq Hq'. rewrite !G1.
      replace (a + 0) with a in Hmax by lia.
      destruct (Nat.eqb_spec (a + q) (a + i)).
      - destruct (Nat.eqb_spec (a + p) (a + i)); [lia|].
        destruct (Nat.eqb_spec (a + p) a).
        + apply Hmax. lia.
        + apply Hmax. lia.
      - destruct (Nat.eqb_spec (a + q) a); [lia|].
        destruct (Nat.eqb_spec (a + p) (a + i)); [lia|].
        destruct (Nat.eqb_spec (a + p) a).
        + apply X; lia.
        + apply X; lia. }
    split; [|split; [exact H'|split]].
    - eapply rearranges_trans; [exact R|].
      eapply rearranges_trans with (l2 := l1).
      + subst l1. apply rearranges_Swap; subst hi; lia.
      + eapply rearranges_widen; [| |split; [exact L2|split; [exact O2|exact K2]]];
          subst hi; lia.
    - intros p q Hp Hpq Hq. rewrite !O2 by lia. rewrite !G1.
      destruct (Nat.eqb_spec q (a + i)); [lia|].
      destruct (Nat.eqb_spec q a); [lia|].
      destruct (Nat.eqb_spec p (a + i)).
      + pose proof (X 0 (q - a)) as X0.
        replace (a + 0) with a in X0 by lia.
        replace (a + (q - a)) with q in X0 by lia.
        apply X0; subst hi; lia.
      + destruct (Nat.eqb_spec p a); [lia|].
        apply Ss; lia.
    - intros p q Hp Hq Hq'.
      rewrite (O2 (a + q)) by lia.
      replace (a + p) with (a + 0 + p) by lia.
      apply (K2 (fun x => lt l1.[a + q] x = false)); try lia.
      intros k Hk1 Hk2. replace k with (a + (k - a)) by lia.
      apply X1; lia. }
  split; [exact R1|].
  replace (a + 0) with a in S1 by lia. exact S1.
Qed.


(** Quicksort: the pivot *)

Ltac swap_cases :=
  rewrite ?get_Swap by lia;
  repeat match goal with
         | |- context [Nat.eqb ?x ?y] => destruct (Nat.eqb_spec x y); try lia
         end.

Lemma scan_up_spec (p : nat -> bool) :
  forall n i,
    i <= Sort.scan_up p i n /\ Sort.scan_up p i n <= i + n /\
    (forall k, i <= k -> k < Sort.scan_up p i n -> p k = true) /\
    (Sort.scan_up p i n < i + n -> p (Sort.scan_up p i n) = false).
Proof.
  induction n as [|n IH]; intros i; simpl.
  - repeat split; intros; lia.
  - destruct (p i) eqn:E.
    + destruct (IH (S i)) as [H1 [H2 [H3 H4]]].
      repeat split; try lia.
      * intros k Hk1 Hk2. destruct (Nat.eq_dec k i) as [->|]; [exact E|].
        apply H3; lia.
      * intros H. apply H4. lia.
    + repeat split; intros; try lia; exact E.
Qed.

Lemma scan_down_spec (p : nat -> bool) :
  forall n c, n <= c ->
    c - n <= Sort.scan_down p c n /\ Sort.scan_down p c n <= c /\
    (forall k, Sort.scan_down p c n <= k -> k < c -> p k = true) /\
    (c - n < Sort.scan_down p c n -> p (Sort.scan_down p c n - 1) = false).
Proof.
  induction n as [|n IH]; intros c Hn; simpl.
  - repeat split; intros; lia.
  - destruct (p (c - 1)) eqn:E.
    + destruct (IH (c - 1)) as [H1 [H2 [H3 H4]]]; [lia|].
      repeat split; try lia.
      * intros k Hk1 Hk2. destruct (Nat.eq_dec k (c - 1)) as [->|]; [exact E|].
        apply H3; lia.
      * intros H. apply H4. lia.
    + repeat split; intros; try lia; exact E.
Qed.

Lemma medianOfThree_rearranges (l : list A) (m1 m0 m2 a b : nat) :
  a <= m1 -> m1 < b -> a <= m0 -> m0 < b -> a <= m2 -> m2 < b ->
  b <= length l ->
  rearranges d l (Sort.medianOfThree lt l m1 m0 m2) a b.
Proof.
  intros. unfold Sort.medianOfThree.
  set (l1 := if Sort.Less lt l m1 m0 then Sort.Swap l m1 m0 else l).
  assert (R1 : rearranges d l l1 a b).
  { subst l1. destruct (Sort.Less lt l m1 m0);
      [apply rearranges_Swap; lia | apply rearranges_refl]. }
  pose proof (rearranges_length _ _ _ _ R1) as L1. clearbody l1.
  destruct (Sort.Less lt l1 m2 m1); [|exact R1].
  assert (R2 : rearranges d l (Sort.Swap l1 m2 m1) a b).
  { eapply rearranges_trans; [exact R1|]. apply rearranges_Swap; lia. }
  destruct (Sort.Less lt (Sort.Swap l1 m2 m1) m1 m0); [|exact R2].
  eapply rearranges_trans; [exact R2|].
  apply rearranges_Swap; rewrite ?length_Swap; lia.
Qed.

Lemma medianOfThree_order (l : list A) (m1 m0 m2 : nat) :
  m1 < length l -> m0 < length l -> m2 < length l ->
  m1 <> m0 -> m1 <> m2 -> m0 <> m2 ->
  lt (Sort.medianOfThree lt l m1 m0 m2).[m2]
     (Sort.medianOfThree lt l m1 m0 m2).[m1] = false.
Proof.
  intros H1 H0 H2 N1 N2 N3. unfold Sort.medianOfThree.
  set (l1 := if Sort.Less lt l m1 m0 then Sort.Swap l m1 m0 else l).
  assert (L1 : length l1 = length l).
  { subst l1. destruct (Sort.Less lt l m1 m0); [apply length_Swap | reflexivity]. }
  assert (O1 : lt l1.[m1] l1.[m0] = false).
  { subst l1. rewrite Less_get by lia.
    destruct (lt l.[m1] l.[m0]) eqn:E; [|exact E].
    swap_cases. apply lt_asym. exact E. }
  clearbody l1.
  rewrite Less_get by lia.
  destruct (lt l1.[m2] l1.[m1]) eqn:E2; [|exact E2].
  rewrite Less_get by (rewrite length_Swap; lia).
  destruct (lt (Sort.Swap l1 m2 m1).[m1] (Sort.Swap l1 m2 m1).[m0]) eqn:E3.
  - rewrite !get_Swap by (rewrite ?length_Swap; lia).
    swap_cases. exact O1.
  - swap_cases. apply lt_asym. exact E2.
Qed.

Lemma choosePivot_spec (l : list A) (lo hi : nat) :
  lo + 12 < hi -> hi <= length l ->
  rearranges d l (Sort.choosePivot lt l lo hi) lo hi /\
  lt (Sort.choosePivot lt l lo hi).[hi - 1]
     (Sort.choosePivot lt l lo hi).[lo] = false.
Proof.
  intros Hn Hlen. unfold Sort.choosePivot.
  set (m := (lo + hi) / 2).
  assert (Hm : lo < m /\ m < hi - 1).
  { subst m. pose proof (Nat.div_mod_eq (lo + hi) 2).
    pose proof (Nat.mod_upper_bound (lo + hi) 2). lia. }
  set (l0 := if 40 <? hi - lo then _ else l).
  assert (R0 : rearranges d l l0 lo hi).
  { subst l0. destruct (Nat.ltb_spec 40 (hi - lo)) as [H40|H40];
      [|apply rearranges_refl].
    set (s := (hi - lo) / 8).
    assert (Hs : 8 * s <= hi - lo /\ 1 <= s).
    { subst s. pose proof (Nat.div_mod_eq (hi - lo) 8).
      pose proof (Nat.mod_upper_bound (hi - lo) 8). lia. }
    assert (Hm' : 2 * m + 1 >= lo + hi /\ 2 * m <= lo + hi).
    { subst m. pose proof (Nat.div_mod_eq (lo + hi) 2).
      pose proof (Nat.mod_upper_bound (lo + hi) 2). lia. }
    cbv zeta. fold s.
    set (la := Sort.medianOfThree lt l lo (lo + s) (lo + 2 * s)).
    assert (Ra : rearranges d l la lo hi)
      by (apply medianOfThree_rearranges; lia).
    pose proof (rearranges_length _ _ _ _ Ra) as La. clearbody la.
    set (lb := Sort.medianOfThree lt la m (m - s) (m + s)).
    assert (Rb : rearranges d la lb lo hi)
      by (apply medianOfThree_rearranges; lia).
    pose proof (rearranges_length _ _ _ _ Rb) as Lb. clearbody lb.
    eapply rearranges_trans; [exact Ra|].
    eapply rearranges_trans; [exact Rb|].
    apply medianOfThree_rearranges; lia. }
  pose proof (rearranges_length _ _ _ _ R0) as L0. clearbody l0.
  split.
  - eapply rearranges_trans; [exact R0|].
    apply medianOfThree_rearranges; lia.
  - apply medianOfThree_order; lia.
Qed.


Lemma partition_loop_spec (lo hi : nat) :
  forall fuel l b c l' b' c',
    Sort.partition_loop lt fuel l lo b c = (l', b', c') ->
    c - b < fuel -> lo + 1 <= b -> b <= c -> c <= hi - 1 -> hi <= length l ->
    (forall i, lo + 1 <= i -> i < b -> lt l.[lo] l.[i] = false) ->
    (forall i, c <= i -> i < hi - 1 -> lt l.[lo] l.[i] = true) ->
    rearranges d l l' (lo + 1) (hi - 1) /\ b' = c' /\ lo + 1 <= b' /\
    c' <= hi - 1 /\
    (forall i, lo + 1 <= i -> i < b' -> lt l'.[lo] l'.[i] = false) /\
    (forall i, c' <= i -> i < hi - 1 -> lt l'.[lo] l'.[i] = true).
Proof.
  induction fuel as [|fuel IH]; intros l b c l' b' c' E Hf Hb Hbc Hc Hlen Lo Up;
    [lia|].
  simpl in E.
  pose proof (scan_up_spec (fun i => negb (Sort.Less lt l lo i)) (c - b) b)
    as [U1 [U2 [U3 U4]]].
  set (b1 := Sort.scan_up (fun i => negb (Sort.Less lt l lo i)) b (c - b)) in *.
  pose proof (scan_down_spec (fun i => Sort.Less lt l lo i) (c - b1) c
                ltac:(lia)) as [D1 [D2 [D3 D4]]].
  set (c1 := Sort.scan_down (fun i => Sort.Less lt l lo i) c (c - b1)) in *.
  assert (Lo1 : forall i, lo + 1 <= i -> i < b1 -> lt l.[lo] l.[i] = false).
  { intros i Hi1 Hi2. destruct (le_lt_dec b i) as [Hbi|Hbi]; [|apply Lo; lia].
    specialize (U3 i Hbi Hi2). rewrite Less_get in U3 by lia.
    apply negb_true_iff in U3. exact U3. }
  assert (Up1 : forall i, c1 <= i -> i < hi - 1 -> lt l.[lo] l.[i] = true).
  { intros i Hi1 Hi2. destruct (le_lt_dec c i) as [Hci|Hci]; [apply Up; lia|].
    specialize (D3 i Hi1 Hci). rewrite Less_get in D3 by lia. exact D3. }
  destruct (Nat.leb_spec c1 b1) as [Hx|Hx].
  - inversion E; subst l' b' c'. clear E.
    split; [apply rearranges_refl|].
    split; [|split; [|split; [|split]]]; try lia; assumption.
  - assert (Hb1 : lt l.[lo] l.[b1] = true).
    { specialize (U4 ltac:(lia)). rewrite Less_get in U4 by lia.
      apply negb_false_iff in U4. exact U4. }
    assert (Hc1 : lt l.[lo] l.[c1 - 1] = false).
    { specialize (D4 ltac:(lia)). rewrite Less_get in D4 by lia. exact D4. }
    assert (Hne : b1 <> c1 - 1) by (intros Heq; rewrite Heq in Hb1; congruence).
    destruct (IH (Sort.Swap l b1 (c1 - 1)) (b1 + 1) (c1 - 1) l' b' c' E)
      as [R [Hb' [Hb'' [Hc' [Lo' Up']]]]]; try lia.
    + rewrite length_Swap. exact Hlen.
    + intros i Hi1 Hi2. swap_cases; try exact Hc1. apply Lo1; lia.
    + intros i Hi1 Hi2. swap_cases; try exact Hb1. apply Up1; lia.
    + split; [|split; [|split; [|split; [|split]]]]; try lia; try assumption.
      eapply rearranges_trans; [|exact R]. apply rearranges_Swap; lia.
Qed.

Lemma parted_dup_hi (l : list A) (lo hi b c : nat) :
  hi <= length l -> c < hi - 1 ->
  parted lt d l lo hi b c -> lt l.[lo] l.[hi - 1] = false ->
  parted lt d (Sort.Swap l c (hi - 1)) lo hi b (c + 1).
Proof.
  intros Hlen Hc [P1 [P2 [P3 [Lo [Mid Up]]]]] E.
  repeat split; try lia.
  - intros i Hi1 Hi2. swap_cases. apply Lo; lia.
  - swap_cases; [exact E | apply Mid; lia].
  - swap_cases; [apply Up; lia | apply Mid; lia].
  - intros i Hi1 Hi2. swap_cases; apply Up; lia.
Qed.

Lemma parted_dec (l : list A) (lo hi b c : nat) :
  lo + 1 < b ->
  parted lt d l lo hi b c -> lt l.[b - 1] l.[lo] = false ->
  parted lt d l lo hi (b - 1) c.
Proof.
  intros Hb [P1 [P2 [P3 [Lo [Mid Up]]]]] E.
  repeat split; try lia.
  - intros i Hi1 Hi2. apply Lo; lia.
  - destruct (Nat.eq_dec i (b - 1)) as [->|]; [apply Lo; lia | apply Mid; lia].
  - destruct (Nat.eq_dec i (b - 1)) as [->|]; [exact E | apply Mid; lia].
  - exact Up.
Qed.

Lemma parted_dup_m (l : list A) (lo hi b c m : nat) :
  hi <= length l -> lo + 1 <= m -> m <= b - 1 -> lo + 1 < b ->
  parted lt d l lo hi b c -> lt l.[m] l.[lo] = false ->
  parted lt d (Sort.Swap l m (b - 1)) lo hi (b - 1) c.
Proof.
  intros Hlen Hm1 Hm2 Hb [P1 [P2 [P3 [Lo [Mid Up]]]]] E.
  repeat split; try lia.
  - intros i Hi1 Hi2. swap_cases; apply Lo; lia.
  - swap_cases; try (apply Lo; lia); apply Mid; lia.
  - swap_cases; try exact E; apply Mid; lia.
  - intros i Hi1 Hi2. swap_cases. apply Up; lia.
Qed.

Lemma testDups_spec (l : list A) (lo hi m b c : nat)
    (l' : list A) (b' c' : nat) (pr : bool) :
  Sort.testDups lt l hi m lo b c = (l', b', c', pr) ->
  hi <= length l -> lo + 1 <= m -> m + 2 < b -> c + 1 < hi ->
  parted lt d l lo hi b c ->
  rearranges d l l' (lo + 1) hi /\ parted lt d l' lo hi b' c'.
Proof.
  intros E Hlen Hm1 Hm2 Hc P. unfold Sort.testDups in E.
  (* first test *)
  set (s1 := if negb (Sort.Less lt l lo (hi - 1))
             then (Sort.Swap l c (hi - 1), c + 1, 0 + 1) else (l, c, 0)) in E.
  assert (H1 : rearranges d l (fst (fst s1)) (lo + 1) hi /\
               parted lt d (fst (fst s1)) lo hi b (snd (fst s1))).
  { subst s1. pose proof P as [P1 [P2 [P3 _]]].
    rewrite Less_get by lia.
    destruct (lt l.[lo] l.[hi - 1]) eqn:E1; simpl.
    - split; [apply rearranges_refl | exact P].
    - split; [apply rearranges_Swap; lia|].
      apply parted_dup_hi; try lia; [exact P | exact E1]. }
  destruct s1 as [[l1 c1] d1]. simpl in H1. destruct H1 as [R1 Q1].
  pose proof (rearranges_length _ _ _ _ R1) as L1.
  (* second test *)
  set (s2 := if negb (Sort.Less lt l1 (b - 1) lo)
             then (b - 1, d1 + 1) else (b, d1)) in E.
  assert (H2 : parted lt d l1 lo hi (fst s2) c1 /\ b - 1 <= fst s2 /\ fst s2 <= b).
  { subst s2. pose proof P as [P1 [P2 [P3 _]]]. rewrite Less_get by lia.
    destruct (lt l1.[b - 1] l1.[lo]) eqn:E2; simpl.
    - split; [exact Q1 | lia].
    - split; [apply parted_dec; [lia | exact Q1 | exact E2] | lia]. }
  destruct s2 as [b2 d2]. simpl in H2. destruct H2 as [Q2 [Hb2 Hb2']].
  (* third test *)
  set (s3 := if negb (Sort.Less lt l1 m lo)
             then (Sort.Swap l1 m (b2 - 1), b2 - 1, d2 + 1) else (l1, b2, d2)) in E.
  assert (H3 : rearranges d l (fst (fst s3)) (lo + 1) hi /\
               parted lt d (fst (fst s3)) lo hi (snd (fst s3)) c1).
  { subst s3. pose proof P as [P1 [P2 [P3 _]]]. rewrite Less_get by lia.
    destruct (lt l1.[m] l1.[lo]) eqn:E3; simpl.
    - split; [exact R1 | exact Q2].
    - split.
      + eapply rearranges_trans; [exact R1|].
        destruct Q2 as [? [? [? _]]]. apply rearranges_Swap; lia.
      + apply parted_dup_m; try lia; [exact Q2 | exact E3]. }
  destruct s3 as [[l3 b3] d3]. simpl in H3.
  inversion E; subst. exact H3.
Qed.

Lemma protect_loop_spec (lo hi c : nat) :
  forall fuel l a b l' a' b',
    Sort.protect_loop lt fuel l lo a b = (l', a', b') ->
    b - a < fuel -> lo + 1 <= a -> hi <= length l ->
    parted lt d l lo hi b c ->
    rearranges d l l' (lo + 1) hi /\ parted lt d l' lo hi b' c.
Proof.
  induction fuel as [|fuel IH]; intros l a b l' a' b' E Hf Ha Hlen P; [lia|].
  simpl in E.
  destruct P as [P1 [P2 [P3 [Lo [Mid Up]]]]].
  pose proof (scan_down_spec (fun i => negb (Sort.Less lt l i lo)) (b - a) b
                ltac:(lia)) as [D1 [D2 [D3 D4]]].
  set (b1 := Sort.scan_down (fun i => negb (Sort.Less lt l i lo)) b (b - a)) in *.
  pose proof (scan_up_spec (fun i => Sort.Less lt l i lo) (b1 - a) a)
    as [U1 [U2 [U3 U4]]].
  set (a1 := Sort.scan_up (fun i => Sort.Less lt l i lo) a (b1 - a)) in *.
  assert (Q1 : parted lt d l lo hi b1 c).
  { repeat split; try lia.
    - intros i Hi1 Hi2. apply Lo; lia.
    - destruct (le_lt_dec b i); [apply Mid; lia | apply Lo; lia].
    - destruct (le_lt_dec b i); [apply Mid; lia|].
      specialize (D3 i ltac:(lia) ltac:(lia)).
      rewrite Less_get in D3 by lia. apply negb_true_iff in D3. exact D3.
    - exact Up. }
  destruct (Nat.leb_spec b1 a1) as [Hx|Hx].
  - inversion E; subst l' a' b'. split; [apply rearranges_refl | exact Q1].
  - assert (Hb1 : b1 <= b) by lia.
    assert (Ea : lt l.[a1] l.[lo] = false).
    { specialize (U4 ltac:(lia)). rewrite Less_get in U4 by lia. exact U4. }
    assert (Eb : lt l.[b1 - 1] l.[lo] = true).
    { specialize (D4 ltac:(lia)). rewrite Less_get in D4 by lia.
      apply negb_false_iff in D4. exact D4. }
    assert (Hne : a1 <> b1 - 1) by (intros Heq; rewrite Heq in Ea; congruence).
    destruct Q1 as [_ [_ [_ [Lo1 [Mid1 _]]]]].
    destruct (IH (Sort.Swap l a1 (b1 - 1)) (a1 + 1) (b1 - 1) l' a' b' E)
      as [R Q]; try lia.
    + rewrite length_Swap. exact Hlen.
    + repeat split; try lia.
      * intros i Hi1 Hi2. swap_cases; try (apply lt_asym; exact Eb).
        apply Lo1; lia.
      * swap_cases; try (apply Lo1; lia). apply Mid1; lia.
      * swap_cases; try exact Ea. apply Mid1; lia.
      * intros i Hi1 Hi2. swap_cases. apply Up; lia.
    + split; [|exact Q].
      eapply rearranges_trans; [|exact R]. apply rearranges_Swap; lia.
Qed.


Lemma parted_final (l : list A) (lo hi b c : nat) :
  hi <= length l -> parted lt d l lo hi b c ->
  let l' := Sort.Swap l lo (b - 1) in
  rearranges d l l' lo hi /\ lo <= b - 1 /\ b - 1 < c /\ c <= hi /\
  (forall i, lo <= i -> i < b - 1 -> lt l'.[b - 1] l'.[i] = false) /\
  (forall i, b - 1 <= i -> i < c ->
             lt l'.[b - 1] l'.[i] = false /\ lt l'.[i] l'.[b - 1] = false) /\
  (forall i, c <= i -> i < hi -> lt l'.[i] l'.[b - 1] = false).
Proof.
  intros Hlen [P1 [P2 [P3 [Lo [Mid Up]]]]] l'. subst l'.
  split; [apply rearranges_Swap; lia|].
  split; [lia|]. split; [lia|]. split; [lia|].
  split; [|split].
  - intros i Hi1 Hi2. swap_cases; apply Lo; lia.
  - intros i Hi1 Hi2. split; swap_cases; try apply lt_irrefl; apply Mid; lia.
  - intros i Hi1 Hi2. swap_cases; apply Up; lia.
Qed.

Lemma doPivot_spec (l : list A) (lo hi : nat) (l' : list A) (mlo mhi : nat) :
  Sort.doPivot lt l lo hi = (l', mlo, mhi) ->
  lo + 12 < hi -> hi <= length l ->
  rearranges d l l' lo hi /\ lo <= mlo /\ mlo < mhi /\ mhi <= hi /\
  (forall i, lo <= i -> i < mlo -> lt l'.[mlo] l'.[i] = false) /\
  (forall i, mlo <= i -> i < mhi ->
             lt l'.[mlo] l'.[i] = false /\ lt l'.[i] l'.[mlo] = false) /\
  (forall i, mhi <= i -> i < hi -> lt l'.[i] l'.[mlo] = false).
Proof.
  intros E Hn Hlen. unfold Sort.doPivot in E.
  destruct (choosePivot_spec l lo hi Hn Hlen) as [R1 O1].
  set (l1 := Sort.choosePivot lt l lo hi) in *.
  pose proof (rearranges_length _ _ _ _ R1) as L1. clearbody l1.
  set (m := (lo + hi) / 2) in *.
  assert (Hm : 2 * m <= lo + hi /\ lo + hi <= 2 * m + 1).
  { subst m. pose proof (Nat.div_mod_eq (lo + hi) 2).
    pose proof (Nat.mod_upper_bound (lo + hi) 2). lia. }
  clearbody m.
  pose proof (scan_up_spec (fun i => Sort.Less lt l1 i lo)
                (hi - 1 - (lo + 1)) (lo + 1)) as [U1 [U2 [U3 _]]].
  set (a := Sort.scan_up (fun i => Sort.Less lt l1 i lo) (lo + 1)
                         (hi - 1 - (lo + 1))) in *.
  assert (Lo1 : forall i, lo + 1 <= i -> i < a -> lt l1.[lo] l1.[i] = false).
  { intros i Hi1 Hi2. specialize (U3 i Hi1 Hi2).
    rewrite Less_get in U3 by lia. apply lt_asym. exact U3. }
  clearbody a.
  destruct (Sort.partition_loop lt (S (hi - 1 - a)) l1 lo a (hi - 1))
    as [[l2 b2] c2] eqn:E2.
  destruct (partition_loop_spec lo hi _ _ _ _ _ _ _ E2)
    as [R2 [Hbc [Hb2 [Hc2 [Lo2 Up2]]]]]; try lia.
  { exact Lo1. }
  subst c2. clear E2 Lo1.
  pose proof R2 as [L2 [Out2 _]].
  assert (P2 : parted lt d l2 lo hi b2 b2).
  { repeat split; try lia.
    - exact Lo2.
    - intros i Hi1 Hi2. destruct (Nat.eq_dec i (hi - 1)) as [->|].
      + rewrite (Out2 (hi - 1)), (Out2 lo) by lia. exact O1.
      + apply lt_asym. apply Up2; lia. }
  assert (R12 : rearranges d l l2 lo hi).
  { eapply rearranges_trans; [exact R1|].
    eapply rearranges_widen; [| |exact R2]; lia. }
  clear R1 R2 Out2 Lo2 Up2 O1.
  assert (H3 : exists l3 b3 c3 pr,
             (if negb (hi - b2 <? 5) && (hi - b2 <? (hi - lo) / 4)
              then Sort.testDups lt l2 hi m lo b2 b2
              else (l2, b2, b2, hi - b2 <? 5)) = (l3, b3, c3, pr) /\
             rearranges d l l3 lo hi /\ parted lt d l3 lo hi b3 c3).
  { destruct (negb (hi - b2 <? 5) && (hi - b2 <? (hi - lo) / 4)) eqn:Ec.
    - apply andb_true_iff in Ec. destruct Ec as [Ec1 Ec2].
      apply negb_true_iff in Ec1. apply Nat.ltb_ge in Ec1.
      apply Nat.ltb_lt in Ec2.
      pose proof (Nat.div_mod_eq (hi - lo) 4).
      pose proof (Nat.mod_upper_bound (hi - lo) 4).
      destruct (Sort.testDups lt l2 hi m lo b2 b2) as [[[l3 b3] c3] pr] eqn:E3.
      destruct (testDups_spec _ _ _ _ _ _ _ _ _ _ E3) as [R3 P3];
        try lia; [exact P2|].
      exists l3, b3, c3, pr. split; [reflexivity|]. split; [|exact P3].
      eapply rearranges_trans; [exact R12|].
      eapply rearranges_widen; [| |exact R3]; lia.
    - exists l2, b2, b2, (hi - b2 <? 5). auto. }
  destruct H3 as [l3 [b3 [c3 [pr [E3 [R3 P3]]]]]].
  rewrite E3 in E. clear E3.
  pose proof (rearranges_length _ _ _ _ R3) as L3.
  assert (H4 : exists l4 b4,
             (if pr
              then let '(data, _, b) :=
                     Sort.protect_loop lt (S (b3 - a)) l3 lo a b3 in (data, b)
              else (l3, b3)) = (l4, b4) /\
             rearranges d l l4 lo hi /\ parted lt d l4 lo hi b4 c3).
  { destruct pr.
    - destruct (Sort.protect_loop lt (S (b3 - a)) l3 lo a b3)
        as [[l4 a4] b4] eqn:E4.
      destruct (protect_loop_spec lo hi c3 _ _ _ _ _ _ _ E4) as [R4 P4];
        try lia; [exact P3|].
      exists l4, b4. split; [reflexivity|]. split; [|exact P4].
      eapply rearranges_trans; [exact R3|].
      eapply rearranges_widen; [| |exact R4]; lia.
    - exists l3, b3. auto. }
  destruct H4 as [l4 [b4 [E4 [R4 P4]]]].
  rewrite E4 in E. clear E4.
  pose proof (rearranges_length _ _ _ _ R4) as L4.
  inversion E; subst l' mlo mhi. clear E.
  destruct (parted_final l4 lo hi b4 c3 ltac:(lia) P4) as [R5 H5].
  split; [|exact H5].
  eapply rearranges_trans; [exact R4 | exact R5].
Qed.

(** Quicksort *)
Lemma smallSort_spec (l : list A) (a b : nat) :
  a <= b -> b <= length l ->
  let l' :=
    Sort.insertionSort lt
      (Sort.for_up (a + 6) (b - (a + 6))
         (fun i d0 => if Sort.Less lt d0 i (i - 6)
                      then Sort.Swap d0 i (i - 6) else d0) l) a b in
  rearranges d l l' a b /\ sortedRange lt d l' a b.
Proof.
  intros Hab Hb l'. subst l'.
  assert (R : rearranges d l
                (Sort.for_up (a + 6) (b - (a + 6))
                   (fun i d0 => if Sort.Less lt d0 i (i - 6)
                                then Sort.Swap d0 i (i - 6) else d0) l) a b).
  { destruct (le_lt_dec b (a + 6)) as [Hs|Hs].
    { replace (b - (a + 6)) with 0 by lia. apply rearranges_refl. }
    pose proof (for_up_rule (fun _ l' => rearranges d l l' a b)
      (fun i d0 => if Sort.Less lt d0 i (i - 6)
                   then Sort.Swap d0 i (i - 6) else d0)
      (b - (a + 6)) (a + 6) l) as H.
    apply H; [apply rearranges_refl|].
    intros i l' Hi1 Hi2 R.
    pose proof (rearranges_length _ _ _ _ R) as L.
    destruct (Sort.Less lt l' i (i - 6)); [|exact R].
    eapply rearranges_trans; [exact R|]. apply rearranges_Swap; lia. }
  set (l0 := Sort.for_up (a + 6) (b - (a + 6)) _ l) in *.
  pose proof (rearranges_length _ _ _ _ R) as L.
  destruct (insertionSort_spec l0 a b Hab) as [R' S']; [lia|].
  split; [|exact S'].
  eapply rearranges_trans; [exact R | exact R'].
Qed.

Lemma quickSort_spec (maxDepth : nat) :
  forall l a b,
    a <= b -> b <= length l ->
    rearranges d l (Sort.quickSort lt l a b maxDepth) a b /\
    sortedRange lt d (Sort.quickSort lt l a b maxDepth) a b.
Proof.
  assert (Small : forall l a b mD,
             a <= b -> b <= length l -> b - a <= 12 ->
             rearranges d l (Sort.quickSort lt l a b mD) a b /\
             sortedRange lt d (Sort.quickSort lt l a b mD) a b).
  { intros l a b mD Hab Hb Hs.
    assert (E : Sort.quickSort lt l a b mD =
                if 1 <? b - a
                then Sort.insertionSort lt
                       (Sort.for_up (a + 6) (b - (a + 6))
                          (fun i d0 => if Sort.Less lt d0 i (i - 6)
                                       then Sort.Swap d0 i (i - 6) else d0) l)
                       a b
                else l).
    { destruct mD; simpl;
        (destruct (Nat.ltb_spec 12 (b - a)); [lia | reflexivity]). }
    rewrite E. destruct (Nat.ltb_spec 1 (b - a)).
    - apply smallSort_spec; assumption.
    - split; [apply rearranges_refl|]. intros i j ? ? ?. lia. }
  induction maxDepth as [|mD IH]; intros l a b Hab Hb;
    destruct (le_lt_dec (b - a) 12) as [Hs|Hs];
    try (apply Small; assumption).
  - simpl. destruct (Nat.ltb_spec 12 (b - a)); [|lia].
    apply heapSort_spec; assumption.
  - simpl. destruct (Nat.ltb_spec 12 (b - a)); [|lia].
    destruct (Sort.doPivot lt l a b) as [[l1 mlo] mhi] eqn:E.
    destruct (doPivot_spec _ _ _ _ _ _ E ltac:(lia) Hb)
      as [R1 [H1 [H2 [H3 [Lo [Mid Up]]]]]].
    pose proof (rearranges_length _ _ _ _ R1) as L1.
    assert (Join : forall l2 l3 l4,
               (forall P : A -> Prop,
                   (forall k, a <= k -> k < mlo -> P l1.[k]) ->
                   forall k, a <= k -> k < mlo -> P l2.[k]) ->
               sortedRange lt d l2 a mlo ->
               (forall P : A -> Prop,
                   (forall k, mhi <= k -> k < b -> P l1.[k]) ->
                   forall k, mhi <= k -> k < b -> P l3.[k]) ->
               sortedRange lt d l3 mhi b ->
               (forall k, a <= k -> k < mlo -> l4.[k] = l2.[k]) ->
               (forall k, mlo <= k -> k < mhi -> l4.[k] = l1.[k]) ->
               (forall k, mhi <= k -> k < b -> l4.[k] = l3.[k]) ->
               sortedRange lt d l4 a b).
    { intros l2 l3 l4 K2 S2 K3 S3 G2 G1 G3.
      set (pv := l1.[mlo]) in *.
      assert (LoP : forall k, a <= k -> k < mhi -> lt pv l4.[k] = false).
      { intros k Hk1 Hk2. destruct (le_lt_dec mlo k).
        - rewrite G1 by lia. apply Mid; lia.
        - rewrite G2 by lia.
          apply (K2 (fun x => lt pv x = false)); try lia.
          intros k' ? ?. apply Lo; lia. }
      assert (UpP : forall k, mlo <= k -> k < b -> lt l4.[k] pv = false).
      { intros k Hk1 Hk2. destruct (le_lt_dec mhi k).
        - rewrite G3 by lia.
          apply (K3 (fun x => lt x pv = false)); try lia.
          intros k' ? ?. apply Up; lia.
        - rewrite G1 by lia. apply Mid; lia. }
      intros i j Hi Hij Hj.
      destruct (le_lt_dec mlo j) as [Hj1|Hj1].
      + destruct (le_lt_dec mhi i) as [Hi1|Hi1].
        * rewrite !G3 by lia. apply S3; lia.
        * apply le_trans with (y := pv); [apply LoP; lia | apply UpP; lia].
      + rewrite !G2 by lia. apply S2; lia. }
    destruct (Nat.ltb_spec (mlo - a) (b - mhi)).
    + destruct (IH l1 a mlo ltac:(lia) ltac:(lia)) as [R2 S2].
      set (l2 := Sort.quickSort lt l1 a mlo mD) in *.
      pose proof (rearranges_length _ _ _ _ R2) as L2.
      destruct (IH l2 mhi b ltac:(lia) ltac:(lia)) as [R3 S3].
      set (l3 := Sort.quickSort lt l2 mhi b mD) in *.
      pose proof R2 as [_ [O2 _]]. pose proof R3 as [L3 [O3 K3]].
      split.
      * eapply rearranges_trans; [exact R1|].
        eapply rearranges_trans.
        -- eapply rearranges_widen; [| |exact R2]; lia.
        -- eapply rearranges_widen; [| |exact R3]; lia.
      * apply (Join l2 l3 l3); auto.
        -- apply R2.
        -- intros P HP. apply K3. intros k ? ?. rewrite O2 by lia.
           apply HP; lia.
        -- intros k ? ?. apply O3. lia.
        -- intros k ? ?. rewrite O3 by lia. apply O2. lia.
    + destruct (IH l1 mhi b ltac:(lia) ltac:(lia)) as [R3 S3].
      set (l3 := Sort.quickSort lt l1 mhi b mD) in *.
      pose proof (rearranges_length _ _ _ _ R3) as L3.
      destruct (IH l3 a mlo ltac:(lia) ltac:(lia)) as [R2 S2].
      set (l2 := Sort.quickSort lt l3 a mlo mD) in *.
      pose proof R3 as [_ [O3 _]]. pose proof R2 as [L2 [O2 K2]].
      split.
      * eapply rearranges_trans; [exact R1|].
        eapply rearranges_trans.
        -- eapply rearranges_widen; [| |exact R3]; lia.
        -- eapply rearranges_widen; [| |exact R2]; lia.
      * apply (Join l2 l3 l2); auto.
        -- intros P HP. apply K2. intros k ? ?. rewrite O3 by lia.
           apply HP; lia.
        -- apply R3.
        -- intros k ? ?. rewrite O2 by lia. apply O3. lia.
        -- intros k ? ?. apply O2. lia.
Qed.


Lemma sortedRange_StronglySorted (l : list A) :
  sortedRange lt d l 0 (length l) ->
  StronglySorted (fun x y => lt y x = false) l.
Proof.
  induction l as [|x l IH]; intros H; constructor.
  - apply IH. intros i j Hi Hij Hj.
    apply (H (S i) (S j)); simpl; lia.
  - apply Forall_forall. intros y Hy.
    destruct (In_nth l y d Hy) as [j [Hj <-]].
    apply (H 0 (S j)); simpl; lia.
Qed.

Lemma Slice_sortedRange (l : list A) :
  sortedRange lt d (Sort.Slice lt l) 0 (length (Sort.Slice lt l)).
Proof.
  unfold Sort.Slice.
  destruct (quickSort_spec (Sort.maxDepth (length l)) l 0 (length l))
    as [[L _] S]; [lia | lia |].
  rewrite L. exact S.
Qed.

End SortSorts.

(** [sort.Slice] sorts, for a comparison that is asymmetric and whose
    negation is transitive. *)
Lemma Slice_StronglySorted {A : Type} (lt : A -> A -> bool) (l : list A) :
  (forall x y, lt x y = true -> lt y x = false) ->
  (forall x y z, lt y x = false -> lt z y = false -> lt z x = false) ->
  StronglySorted (fun x y => lt y x = false) (Sort.Slice lt l).
Proof.
  intros Ha Ht. destruct l as [|x l]; [constructor|].
  apply (sortedRange_StronglySorted lt x).
  apply Slice_sortedRange; assumption.
Qed.

(** ** The order of names *)

Lemma Ascii_compare_Lt_trans (a b c : ascii) :
  Ascii.compare a b = Lt -> Ascii.compare b c = Lt -> Ascii.compare a c = Lt.
Proof.
  unfold Ascii.compare. rewrite !N.compare_lt_iff. apply N.lt_trans.
Qed.

Lemma String_compare_Lt_trans (a : string) :
  forall b c,
    String.compare a b = Lt -> String.compare b c = Lt ->
    String.compare a c = Lt.
Proof.
  induction a as [|x a IH]; intros [|y b] [|z c]; simpl; try congruence.
  destruct (Ascii.compare x y) eqn:E1; try discriminate;
    destruct (Ascii.compare y z) eqn:E2; try discriminate; intros H1 H2.
  - apply Ascii.compare_eq_iff in E1, E2. subst.
    replace (Ascii.compare z z) with Eq
      by (symmetry; unfold Ascii.compare; apply N.compare_refl).
    eauto.
  - apply Ascii.compare_eq_iff in E1. subst. rewrite E2. reflexivity.
  - apply Ascii.compare_eq_iff in E2. subst. rewrite E1. reflexivity.
  - rewrite (Ascii_compare_Lt_trans _ _ _ E1 E2). reflexivity.
Qed.

Lemma nameBefore_asym (x y : BookFile) :
  nameBefore x y = true -> nameBefore y x = false.
Proof.
  unfold nameBefore, Strings.Compare_lt, String.ltb.
  rewrite (String.compare_antisym (Name x) (Name y)).
  destruct (String.compare (Name y) (Name x)); simpl; congruence.
Qed.

Lemma nameBefore_le_trans (x y z : BookFile) :
  nameBefore y x = false -> nameBefore z y = false -> nameBefore z x = false.
Proof.
  unfold nameBefore, Strings.Compare_lt, String.ltb. intros H1 H2.
  destruct (String.compare (Name z) (Name x)) eqn:E; try reflexivity.
  exfalso.
  destruct (String.compare (Name z) (Name y)) eqn:E2; try discriminate.
  - apply String.compare_eq_iff in E2. rewrite <- E2, E in H1. discriminate.
  - rewrite String.compare_antisym in E2.
    destruct (String.compare (Name y) (Name z)) eqn:E3; try discriminate.
    rewrite (String_compare_Lt_trans _ _ _ E3 E) in H1. discriminate.
Qed.

Lemma laterThan_asym (x y : BookFile) :
  laterThan x y = true -> laterThan y x = false.
Proof. unfold laterThan. rewrite Z.ltb_lt, Z.ltb_ge. lia. Qed.

Lemma laterThan_le_trans (x y z : BookFile) :
  laterThan y x = false -> laterThan z y = false -> laterThan z x = false.
Proof. unfold laterThan. rewrite !Z.ltb_ge. lia. Qed.

Lemma StronglySorted_impl {A : Type} (R R' : A -> A -> Prop) (l : list A) :
  (forall x y, R x y -> R' x y) -> StronglySorted R l -> StronglySorted R' l.
Proof.
  intros H. induction 1 as [|x l _ IH Hx]; constructor; [exact IH|].
  eapply Forall_impl; [|exact Hx]. intros y. apply H.
Qed.

(** C3 (as stated) fails on stability.  The walk of /srv/library finds the
    six files b.epub of d1 to d6, all modified at 1, and then z/a.epub,
    modified at 2.  In both views a.epub comes first and d1/b.epub, found
    before the five others of the same name and time, comes after them:
    the pass with gap 6 of the sort exchanges the seventh and the first
    element over the equal ones between them. *)
Lemma views_not_stable :
  map Path (files (Example.indexed Example.libraryService)) =
    ["/srv/library/d1/b.epub"; "/srv/library/d2/b.epub";
     "/srv/library/d3/b.epub"; "/srv/library/d4/b.epub";
     "/srv/library/d5/b.epub"; "/srv/library/d6/b.epub";
     "/srv/library/z/a.epub"] /\
  map Path (latest (files (Example.indexed Example.libraryService))) =
    ["/srv/library/z/a.epub"; "/srv/library/d2/b.epub";
     "/srv/library/d3/b.epub"; "/srv/library/d4/b.epub";
     "/srv/library/d5/b.epub"; "/srv/library/d6/b.epub";
     "/srv/library/d1/b.epub"] /\
  map Path (byTitle (files (Example.indexed Example.libraryService))) =
    ["/srv/library/z/a.epub"; "/srv/library/d2/b.epub";
     "/srv/library/d3/b.epub"; "/srv/library/d4/b.epub";
     "/srv/library/d5/b.epub"; "/srv/library/d6/b.epub";
     "/srv/library/d1/b.epub"] /\
  ~ stable sameModTime (files (Example.indexed Example.libraryService))
           (latest (files (Example.indexed Example.libraryService))) /\
  ~ stable sameName (files (Example.indexed Example.libraryService))
           (byTitle (files (Example.indexed Example.libraryService))).
Proof.
  split; [vm_compute; reflexivity|].
  split; [vm_compute; reflexivity|].
  split; [vm_compute; reflexivity|].
  split; intros H; specialize (H Example.firstBook); vm_compute in H;
    discriminate H.
Qed.

(** C3 (amended). [latest] is sorted by modification time, latest first,
    [byTitle] by name in byte order, and each is a permutation of the
    snapshot. *)
Theorem sorted_views (snapshot : list BookFile) :
  StronglySorted notOlder (latest snapshot) /\
  Permutation (latest snapshot) snapshot /\
  StronglySorted nameAtMost (byTitle snapshot) /\
  Permutation (byTitle snapshot) snapshot.
Proof.
  unfold latest, byTitle, sortByLatest, sortByTitle. simpl.
  split; [|split; [apply Slice_Permutation|split; [|apply Slice_Permutation]]].
  - apply StronglySorted_impl with (R := fun x y => laterThan y x = false).
    + intros x y. unfold laterThan, notOlder. rewrite Z.ltb_ge. lia.
    + apply Slice_StronglySorted;
        [apply laterThan_asym | apply laterThan_le_trans].
  - apply StronglySorted_impl with (R := fun x y => nameBefore y x = false).
    + intros x y. unfold nameBefore, nameAtMost, Strings.Compare_lt.
      unfold String.ltb, String.leb.
      rewrite (String.compare_antisym (Name x) (Name y)).
      destruct (String.compare (Name y) (Name x)); simpl; congruence.
    + apply Slice_StronglySorted;
        [apply nameBefore_asym | apply nameBefore_le_trans].
Qed.



(** ** The handler *)

Lemma serveFeed_resolve (w : World) (g : Globals) (fPath : string)
                        (feed : Opds.Feed) :
  serveFeed w g fPath feed =
  match resolve w fPath with
  | None => Panic
  | Some (File _) => serialized false g feed
  | Some (Dir _ es) => serialized (hasFileChild es) g feed
  end.
Proof.
  unfold serveFeed. rewrite getPathType_resolve.
  destruct (resolve w fPath) as [[mt|mt es]|]; try reflexivity.
  unfold hasFileChild.
  destruct (forallb (fun b => b) (childKinds es)); reflexivity.
Qed.

Lemma resolve_nonempty (w : World) (p : string) (n : node) :
  resolve w p = Some n -> p <> "".
Proof. intros H ->. discriminate H. Qed.

(** What the handler does with a request for "/" when the catalog root is
    a directory. *)
Lemma Handler_root (s : OPDS) (g : Globals) (w : World)
                   (mt : Z) (es : list (string * node)) :
  resolve w (DirRoot s) = Some (Dir mt es) ->
  exists feed,
    fst (Handler s g w "/") = serialized (hasFileChild es) g feed /\
    entryTargets feed = [("Latest", ["/latest"]); ("By Title", ["/titles"])] /\
    feedTimes feed = [TimeNow g tt; TimeNow g tt; TimeNow g tt; TimeNow g tt; TimeNow g tt].
Proof.
  intros Hr. unfold Handler.
  change (Url.PathUnescape "/") with (Some "/").
  cbv iota beta. change (String.eqb "/" "/") with true. cbv iota.
  unfold WalkDir. rewrite Hr. cbv iota beta zeta.
  rewrite Join_slash by (eapply resolve_nonempty; eauto).
  rewrite serveFeed_resolve, (resolve_Clean _ _ _ Hr).
  eexists. split; [reflexivity|]. split; reflexivity.
Qed.

(** C4. Whatever the catalog root directory holds, the feed built for "/"
    has exactly two entries: "Latest", linking to /latest, and "By Title",
    linking to /titles. *)
Theorem root_feed_two_entries (s : OPDS) (g : Globals) (w : World)
                              (mt : Z) (es : list (string * node)) :
  resolve w (DirRoot s) = Some (Dir mt es) ->
  exists contentType modtime doc,
    fst (Handler s g w "/") = ServeContent contentType modtime doc /\
    entryTargets (feedOf doc) =
      [("Latest", ["/latest"]); ("By Title", ["/titles"])].
Proof.
  intros Hr. destruct (Handler_root s g w mt es Hr) as [feed [H [Ht _]]].
  rewrite H. unfold serialized.
  destruct (hasFileChild es); do 3 eexists; (split; [reflexivity | exact Ht]).
Qed.

Lemma root_feed_two_entries_witness :
  exists contentType modtime doc,
    fst (Handler Example.emptyService (startup (Example.world 100))
                 (Example.world 200) "/")
    = ServeContent contentType modtime doc /\
    entryTargets (feedOf doc) =
      [("Latest", ["/latest"]); ("By Title", ["/titles"])].
Proof.
  apply (root_feed_two_entries Example.emptyService _ (Example.world 200) 3 []).
  reflexivity.
Defined.

(** A request for a path that is none of "/", "/latest" and "/titles" and
    that names nothing on disk makes the handler panic: [getPathType] drops
    the error of [os.Stat] and calls a method of the nil [FileInfo]. *)
Lemma Handler_missing_path (s : OPDS) (g : Globals) (w : World)
                           (reqPath urlPath : string) :
  Url.PathUnescape reqPath = Some urlPath ->
  urlPath <> "/" -> urlPath <> "/latest" -> urlPath <> "/titles" ->
  resolve w (Filepath.Join (DirRoot s) urlPath) = None ->
  Handler s g w reqPath = (Panic, g).
Proof.
  intros Hu H1 H2 H3 Hr. unfold Handler. rewrite Hu.
  apply String.eqb_neq in H1, H2, H3. rewrite H1, H2, H3.
  rewrite getPathType_resolve, Hr. reflexivity.
Qed.

(** C5 (what the code does). The request path /sub%2Fmissing.epub decodes
    to /sub/missing.epub, which names nothing under the catalog root; the
    handler panics instead of returning an error, and so it does for the
    path already decoded. *)
Theorem missing_file_panics :
  Url.PathUnescape "/sub%2Fmissing.epub" = Some "/sub/missing.epub" /\
  resolve (Example.world 200)
          (Filepath.Join (DirRoot Example.booksService) "/sub/missing.epub")
    = None /\
  fst (Handler Example.booksService (Example.indexed Example.booksService)
               (Example.world 200) "/sub%2Fmissing.epub") = Panic /\
  fst (Handler Example.booksService (Example.indexed Example.booksService)
               (Example.world 200) "/sub/missing.epub") = Panic.
Proof. repeat split; vm_compute; reflexivity. Qed.

(** The kind of the feed served for "/" follows the classification of the
    catalog root directory. *)
Lemma root_feed_kind (s : OPDS) (g : Globals) (w : World)
                     (mt : Z) (es : list (string * node)) :
  resolve w (DirRoot s) = Some (Dir mt es) ->
  exists feed, fst (Handler s g w "/") = serialized (hasFileChild es) g feed.
Proof.
  intros Hr. destruct (Handler_root s g w mt es Hr) as [feed [H _]]. eauto.
Qed.

(** C6 (what the code does). The catalog root of the example holds the
    file a.epub; the feed for "/" is served with the acquisition content
    type. *)
Theorem root_with_files_served_as_acquisition :
  exists modtime doc,
    fst (Handler Example.booksService (startup (Example.world 100))
                 (Example.world 200) "/")
    = ServeContent acquisitionType modtime doc /\
    acquisitionType <> navigationType.
Proof. do 2 eexists. split; [vm_compute; reflexivity | discriminate]. Qed.

(** ** The frozen clock *)

Lemma Handler_TimeNow (s : OPDS) (g : Globals) (w : World) (reqPath : string) :
  TimeNow (snd (Handler s g w reqPath)) = TimeNow g.
Proof.
  unfold Handler.
  destruct (Url.PathUnescape reqPath) as [urlPath|]; [|reflexivity].
  destruct (String.eqb urlPath "/").
  { destruct (WalkDir w (DirRoot s) _); reflexivity. }
  destruct (String.eqb urlPath "/latest").
  { unfold sortByLatest. cbv zeta iota beta.
    destruct (mapM _ _); reflexivity. }
  destruct (String.eqb urlPath "/titles").
  { unfold sortByTitle. cbv zeta iota beta.
    destruct (mapM _ _); reflexivity. }
  destruct (getPathType w _) as [pt|]; [|reflexivity].
  destruct (pathType_eqb pt pathTypeFile); reflexivity.
Qed.

Lemma addEntries_fields (es : list Opds.Entry) :
  forall f,
    Opds.f_Title (addEntries f es) = Opds.f_Title f /\
    Opds.f_Updated (addEntries f es) = Opds.f_Updated f /\
    Opds.f_Entries (addEntries f es) = (Opds.f_Entries f ++ es)%list.
Proof.
  unfold addEntries.
  induction es as [|e es IH]; intros f; simpl.
  - rewrite app_nil_r. auto.
  - destruct (IH (Opds.AddEntry f e)) as [-> [-> ->]]. simpl.
    rewrite <- app_assoc. auto.
Qed.

Lemma fileEntry_times (s : OPDS) (w : World) (g : Globals) (urlPath : string)
                      (fs : list BookFile) :
  forall es, mapM (fileEntry s w g urlPath) fs = Done es ->
    length es = length fs /\
    Forall (fun e => Opds.e_Updated e = TimeNow g tt /\
                     Opds.e_Published e = TimeNow g tt) es.
Proof.
  induction fs as [|f fs IH]; intros es H; simpl in H.
  - inversion H. split; [reflexivity | constructor].
  - unfold fileEntry at 1 in H.
    destruct (getPathType w (Path f)); simpl in H; [|discriminate].
    destruct (mapM (fileEntry s w g urlPath) fs) as [es'|]; simpl in H;
      [|discriminate].
    inversion H; subst. destruct (IH es' eq_refl) as [Hl Ht].
    split; [simpl; congruence|]. constructor; [split; reflexivity | exact Ht].
Qed.

Lemma feedTimes_entries (f : Opds.Feed) (t : Z) :
  Opds.f_Updated f = t ->
  Forall (fun e => Opds.e_Updated e = t /\ Opds.e_Published e = t)
         (Opds.f_Entries f) ->
  Forall (fun x => x = t) (feedTimes f).
Proof.
  intros Hu He. unfold feedTimes. constructor; [exact Hu|].
  induction He as [|e es [H1 H2] _ IH]; simpl; [constructor|].
  constructor; [exact H1|]. constructor; [exact H2 | exact IH].
Qed.

Lemma serveFeed_times (w : World) (g : Globals) (fPath : string)
                      (feed : Opds.Feed) :
  Forall (fun x => x = TimeNow g tt) (feedTimes feed) ->
  Forall (fun x => x = TimeNow g tt) (responseTimes (serveFeed w g fPath feed)).
Proof.
  intros H. unfold serveFeed.
  destruct (getPathType w fPath) as [pt|]; [|constructor].
  destruct (pathType_eqb pt pathTypeDirOfFiles); simpl;
    (constructor; [reflexivity | exact H]).
Qed.

(** Every instant in a response is the one [TimeNow] returns. *)
Lemma Handler_times (s : OPDS) (g : Globals) (w : World) (reqPath : string) :
  Forall (fun x => x = TimeNow g tt)
         (responseTimes (fst (Handler s g w reqPath))).
Proof.
  unfold Handler.
  destruct (Url.PathUnescape reqPath) as [urlPath|]; [|constructor].
  destruct (String.eqb urlPath "/").
  { destruct (WalkDir w (DirRoot s) _); [|constructor].
    cbv zeta. unfold fst. apply (serveFeed_times w (withFiles (withFiles g []) a)).
    apply feedTimes_entries.
    - reflexivity.
    - simpl. repeat constructor. }
  destruct (String.eqb urlPath "/latest").
  { unfold sortByLatest. cbv zeta iota beta.
    destruct (mapM _ _) as [es|] eqn:E; [|constructor].
    unfold fst. apply (serveFeed_times w (withFiles g _)).
    destruct (fileEntry_times _ _ _ _ _ _ E) as [_ Ht].
    destruct (addEntries_fields es
                (Opds.mkFeed urlPath
                   (Strings.Title (unicode w) (Strings.TrimPrefix urlPath "/"))
                   (Opds.mkAuthor (OAuthor s) (AuthorEmail s) (AuthorURI s))
                   (TimeNow g tt)
                   [Opds.mkLink "start" "/" navigationType ""] []))
      as [_ [Hu He]].
    apply feedTimes_entries; [rewrite Hu; reflexivity|].
    rewrite He. simpl. exact Ht. }
  destruct (String.eqb urlPath "/titles").
  { unfold sortByTitle. cbv zeta iota beta.
    destruct (mapM _ _) as [es|] eqn:E; [|constructor].
    unfold fst. apply (serveFeed_times w (withFiles g _)).
    destruct (fileEntry_times _ _ _ _ _ _ E) as [_ Ht].
    destruct (addEntries_fields es
                (Opds.mkFeed urlPath
                   (Strings.Title (unicode w) (Strings.TrimPrefix urlPath "/"))
                   (Opds.mkAuthor (OAuthor s) (AuthorEmail s) (AuthorURI s))
                   (TimeNow g tt)
                   [Opds.mkLink "start" "/" navigationType ""] []))
      as [_ [Hu He]].
    apply feedTimes_entries; [rewrite Hu; reflexivity|].
    rewrite He. simpl. exact Ht. }
  destruct (getPathType w _) as [pt|]; [|constructor].
  destruct (pathType_eqb pt pathTypeFile); [constructor|].
  unfold fst. apply serveFeed_times. apply feedTimes_entries; [reflexivity|constructor].
Qed.

Lemma serveAll_times (s : OPDS) (reqs : list (World * string)) :
  forall g,
    Forall (fun r => Forall (fun x => x = TimeNow g tt) (responseTimes r))
           (serveAll s g reqs).
Proof.
  induction reqs as [|[w reqPath] reqs IH]; intros g; simpl; [constructor|].
  pose proof (Handler_times s g w reqPath) as Ht.
  pose proof (Handler_TimeNow s g w reqPath) as Hn.
  destruct (Handler s g w reqPath) as [r g']. simpl in *.
  constructor; [exact Ht|]. rewrite <- Hn. apply IH.
Qed.

(** C7. The instant read from the clock when the process starts is the
    value of every [updated] and [published] field, and of the modification
    time, of every response of the process's life, whatever the clock shows
    when a request is served. *)
Theorem frozen_now (s : OPDS) (w0 : World) (reqs : list (World * string)) :
  Forall (fun r => Forall (fun x => x = clock w0) (responseTimes r))
         (serveAll s (startup w0) reqs).
Proof. exact (serveAll_times s reqs (startup w0)). Qed.

(** ** The title of a feed *)

Lemma Title_runes (u : Unicode.Tables) (rs : list Z) :
  forall prev,
  exists ts,
    Strings.Map_runes (Strings.Title_mapping u) prev rs = writeRunes ts /\
    length ts = length rs /\
    forall i r,
      nth_error rs i = Some r ->
      nth_error ts i
      = Some (if match i with
                 | O => Strings.isSeparator u prev
                 | S j =>
                     match nth_error rs j with
                     | Some p => Strings.isSeparator u p
                     | None => false
                     end
                 end
              then Unicode.ToTitle u r else r).
Proof.
  induction rs as [|c rs IH]; intros prev.
  - exists []. split; [reflexivity|]. split; [reflexivity|].
    intros [|i] r H; discriminate H.
  - destruct (IH c) as [ts [Hw [Hl Hn]]].
    exists ((if Strings.isSeparator u prev then Unicode.ToTitle u c else c)
            :: ts).
    split; [|split].
    + simpl. rewrite Hw. reflexivity.
    + simpl. rewrite Hl. reflexivity.
    + intros [|i] r H.
      * simpl in H. inversion H; subst r. reflexivity.
      * simpl in H. simpl nth_error at 1. rewrite (Hn i r H).
        destruct i as [|i]; reflexivity.
Qed.

Lemma Title_titleCased (u : Unicode.Tables) (s : string) :
  exists ts,
    Strings.Title u s = writeRunes ts /\ titleCased u (Utf8.runes s) ts.
Proof.
  destruct (Title_runes u (Utf8.runes s) 32%Z) as [ts [Hw [Hl Hn]]].
  exists ts. split; [exact Hw|]. split; [exact Hl|].
  intros i r H. rewrite (Hn i r H). destruct i; reflexivity.
Qed.

(** The title case of Go on three inputs: ASCII words, a word that begins
    with a rune of two bytes, and a byte that is not UTF-8, which comes out
    as U+FFFD. *)
Lemma Title_examples :
  Strings.Title Example.unicode "sci fi/vol_2 x" = "Sci Fi/Vol_2 X" /\
  Strings.Title Example.unicode ecrits = Ecrits /\
  Strings.Title Example.unicode strayByte = replacementChar.
Proof. repeat split; vm_compute; reflexivity. Qed.

Lemma serveFeed_feed (w : World) (g : Globals) (fPath : string)
    (feed : Opds.Feed) (ct : string) (t : Z) (doc : document) :
  serveFeed w g fPath feed = ServeContent ct t doc -> feedOf doc = feed.
Proof.
  unfold serveFeed. destruct (getPathType w fPath) as [pt|]; [|discriminate].
  destruct (pathType_eqb pt pathTypeDirOfFiles); intros H; inversion H;
    reflexivity.
Qed.

Lemma Handler_title (s : OPDS) (g : Globals) (w : World) (reqPath : string)
    (ct : string) (t : Z) (doc : document) :
  fst (Handler s g w reqPath) = ServeContent ct t doc ->
  exists urlPath,
    Url.PathUnescape reqPath = Some urlPath /\
    Opds.f_Title (feedOf doc) =
      Strings.Title (unicode w) (Strings.TrimPrefix urlPath "/").
Proof.
  unfold Handler.
  destruct (Url.PathUnescape reqPath) as [urlPath|]; [|discriminate].
  intros H. exists urlPath. split; [reflexivity|]. revert H.
  destruct (String.eqb urlPath "/").
  { destruct (WalkDir w (DirRoot s) _); [|discriminate].
    cbv zeta. unfold fst. intros H. apply serveFeed_feed in H. rewrite H.
    apply addEntries_fields. }
  destruct (String.eqb urlPath "/latest").
  { unfold sortByLatest. cbv zeta iota beta.
    destruct (mapM _ _) as [es|]; [|discriminate].
    unfold fst. intros H. apply serveFeed_feed in H. rewrite H.
    apply addEntries_fields. }
  destruct (String.eqb urlPath "/titles").
  { unfold sortByTitle. cbv zeta iota beta.
    destruct (mapM _ _) as [es|]; [|discriminate].
    unfold fst. intros H. apply serveFeed_feed in H. rewrite H.
    apply addEntries_fields. }
  destruct (getPathType w _) as [pt|]; [|discriminate].
  destruct (pathType_eqb pt pathTypeFile); [discriminate|].
  unfold fst. intros H. apply serveFeed_feed in H. rewrite H. reflexivity.
Qed.

(** C8 (as stated) fails: the feed for /books/sci fi is titled
    "Books/Sci Fi", which keeps the parent segment, not "Sci Fi". *)
Lemma title_keeps_parent_segments :
  exists ct t doc,
    fst (Handler Example.srvService (startup (Example.world 100))
                 (Example.world 200) "/books/sci fi")
    = ServeContent ct t doc /\
    Opds.f_Title (feedOf doc) = "Books/Sci Fi" /\
    titleOfLastSegment Example.unicode "/books/sci fi" = "Sci Fi" /\
    Opds.f_Title (feedOf doc)
    <> titleOfLastSegment Example.unicode "/books/sci fi".
Proof.
  do 3 eexists. split; [vm_compute; reflexivity|].
  split; [reflexivity|]. split; [vm_compute; reflexivity|].
  vm_compute. discriminate.
Qed.

(** C8 (amended). The title of every feed served is made from the whole
    decoded request path less one leading slash, parent segments and
    separators included: it is that path, rune by rune, with the first rune
    of each word mapped to title case and every other rune unchanged,
    written in UTF-8.  On the ASCII range the title case of a letter is its
    upper case, and a word begins after every rune other than a letter, a
    digit or an underscore. *)
Theorem feed_title_whole_path (s : OPDS) (g : Globals) (w : World)
    (reqPath : string) (ct : string) (t : Z) (doc : document) :
  fst (Handler s g w reqPath) = ServeContent ct t doc ->
  exists urlPath ts,
    Url.PathUnescape reqPath = Some urlPath /\
    titleCased (unicode w) (Utf8.runes (Strings.TrimPrefix urlPath "/")) ts /\
    Opds.f_Title (feedOf doc) = writeRunes ts /\
    (forall i r,
        nth_error (Utf8.runes (Strings.TrimPrefix urlPath "/")) i = Some r ->
        (r <= 127)%Z ->
        nth_error ts i
        = Some (if startsWord (unicode w)
                     (Utf8.runes (Strings.TrimPrefix urlPath "/")) i
                then asciiUpper r else r) /\
        startsWord (unicode w)
          (Utf8.runes (Strings.TrimPrefix urlPath "/")) (S i)
        = negb (asciiWordRune r)).
Proof.
  intros H. destruct (Handler_title _ _ _ _ _ _ _ H) as [urlPath [Hu Ht]].
  destruct (Title_titleCased (unicode w) (Strings.TrimPrefix urlPath "/"))
    as [ts [Hw Hc]].
  exists urlPath, ts. rewrite Ht.
  split; [exact Hu|]. split; [exact Hc|]. split; [exact Hw|].
  intros i r Hi Hr. destruct Hc as [_ Hn]. split.
  - rewrite (Hn i r Hi).
    unfold Unicode.ToTitle, Unicode.MaxASCII, asciiUpper.
    apply Z.leb_le in Hr. rewrite Hr. reflexivity.
  - unfold startsWord. rewrite Hi.
    unfold Strings.isSeparator, asciiWordRune.
    apply Z.leb_le in Hr. rewrite Hr.
    destruct ((48 <=? r)%Z && (r <=? 57)%Z); [reflexivity|].
    destruct ((97 <=? r)%Z && (r <=? 122)%Z); [reflexivity|].
    destruct ((65 <=? r)%Z && (r <=? 90)%Z); [reflexivity|].
    destruct (r =? 95)%Z; reflexivity.
Qed.

Lemma feed_title_whole_path_witness :
  exists urlPath ts,
    Url.PathUnescape "/books/sci%20fi" = Some urlPath /\
    titleCased Example.unicode
               (Utf8.runes (Strings.TrimPrefix urlPath "/")) ts /\
    Opds.f_Title Example.sciFiFeed = writeRunes ts /\
    (forall i r,
        nth_error (Utf8.runes (Strings.TrimPrefix urlPath "/")) i = Some r ->
        (r <= 127)%Z ->
        nth_error ts i
        = Some (if startsWord Example.unicode
                     (Utf8.runes (Strings.TrimPrefix urlPath "/")) i
                then asciiUpper r else r) /\
        startsWord Example.unicode
          (Utf8.runes (Strings.TrimPrefix urlPath "/")) (S i)
        = negb (asciiWordRune r)).
Proof.
  apply (feed_title_whole_path Example.srvService (startup (Example.world 100))
           (Example.world 200) "/books/sci%20fi" navigationType 100
           (NavigationFeed Example.sciFiFeed)).
  vm_compute. reflexivity.
Defined.

(** ** The stored snapshot *)

Lemma Handler_latest_files (s : OPDS) (g : Globals) (w : World) :
  files (snd (Handler s g w "/latest")) = Sort.Slice laterThan (files g).
Proof.
  unfold Handler. change (Url.PathUnescape "/latest") with (Some "/latest").
  cbv iota beta. change (String.eqb "/latest" "/") with false.
  change (String.eqb "/latest" "/latest") with true. cbv iota.
  unfold sortByLatest. cbv zeta iota beta.
  destruct (mapM _ _); reflexivity.
Qed.

(** C9 (what the code does). After the walk the snapshot lists a.epub
    (modified at 10) before sub/b.epub (modified at 20); serving /latest
    leaves the package variable in the sorted order, b.epub first. *)
Theorem latest_reorders_snapshot :
  map Path (files (Example.indexed Example.booksService))
    = ["books/a.epub"; "books/sub/b.epub"] /\
  map Path (files (snd (Handler Example.booksService
                                (Example.indexed Example.booksService)
                                (Example.world 300) "/latest")))
    = ["books/sub/b.epub"; "books/a.epub"].
Proof. split; vm_compute; reflexivity. Qed.

(** ** The kind of the virtual feeds *)

Lemma concat_snoc (l : list string) (x : string) :
  l <> [] -> String.concat "/" (l ++ [x]) = String.concat "/" l ++ "/" ++ x.
Proof.
  induction l as [|y l IH]; intros Hne; [congruence|].
  destruct l as [|z l].
  - reflexivity.
  - change (String.concat "/" ((y :: z :: l) ++ [x]))
      with (y ++ "/" ++ String.concat "/" ((z :: l) ++ [x])).
    rewrite IH by discriminate.
    change (String.concat "/" (y :: z :: l))
      with (y ++ "/" ++ String.concat "/" (z :: l)).
    rewrite !append_assoc. reflexivity.
Qed.

(** Joining a directory path, other than "/" and ".", with a child name
    appends the name to the clean path. *)
Lemma Join_child (p name : string) :
  p <> "" -> properElement name -> name <> ".." ->
  Filepath.Clean p <> "/" -> Filepath.Clean p <> "." ->
  Filepath.Join p ("/" ++ name) = Filepath.Clean p ++ "/" ++ name.
Proof.
  intros Hp [Hns [Hne Hnd]] Hndd. unfold Filepath.Join, Filepath.Clean.
  pose proof Hp as Hp'. apply String.eqb_neq in Hp'. rewrite Hp'.
  simpl negb. cbv iota.
  replace (String.eqb (p ++ "/" ++ "/" ++ name) "") with false
    by (destruct p; [congruence | reflexivity]).
  rewrite isRooted_append by exact Hp.
  set (rooted := Filepath.isRooted p).
  change (p ++ "/" ++ "/" ++ name) with (p ++ String "/" (String "/" name)).
  unfold Strings.split_slash. rewrite split_slash_aux_append, fold_left_app.
  set (K := fold_left (Filepath.clean_step rooted)
                      (Strings.split_slash_aux "" p) []).
  assert (HK : cleanStack rooted K).
  { apply fold_clean_stack.
    - apply split_slash_aux_noSlash. reflexivity.
    - split; [constructor | intros _ []]. }
  simpl Strings.split_slash_aux.
  rewrite split_slash_aux_plain by exact Hns. simpl fold_left.
  unfold Filepath.clean_step at 1 2. simpl String.eqb at 1 2. simpl orb.
  cbv iota.
  apply String.eqb_neq in Hne, Hnd, Hndd. rewrite Hne, Hnd, Hndd. simpl orb.
  cbv iota.
  destruct K as [|top rest] eqn:EK.
  { intros H1 H2. exfalso. destruct rooted; [apply H1 | apply H2]; reflexivity. }
  rewrite <- EK in *. intros _ _.
  assert (HR : Forall properElement (rev K)) by (apply Forall_rev; apply HK).
  assert (Hrne : rev K <> []).
  { intro E. apply (f_equal (@rev string)) in E. rewrite rev_involutive in E.
    simpl in E. congruence. }
  destruct (concat_proper_nonempty (rev K) Hrne HR) as [c [t [E Hc]]].
  unfold Filepath.render. simpl rev. rewrite concat_snoc by exact Hrne.
  destruct rooted.
  - rewrite !append_assoc. reflexivity.
  - rewrite E. simpl. reflexivity.
Qed.

Lemma mapM_fileEntry (s : OPDS) (w : World) (g : Globals) (urlPath : string)
                     (fs : list BookFile) :
  (forall f, In f fs -> resolve w (Path f) <> None) ->
  exists es, mapM (fileEntry s w g urlPath) fs = Done es /\
             length es = length fs.
Proof.
  induction fs as [|f fs IH]; intros H; simpl.
  - exists []. auto.
  - destruct IH as [es [E Hl]]; [intros; apply H; right; assumption|].
    unfold fileEntry at 1. rewrite getPathType_resolve.
    pose proof (H f (or_introl eq_refl)) as Hf.
    destruct (resolve w (Path f)) as [[mt|mt es']|]; [| |congruence];
      simpl; rewrite E; simpl; eexists; (split; [reflexivity|simpl; congruence]).
Qed.


(** The feed of a virtual collection is serialized by the classification
    of the catalog root directory. *)
Lemma Handler_virtual (s : OPDS) (g : Globals) (w : World)
    (name : string) (lt : BookFile -> BookFile -> bool)
    (mt : Z) (es : list (string * node)) :
  resolve w (DirRoot s) = Some (Dir mt es) ->
  Filepath.Clean (DirRoot s) <> "/" -> Filepath.Clean (DirRoot s) <> "." ->
  properElement name -> name <> ".." ->
  (forall f, In f (files g) -> resolve w (Path f) <> None) ->
  exists feed,
    match mapM (fileEntry s w (withFiles g (Sort.Slice lt (files g)))
                          ("/" ++ name)) (Sort.Slice lt (files g)) with
    | Panicked => Panic
    | Done entries =>
        serveFeed w (withFiles g (Sort.Slice lt (files g)))
          (Strings.TrimSuffix (Filepath.Join (DirRoot s) ("/" ++ name))
                              ("/" ++ name))
          (addEntries
             (Opds.mkFeed ("/" ++ name)
                (Strings.Title (unicode w) (Strings.TrimPrefix ("/" ++ name) "/"))
                (Opds.mkAuthor (OAuthor s) (AuthorEmail s) (AuthorURI s))
                (TimeNow g tt)
                [Opds.mkLink "start" "/" navigationType ""] [])
             entries)
    end = serialized (hasFileChild es) g feed /\
    length (Opds.f_Entries feed) = length (files g).
Proof.
  intros Hr H1 H2 Hn Hndd Hf.
  destruct (mapM_fileEntry s w (withFiles g (Sort.Slice lt (files g)))
              ("/" ++ name) (Sort.Slice lt (files g))) as [entries [E Hl]].
  { intros f Hin. apply Hf.
    eapply Permutation_in; [apply Slice_Permutation | exact Hin]. }
  rewrite E.
  rewrite Join_child; auto; [|eapply resolve_nonempty; eauto].
  rewrite (TrimSuffix_append (Filepath.Clean (DirRoot s)) ("/" ++ name)).
  rewrite serveFeed_resolve, (resolve_Clean _ _ _ Hr).
  eexists. split; [reflexivity|].
  match goal with
  | |- context [addEntries ?f entries] =>
      destruct (addEntries_fields entries f) as [_ [_ ->]]
  end.
  simpl. rewrite Hl.
  apply Permutation_length, Slice_Permutation.
Qed.




(** * Further properties of the service *)

(** ** The walk *)

Lemma walkDir_Dir (path name : string) (mt : Z) (es : list (string * node))
    (files : list BookFile) :
  walkDir path name (Dir mt es) files = walkEntries path es files.
Proof.
  unfold walkEntries. simpl. revert files.
  induction es as [|[nm child] es IH]; intros files; simpl; [reflexivity|].
  apply IH.
Qed.

Lemma walkDir_append (n : node) :
  forall path name files,
    walkDir path name n files = (files ++ walkDir path name n [])%list.
Proof.
  induction n as [mt|mt es IH] using node_induction; intros path name files.
  - reflexivity.
  - rewrite !walkDir_Dir. unfold walkEntries.
    revert files. induction IH as [|[nm child] es Hc _ IHes]; intros files; simpl.
    + rewrite app_nil_r. reflexivity.
    + simpl in Hc. rewrite IHes.
      rewrite (IHes (walkDir (Filepath.Join path nm) nm child [])).
      rewrite (Hc (Filepath.Join path nm) nm files).
      rewrite app_assoc. reflexivity.
Qed.

Lemma walkEntries_flat (path : string) (es : list (string * node)) :
  forall files,
    walkEntries path es files =
    (files ++ flat_map (fun e => walkDir (Filepath.Join path (fst e)) (fst e)
                                         (snd e) []) es)%list.
Proof.
  unfold walkEntries.
  induction es as [|[nm child] es IH]; intros files; simpl.
  - rewrite app_nil_r. reflexivity.
  - rewrite IH, (walkDir_append child _ _ files), app_assoc. reflexivity.
Qed.

(** X1. The walk visits a directory's entries in listing order and each
    sub-tree wholly before the next entry: what it adds for a directory is
    the concatenation of what it adds for each entry, and what was
    collected before is kept in front. *)
Theorem walkDir_preorder (path name : string) (mt : Z)
    (es : list (string * node)) (files : list BookFile) :
  walkDir path name (Dir mt es) files =
  (files ++ flat_map (fun e => walkDir (Filepath.Join path (fst e)) (fst e)
                                       (snd e) []) es)%list.
Proof. rewrite walkDir_Dir. apply walkEntries_flat. Qed.

Lemma countFiles_Dir (mt : Z) (es : list (string * node)) :
  countFiles (Dir mt es) = list_sum (map (fun e => countFiles (snd e)) es).
Proof.
  simpl. induction es as [|[nm child] es IH]; simpl; [reflexivity|].
  rewrite IH. reflexivity.
Qed.

Lemma walkDir_length (n : node) :
  forall path name, length (walkDir path name n []) = countFiles n.
Proof.
  induction n as [mt|mt es IH] using node_induction; intros path name.
  - reflexivity.
  - rewrite walkDir_Dir, walkEntries_flat, countFiles_Dir. simpl.
    induction IH as [|[nm child] es Hc _ IHes]; simpl; [reflexivity|].
    simpl in Hc. rewrite length_app, Hc, IHes. reflexivity.
Qed.

Lemma walkDir_files (n : node) :
  forall path name,
    Forall (fun f => fi_IsDir (FileInfo_of f) = false /\
                     Name f = fi_Name (FileInfo_of f))
           (walkDir path name n []).
Proof.
  induction n as [mt|mt es IH] using node_induction; intros path name.
  - simpl. constructor; [split; reflexivity | constructor].
  - rewrite walkDir_Dir, walkEntries_flat. simpl.
    induction IH as [|[nm child] es Hc _ IHes]; simpl; [constructor|].
    apply Forall_app. split; [apply Hc | exact IHes].
Qed.

Lemma Handler_root_files (s : OPDS) (g : Globals) (w : World) (n : node) :
  resolve w (DirRoot s) = Some n ->
  files (snd (Handler s g w "/")) =
  walkDir (DirRoot s) (Filepath.Base (DirRoot s)) n [].
Proof.
  intros Hr. unfold Handler.
  change (Url.PathUnescape "/") with (Some "/"). cbv iota beta.
  change (String.eqb "/" "/") with true. cbv iota.
  unfold WalkDir. rewrite Hr. reflexivity.
Qed.

(** X3. A request for "/" replaces the snapshot: what the package variable
    holds afterwards is made from the file system alone, whatever it held
    before, be the catalog root there or not.  The frozen clock is not
    touched. *)
Theorem root_request_reindexes (s : OPDS) (g g' : Globals) (w : World) :
  files (snd (Handler s g w "/")) = files (snd (Handler s g' w "/")) /\
  TimeNow (snd (Handler s g w "/")) = TimeNow g.
Proof.
  split; [|apply Handler_TimeNow].
  unfold Handler.
  change (Url.PathUnescape "/") with (Some "/"). cbv iota beta.
  change (String.eqb "/" "/") with true. cbv iota.
  unfold WalkDir. destruct (resolve w (DirRoot s)); reflexivity.
Qed.

(** X4. When the catalog root does not exist the request for "/" panics
    (the walk's callback calls a method of the nil entry) after the
    snapshot was emptied: the entries indexed before are lost. *)
Theorem root_request_without_root (s : OPDS) (g : Globals) (w : World) :
  resolve w (DirRoot s) = None ->
  Handler s g w "/" = (Panic, withFiles g []).
Proof.
  intros Hr. unfold Handler.
  change (Url.PathUnescape "/") with (Some "/"). cbv iota beta.
  change (String.eqb "/" "/") with true. cbv iota.
  unfold WalkDir. rewrite Hr. reflexivity.
Qed.

Lemma root_request_without_root_witness :
  Handler (mkOPDS "/srv/nowhere" "" "" "")
          (Example.indexed Example.booksService) (Example.world 300) "/"
  = (Panic, withFiles (Example.indexed Example.booksService) []).
Proof. apply root_request_without_root. reflexivity. Defined.

(** ** Classification *)

(** X5. [getPathType] panics exactly on the paths that name nothing; on
    every other path it returns a classification. *)
Theorem getPathType_panics_iff (w : World) (p : string) :
  getPathType w p = Panicked <-> resolve w p = None.
Proof.
  rewrite getPathType_resolve.
  destruct (resolve w p) as [[mt|mt es]|]; split; intros H;
    try discriminate; reflexivity.
Qed.

(** ** The handler on the other paths *)

Lemma isVirtual_false (urlPath : string) :
  isVirtual urlPath = false ->
  String.eqb urlPath "/" = false /\ String.eqb urlPath "/latest" = false /\
  String.eqb urlPath "/titles" = false.
Proof.
  unfold isVirtual. intros H.
  apply orb_false_iff in H. destruct H as [H H3].
  apply orb_false_iff in H. tauto.
Qed.

(** What the handler does with a path other than "/", "/latest" and
    "/titles". *)
Lemma Handler_other (s : OPDS) (g : Globals) (w : World)
    (reqPath urlPath : string) :
  Url.PathUnescape reqPath = Some urlPath ->
  isVirtual urlPath = false ->
  Handler s g w reqPath =
  (match resolve w (Filepath.Join (DirRoot s) urlPath) with
   | None => Panic
   | Some (File _) => ServeFile (Filepath.Join (DirRoot s) urlPath)
   | Some (Dir _ es) =>
       serialized (hasFileChild es) g (feedHeader s g w urlPath)
   end, g).
Proof.
  intros Hu Hv. destruct (isVirtual_false _ Hv) as [H1 [H2 H3]].
  unfold Handler. rewrite Hu, H1, H2, H3.
  rewrite getPathType_resolve, serveFeed_resolve.
  destruct (resolve w (Filepath.Join (DirRoot s) urlPath)) as [[mt|mt es]|];
    try reflexivity.
  destruct (forallb (fun b => b) (childKinds es)) eqn:E; simpl.
  - unfold hasFileChild. rewrite E. reflexivity.
  - unfold hasFileChild. rewrite E. reflexivity.
Qed.

(** X6. A request for a directory other than the root is answered with a
    feed that has no entry at all: the handler does not list the
    directory.  The feed is serialized as an acquisition feed when the
    directory has an immediate child that is not a directory, as a
    navigation feed otherwise. *)
Theorem directory_feed_has_no_entries (s : OPDS) (g : Globals) (w : World)
    (reqPath urlPath : string) (mt : Z) (es : list (string * node)) :
  Url.PathUnescape reqPath = Some urlPath ->
  isVirtual urlPath = false ->
  resolve w (Filepath.Join (DirRoot s) urlPath) = Some (Dir mt es) ->
  exists feed,
    fst (Handler s g w reqPath) = serialized (hasFileChild es) g feed /\
    Opds.f_Entries feed = [].
Proof.
  intros Hu Hv Hr. rewrite (Handler_other _ _ _ _ _ Hu Hv), Hr.
  exists (feedHeader s g w urlPath). split; reflexivity.
Qed.

Lemma directory_feed_has_no_entries_witness :
  exists feed,
    fst (Handler Example.booksService (startup (Example.world 100))
                 (Example.world 200) "/sub")
    = serialized true (startup (Example.world 100)) feed /\
    Opds.f_Entries feed = [].
Proof.
  apply (directory_feed_has_no_entries Example.booksService
           (startup (Example.world 100)) (Example.world 200) "/sub" "/sub"
           6 [("b.epub", File 20)]); reflexivity.
Defined.

Lemma serveFeed_not_ServeFile (w : World) (g : Globals) (fPath : string)
    (feed : Opds.Feed) (p : string) :
  serveFeed w g fPath feed <> ServeFile p.
Proof.
  unfold serveFeed. destruct (getPathType w fPath) as [pt|]; [|discriminate].
  destruct (pathType_eqb pt pathTypeDirOfFiles); discriminate.
Qed.

Lemma serveFeed_not_ReturnError (w : World) (g : Globals) (fPath : string)
    (feed : Opds.Feed) :
  serveFeed w g fPath feed <> ReturnError.
Proof.
  unfold serveFeed. destruct (getPathType w fPath) as [pt|]; [|discriminate].
  destruct (pathType_eqb pt pathTypeDirOfFiles); discriminate.
Qed.

(** The response to a request for one of the three virtual paths is a
    panic or what [serveFeed] answers. *)
Lemma Handler_virtual_response (s : OPDS) (g : Globals) (w : World)
    (reqPath urlPath : string) :
  Url.PathUnescape reqPath = Some urlPath ->
  isVirtual urlPath = true ->
  fst (Handler s g w reqPath) = Panic \/
  exists g' fPath feed,
    fst (Handler s g w reqPath) = serveFeed w g' fPath feed /\
    TimeNow g' = TimeNow g /\
    Opds.f_ID feed = urlPath /\
    Opds.f_Author feed =
      Opds.mkAuthor (OAuthor s) (AuthorEmail s) (AuthorURI s) /\
    Opds.f_Links feed = [Opds.mkLink "start" "/" navigationType ""].
Proof.
  intros Hu Hv. unfold Handler. rewrite Hu.
  assert (Hadd : forall es f,
             Opds.f_ID (addEntries f es) = Opds.f_ID f /\
             Opds.f_Author (addEntries f es) = Opds.f_Author f /\
             Opds.f_Links (addEntries f es) = Opds.f_Links f).
  { unfold addEntries. induction es as [|e es IH]; intros f; simpl; [auto|].
    destruct (IH (Opds.AddEntry f e)) as [-> [-> ->]]. auto. }
  destruct (String.eqb urlPath "/") eqn:E1.
  { destruct (WalkDir w (DirRoot s) _) as [fs|]; [|left; reflexivity].
    right. cbv zeta. unfold fst.
    eexists _, _, _. split; [reflexivity|]. split; [reflexivity|].
    apply Hadd. }
  destruct (String.eqb urlPath "/latest") eqn:E2.
  { unfold sortByLatest. cbv zeta iota beta.
    destruct (mapM _ _) as [es|]; [|left; reflexivity].
    right. unfold fst.
    eexists _, _, _. split; [reflexivity|]. split; [reflexivity|].
    apply Hadd. }
  destruct (String.eqb urlPath "/titles") eqn:E3.
  { unfold sortByTitle. cbv zeta iota beta.
    destruct (mapM _ _) as [es|]; [|left; reflexivity].
    right. unfold fst.
    eexists _, _, _. split; [reflexivity|]. split; [reflexivity|].
    apply Hadd. }
  unfold isVirtual in Hv. rewrite E1, E2, E3 in Hv. discriminate.
Qed.

(** X7. The handler hands a path to [http.ServeFile] exactly when the
    request path is none of the three virtual ones and the path joined to
    the catalog root names a regular file; a directory is never streamed. *)
Theorem ServeFile_iff (s : OPDS) (g : Globals) (w : World)
    (reqPath fPath : string) :
  fst (Handler s g w reqPath) = ServeFile fPath <->
  exists urlPath mt,
    Url.PathUnescape reqPath = Some urlPath /\
    isVirtual urlPath = false /\
    fPath = Filepath.Join (DirRoot s) urlPath /\
    resolve w fPath = Some (File mt).
Proof.
  split.
  - destruct (Url.PathUnescape reqPath) as [urlPath|] eqn:Hu.
    + destruct (isVirtual urlPath) eqn:Hv.
      * destruct (Handler_virtual_response s g w _ _ Hu Hv)
          as [->|[g' [fPath' [feed [-> _]]]]]; [discriminate|].
        intros H. exfalso. exact (serveFeed_not_ServeFile _ _ _ _ _ H).
      * rewrite (Handler_other _ _ _ _ _ Hu Hv). simpl.
        destruct (resolve w (Filepath.Join (DirRoot s) urlPath))
          as [[mt|mt es]|] eqn:Hr; try discriminate.
        -- intros H. inversion H; subst. exists urlPath, mt. auto.
        -- unfold serialized. destruct (hasFileChild es); discriminate.
    + unfold Handler. rewrite Hu. discriminate.
  - intros [urlPath [mt [Hu [Hv [-> Hr]]]]].
    rewrite (Handler_other _ _ _ _ _ Hu Hv), Hr. reflexivity.
Qed.

(** X8. A request for a path other than "/", "/latest" and "/titles" never
    changes the package variables, whatever the response, a panic
    included. *)
Theorem other_paths_keep_snapshot (s : OPDS) (g : Globals) (w : World)
    (reqPath urlPath : string) :
  Url.PathUnescape reqPath = Some urlPath ->
  isVirtual urlPath = false ->
  snd (Handler s g w reqPath) = g.
Proof.
  intros Hu Hv. rewrite (Handler_other _ _ _ _ _ Hu Hv). reflexivity.
Qed.

Lemma other_paths_keep_snapshot_witness :
  snd (Handler Example.booksService (Example.indexed Example.booksService)
               (Example.world 300) "/sub%2Fmissing.epub")
  = Example.indexed Example.booksService.
Proof.
  apply (other_paths_keep_snapshot _ _ _ _ "/sub/missing.epub"); reflexivity.
Defined.

(** ** What every feed has *)

Lemma serveFeed_consistentKind (w : World) (g : Globals) (fPath : string)
    (feed : Opds.Feed) :
  consistentKind (serveFeed w g fPath feed) = true.
Proof.
  unfold serveFeed. destruct (getPathType w fPath) as [pt|]; [|reflexivity].
  destruct (pathType_eqb pt pathTypeDirOfFiles); reflexivity.
Qed.

Lemma Handler_response (s : OPDS) (g : Globals) (w : World)
    (reqPath urlPath : string) :
  Url.PathUnescape reqPath = Some urlPath ->
  fst (Handler s g w reqPath) = Panic \/
  (exists fPath, fst (Handler s g w reqPath) = ServeFile fPath) \/
  exists g' fPath feed,
    fst (Handler s g w reqPath) = serveFeed w g' fPath feed /\
    TimeNow g' = TimeNow g /\
    Opds.f_ID feed = urlPath /\
    Opds.f_Author feed =
      Opds.mkAuthor (OAuthor s) (AuthorEmail s) (AuthorURI s) /\
    Opds.f_Links feed = [Opds.mkLink "start" "/" navigationType ""].
Proof.
  intros Hu. destruct (isVirtual urlPath) eqn:Hv.
  - destruct (Handler_virtual_response s g w _ _ Hu Hv) as [H|H]; auto.
  - destruct (isVirtual_false _ Hv) as [H1 [H2 H3]].
    unfold Handler. rewrite Hu, H1, H2, H3.
    destruct (getPathType w _) as [pt|]; [|left; reflexivity].
    destruct (pathType_eqb pt pathTypeFile).
    + right. left. eexists. reflexivity.
    + right. right. eexists _, _, _. split; [reflexivity|]. auto.
Qed.

(** X9. Whatever the request, the Content-Type the handler sets agrees
    with the document it writes: the acquisition type goes with the feed
    wrapped with the [dc] and [opds] name spaces, the navigation type with
    the bare feed. *)
Theorem content_type_matches_document (s : OPDS) (g : Globals) (w : World)
    (reqPath : string) :
  consistentKind (fst (Handler s g w reqPath)) = true.
Proof.
  destruct (Url.PathUnescape reqPath) as [urlPath|] eqn:Hu.
  - destruct (Handler_response s g w _ _ Hu)
      as [->|[[fPath ->]|[g' [fPath [feed [-> _]]]]]]; try reflexivity.
    apply serveFeed_consistentKind.
  - unfold Handler. rewrite Hu. reflexivity.
Qed.

(** X10. Every feed the handler serves has the decoded request path as its
    id, the author of the service's configuration, and exactly one link of
    its own: the "start" link to "/", of the navigation type. *)
Theorem feed_header (s : OPDS) (g : Globals) (w : World)
    (reqPath : string) (feed : Opds.Feed) :
  servedFeed (fst (Handler s g w reqPath)) = Some feed ->
  Url.PathUnescape reqPath = Some (Opds.f_ID feed) /\
  Opds.f_Author feed = Opds.mkAuthor (OAuthor s) (AuthorEmail s) (AuthorURI s) /\
  Opds.f_Links feed = [Opds.mkLink "start" "/" navigationType ""].
Proof.
  destruct (Url.PathUnescape reqPath) as [urlPath|] eqn:Hu.
  - destruct (Handler_response s g w _ _ Hu)
      as [->|[[fPath ->]|[g' [fPath [feed' [-> [_ [H1 [H2 H3]]]]]]]]];
      try discriminate.
    intros H.
    assert (feed = feed').
    { unfold serveFeed in H. destruct (getPathType w fPath) as [pt|];
        [|discriminate].
      destruct (pathType_eqb pt pathTypeDirOfFiles); simpl in H;
        inversion H; reflexivity. }
    subst feed'. rewrite H1. auto.
  - unfold Handler. rewrite Hu. discriminate.
Qed.

Lemma feed_header_witness :
  Url.PathUnescape "/books/sci%20fi" = Some (Opds.f_ID Example.sciFiFeed) /\
  Opds.f_Author Example.sciFiFeed = Opds.mkAuthor "dir2opds" "" "" /\
  Opds.f_Links Example.sciFiFeed = [Opds.mkLink "start" "/" navigationType ""].
Proof.
  apply (feed_header Example.srvService (startup (Example.world 100))
           (Example.world 200) "/books/sci%20fi" Example.sciFiFeed).
  vm_compute. reflexivity.
Defined.

(** ** The snapshot and the views *)

Lemma latest_sorted (snapshot : list BookFile) :
  StronglySorted notOlder (Sort.Slice laterThan snapshot).
Proof.
  apply StronglySorted_impl with (R := fun x y => laterThan y x = false).
  - intros x y. unfold laterThan, notOlder. rewrite Z.ltb_ge. lia.
  - apply Slice_StronglySorted;
      [apply laterThan_asym | apply laterThan_le_trans].
Qed.

Lemma byTitle_sorted (snapshot : list BookFile) :
  StronglySorted nameAtMost (Sort.Slice nameBefore snapshot).
Proof.
  apply StronglySorted_impl with (R := fun x y => nameBefore y x = false).
  - intros x y. unfold nameBefore, nameAtMost, Strings.Compare_lt.
    unfold String.ltb, String.leb.
    rewrite (String.compare_antisym (Name x) (Name y)).
    destruct (String.compare (Name y) (Name x)); simpl; congruence.
  - apply Slice_StronglySorted;
      [apply nameBefore_asym | apply nameBefore_le_trans].
Qed.

Lemma Handler_titles_files (s : OPDS) (g : Globals) (w : World) :
  files (snd (Handler s g w "/titles")) = Sort.Slice nameBefore (files g).
Proof.
  unfold Handler. change (Url.PathUnescape "/titles") with (Some "/titles").
  cbv iota beta. change (String.eqb "/titles" "/") with false.
  change (String.eqb "/titles" "/latest") with false.
  change (String.eqb "/titles" "/titles") with true. cbv iota.
  unfold sortByTitle. cbv zeta iota beta.
  destruct (mapM _ _); reflexivity.
Qed.

(** X11. Serving "/latest" or "/titles" leaves in the package variable the
    entries it held, none added and none dropped, in the order of the view
    served: latest first after "/latest", by name after "/titles".  This
    holds also when the handler panics on a file that has disappeared. *)
Theorem views_keep_entries (s : OPDS) (g : Globals) (w : World) :
  Permutation (files (snd (Handler s g w "/latest"))) (files g) /\
  StronglySorted notOlder (files (snd (Handler s g w "/latest"))) /\
  Permutation (files (snd (Handler s g w "/titles"))) (files g) /\
  StronglySorted nameAtMost (files (snd (Handler s g w "/titles"))).
Proof.
  rewrite Handler_latest_files, Handler_titles_files.
  split; [apply Slice_Permutation|]. split; [apply latest_sorted|].
  split; [apply Slice_Permutation | apply byTitle_sorted].
Qed.

Lemma mapM_fileEntry_entries (s : OPDS) (w : World) (g : Globals)
    (urlPath : string) (fs : list BookFile) :
  forall es, mapM (fileEntry s w g urlPath) fs = Done es ->
             Forall2 (entryFor s w urlPath) fs es.
Proof.
  induction fs as [|f fs IH]; intros es H; simpl in H.
  - inversion H. constructor.
  - unfold fileEntry at 1 in H.
    destruct (getPathType w (Path f)) as [pt|] eqn:Ep; simpl in H;
      [|discriminate].
    destruct (mapM (fileEntry s w g urlPath) fs) as [es'|]; simpl in H;
      [|discriminate].
    inversion H; subst. constructor; [|apply IH; reflexivity].
    split; [reflexivity|]. split; [reflexivity|]. exists pt. auto.
Qed.

Lemma serveFeed_servedFeed (w : World) (g : Globals) (fPath : string)
    (feed feed' : Opds.Feed) :
  servedFeed (serveFeed w g fPath feed) = Some feed' -> feed' = feed.
Proof.
  unfold serveFeed. destruct (getPathType w fPath) as [pt|]; [|discriminate].
  destruct (pathType_eqb pt pathTypeDirOfFiles); simpl; intros H;
    inversion H; reflexivity.
Qed.

Lemma Handler_view_entries (s : OPDS) (g : Globals) (w : World)
    (reqPath : string) (feed : Opds.Feed) :
  reqPath = "/latest" \/ reqPath = "/titles" ->
  servedFeed (fst (Handler s g w reqPath)) = Some feed ->
  Forall2 (entryFor s w reqPath) (viewOf reqPath (files g))
          (Opds.f_Entries feed).
Proof.
  intros [-> | ->].
  - unfold Handler. change (Url.PathUnescape "/latest") with (Some "/latest").
    cbv iota beta. change (String.eqb "/latest" "/") with false.
    change (String.eqb "/latest" "/latest") with true. cbv iota.
    unfold viewOf, latest, sortByLatest.
    change (String.eqb "/latest" "/latest") with true. cbv zeta iota beta.
    destruct (mapM _ _) as [es|] eqn:E; [|discriminate].
    unfold fst at 1. intros H. apply serveFeed_servedFeed in H. subst feed.
    match goal with
    | |- context [addEntries ?f es] =>
        destruct (addEntries_fields es f) as [_ [_ ->]]
    end.
    simpl. eapply mapM_fileEntry_entries. exact E.
  - unfold Handler. change (Url.PathUnescape "/titles") with (Some "/titles").
    cbv iota beta. change (String.eqb "/titles" "/") with false.
    change (String.eqb "/titles" "/latest") with false.
    change (String.eqb "/titles" "/titles") with true. cbv iota.
    unfold viewOf, byTitle, sortByTitle.
    change (String.eqb "/titles" "/latest") with false. cbv zeta iota beta.
    destruct (mapM _ _) as [es|] eqn:E; [|discriminate].
    unfold fst at 1. intros H. apply serveFeed_servedFeed in H. subst feed.
    match goal with
    | |- context [addEntries ?f es] =>
        destruct (addEntries_fields es f) as [_ [_ ->]]
    end.
    simpl. eapply mapM_fileEntry_entries. exact E.
Qed.

(** X12. The feed served for "/latest" has one entry for each file of the
    snapshot, in the order of the view sorted by modification time, and
    the feed for "/titles" in the order of the view sorted by name; each
    entry is titled with the file's name, has the request path followed by
    that name as its id, and carries one link, classified when the request
    is served. *)
Theorem virtual_feed_entries (s : OPDS) (g : Globals) (w : World)
    (feed : Opds.Feed) :
  (servedFeed (fst (Handler s g w "/latest")) = Some feed ->
   Forall2 (entryFor s w "/latest") (latest (files g)) (Opds.f_Entries feed)) /\
  (servedFeed (fst (Handler s g w "/titles")) = Some feed ->
   Forall2 (entryFor s w "/titles") (byTitle (files g)) (Opds.f_Entries feed)).
Proof.
  split; intros H.
  - apply (Handler_view_entries s g w "/latest" feed (or_introl eq_refl)) in H.
    exact H.
  - apply (Handler_view_entries s g w "/titles" feed (or_intror eq_refl)) in H.
    exact H.
Qed.

Lemma virtual_feed_entries_witness :
  Forall2 (entryFor Example.booksService (Example.world 300) "/latest")
          (latest (files (Example.indexed Example.booksService)))
          (Opds.f_Entries exampleLatestFeed).
Proof.
  apply (virtual_feed_entries Example.booksService
           (Example.indexed Example.booksService) (Example.world 300)
           exampleLatestFeed).
  vm_compute. reflexivity.
Defined.

Lemma entryFor_followsFileSystem (s : OPDS) (w : World) (urlPath : string)
    (f : BookFile) (e : Opds.Entry) :
  entryFor s w urlPath f e -> followsFileSystem w f e.
Proof.
  intros [_ [_ [pt [Hpt Hl]]]]. unfold followsFileSystem.
  rewrite getPathType_resolve in Hpt.
  eexists. split; [exact Hl|].
  destruct (resolve w (Path f)) as [[mt|mt es]|]; [| |discriminate Hpt].
  - inversion Hpt; subst pt. cbn [Opds.l_Rel Opds.l_Type]. split.
    + unfold getRel. cbn [pathType_eqb orb].
      destruct (String.eqb _ _ || String.eqb _ _ || String.eqb _ _
                || String.eqb _ _); auto.
    + reflexivity.
  - inversion Hpt; subst pt. cbn [Opds.l_Rel Opds.l_Type].
    unfold hasFileChild.
    destruct (forallb (fun b => b) (childKinds es)); split; reflexivity.
Qed.

(** X13. The link of each entry of "/latest" and "/titles" follows what the
    entry's path names when the view is served, not what it named when it
    was indexed: a regular file is linked as a thumbnail or an acquisition,
    with the MIME type of its extension; a path that has become a
    directory is linked as a subsection, with the acquisition type when it
    directly holds a file and the navigation type otherwise. *)
Theorem view_links_follow_file_system (s : OPDS) (g : Globals) (w : World)
    (reqPath : string) (feed : Opds.Feed) :
  reqPath = "/latest" \/ reqPath = "/titles" ->
  servedFeed (fst (Handler s g w reqPath)) = Some feed ->
  Forall2 (followsFileSystem w) (viewOf reqPath (files g))
          (Opds.f_Entries feed).
Proof.
  intros Hp H.
  apply Forall2_impl with (R1 := entryFor s w reqPath).
  - intros f e. apply entryFor_followsFileSystem.
  - apply Handler_view_entries; assumption.
Qed.

Lemma view_links_follow_file_system_witness :
  Forall2 (followsFileSystem (Example.world 300))
          (viewOf "/latest" (files (Example.indexed Example.booksService)))
          (Opds.f_Entries exampleLatestFeed).
Proof.
  apply (view_links_follow_file_system Example.booksService
           (Example.indexed Example.booksService) (Example.world 300)
           "/latest" exampleLatestFeed).
  - left. reflexivity.
  - vm_compute. reflexivity.
Defined.

(** ** Escaping *)

Lemma hex_decodes (c : ascii) :
  Url.unhex (Url.hexDigit (N_of_ascii c / 16)) = Some (N_of_ascii c / 16)%N /\
  Url.unhex (Url.hexDigit (N_of_ascii c mod 16)) = Some (N_of_ascii c mod 16)%N /\
  ascii_of_N (16 * (N_of_ascii c / 16) + N_of_ascii c mod 16) = c.
Proof. destruct c as [[] [] [] [] [] [] [] []]; vm_compute; auto. Qed.

Lemma hexDigit_plain (c : ascii) :
  Ascii.eqb (Url.hexDigit (N_of_ascii c / 16)) "/" = false /\
  Ascii.eqb (Url.hexDigit (N_of_ascii c mod 16)) "/" = false.
Proof. destruct c as [[] [] [] [] [] [] [] []]; vm_compute; auto. Qed.

Lemma unescaped_byte (c : ascii) :
  Url.shouldEscape c = false ->
  Ascii.eqb c "%" = false /\ Ascii.eqb c "/" = false.
Proof.
  destruct c as [[] [] [] [] [] [] [] []]; vm_compute; intros H;
    try discriminate H; auto.
Qed.

Lemma PathUnescape_percent (h l : ascii) (r : string) :
  Url.PathUnescape (String "%" (String h (String l r))) =
  match Url.unhex h, Url.unhex l with
  | Some a, Some b =>
      match Url.PathUnescape r with
      | Some x => Some (String (ascii_of_N (16 * a + b)) x)
      | None => None
      end
  | _, _ => None
  end.
Proof. reflexivity. Qed.

Lemma PathUnescape_plain (c : ascii) (r : string) :
  Ascii.eqb c "%" = false ->
  Url.PathUnescape (String c r) =
  match Url.PathUnescape r with
  | Some x => Some (String c x)
  | None => None
  end.
Proof. intros H. simpl. rewrite H. reflexivity. Qed.

Lemma PathEscape_decodes (s : string) :
  Url.PathUnescape (Url.PathEscape s) = Some s /\
  noSlash (Url.PathEscape s) = true.
Proof.
  induction s as [|c s [IH1 IH2]]; [split; reflexivity|].
  cbn [Url.PathEscape].
  destruct (Url.shouldEscape c) eqn:E.
  - destruct (hex_decodes c) as [H1 [H2 H3]].
    destruct (hexDigit_plain c) as [P1 P2].
    split.
    + rewrite PathUnescape_percent, H1, H2, IH1, H3. reflexivity.
    + cbn [noSlash]. rewrite P1, P2, IH2. reflexivity.
  - destruct (unescaped_byte c E) as [H1 H2]. split.
    + rewrite PathUnescape_plain, IH1 by exact H1. reflexivity.
    + cbn [noSlash]. rewrite H2, IH2. reflexivity.
Qed.


(** ** Thumbnails *)

Lemma Ext_aux_plain (s : string) :
  forall acc, plain s = true -> Filepath.Ext_aux acc s = acc.
Proof.
  induction s as [|c s IH]; intros acc H; simpl in *; [reflexivity|].
  apply andb_true_iff in H. destruct H as [H Hs].
  apply andb_true_iff in H. destruct H as [H1 H2].
  apply negb_true_iff in H1, H2. rewrite H1, H2. apply IH. exact Hs.
Qed.

Lemma Ext_aux_append (pre rest : string) :
  plain rest = true ->
  forall acc, Filepath.Ext_aux acc (pre ++ String "." rest) = String "." rest.
Proof.
  intros Hp. induction pre as [|c pre IH]; intros acc; simpl.
  - apply Ext_aux_plain. exact Hp.
  - destruct (Ascii.eqb c "/"); [apply IH|].
    destruct (Ascii.eqb c "."); apply IH.
Qed.

Lemma substring_split (s : string) :
  forall n, n <= String.length s ->
            s = substring 0 n s ++ substring n (String.length s - n) s.
Proof.
  induction s as [|c s IH]; intros [|n] H; simpl in *; try lia.
  - reflexivity.
  - rewrite substring_all. reflexivity.
  - f_equal. apply IH. lia.
Qed.

Lemma HasSuffix_iff (s suf : string) :
  Strings.HasSuffix s suf = true <-> exists pre, s = pre ++ suf.
Proof.
  unfold Strings.HasSuffix. split.
  - intros H. apply andb_true_iff in H. destruct H as [Hl He].
    apply Nat.leb_le in Hl. apply String.eqb_eq in He.
    exists (substring 0 (String.length s - String.length suf) s).
    pose proof (substring_split s (String.length s - String.length suf)
                  ltac:(lia)) as Hsp.
    replace (String.length s - (String.length s - String.length suf))
      with (String.length suf) in Hsp by lia.
    rewrite He in Hsp. exact Hsp.
  - intros [pre ->]. rewrite length_append.
    replace (String.length pre + String.length suf - String.length suf)
      with (String.length pre) by lia.
    rewrite substring_tail, String.eqb_refl.
    replace (Nat.leb _ _) with true; [reflexivity|].
    symmetry. apply Nat.leb_le. lia.
Qed.

(** X15. A file is linked as a thumbnail exactly when its path ends in
    .png, .jpg, .jpeg or .gif, in lower case; with any other ending, .PNG
    included, it is linked as an acquisition. *)
Theorem thumbnail_iff_suffix (name : string) :
  (getRel name pathTypeFile = relThumbnail <->
   exists ext, In ext imageExts /\ Strings.HasSuffix name ext = true) /\
  (getRel name pathTypeFile = relAcquisition <->
   forall ext, In ext imageExts -> Strings.HasSuffix name ext = false).
Proof.
  assert (Hin : In (Filepath.Ext name) imageExts <->
                exists ext, In ext imageExts /\ Strings.HasSuffix name ext = true).
  { split.
    - intros H. exists (Filepath.Ext name). split; [exact H|].
      apply HasSuffix_iff.
      destruct (Ext_spec name) as [[E _]|[pre [rest [Hn [_ E]]]]].
      + rewrite E in H. simpl in H. intuition discriminate.
      + exists pre. rewrite E. exact Hn.
    - intros [ext [Hi Hs]]. apply HasSuffix_iff in Hs. destruct Hs as [pre ->].
      assert (E : Filepath.Ext (pre ++ ext) = ext).
      { unfold Filepath.Ext. simpl in Hi.
        destruct Hi as [<-|[<-|[<-|[<-|[]]]]];
          apply Ext_aux_append; reflexivity. }
      rewrite E. exact Hi. }
  unfold getRel. simpl pathType_eqb. cbv iota.
  destruct (String.eqb (Filepath.Ext name) ".png"
            || String.eqb (Filepath.Ext name) ".jpg"
            || String.eqb (Filepath.Ext name) ".jpeg"
            || String.eqb (Filepath.Ext name) ".gif") eqn:E.
  - apply imageExts_eqb in E. pose proof (proj1 Hin E) as [ext [Hi Hs]].
    split; split; intros H; try discriminate; eauto.
    rewrite (H ext Hi) in Hs. discriminate.
  - assert (Hn : ~ In (Filepath.Ext name) imageExts).
    { intros H. apply imageExts_eqb in H. congruence. }
    split; split; intros H; try discriminate; try reflexivity.
    + exfalso. apply Hn, Hin. exact H.
    + intros ext Hi. destruct (Strings.HasSuffix name ext) eqn:Hs;
        [|reflexivity].
      exfalso. apply Hn, Hin. eauto.
Qed.

(** ** The files of the snapshot exist *)

Lemma lookup_entry_In (es : list (string * node)) (nm : string) (child : node) :
  NoDup (map fst es) -> In (nm, child) es -> lookup_entry nm es = Some child.
Proof.
  induction es as [|[nm' n'] es IH]; intros Hnd Hin; [destruct Hin|].
  simpl in *. inversion Hnd as [|? ? Hni Hnd']; subst.
  destruct Hin as [E|Hin].
  - inversion E; subst. rewrite String.eqb_refl. reflexivity.
  - destruct (String.eqb_spec nm' nm) as [->|Hne]; [|apply IH; assumption].
    exfalso. apply Hni. apply in_map_iff. exists (nm, child). auto.
Qed.

Lemma segments_append_name (p nm : string) :
  noSlash nm = true -> nm <> "" ->
  segments (p ++ String "/" nm) = (segments p ++ [nm])%list.
Proof.
  intros Hs Hne. unfold segments, Strings.split_slash.
  rewrite split_slash_aux_append, filter_app.
  rewrite (split_slash_aux_plain "" nm) by exact Hs. simpl.
  apply String.eqb_neq in Hne. rewrite Hne. reflexivity.
Qed.

Lemma follow_child (w : World) (p nm : string) (mt : Z)
    (es : list (string * node)) (child : node) :
  follow w p = Some (Dir mt es) -> entryName nm ->
  lookup_entry nm es = Some child ->
  follow w (p ++ String "/" nm) = Some child.
Proof.
  intros Hr [[Hs [Hne Hnd]] Hndd] Hl.
  assert (Hp : p <> "") by (intros ->; discriminate Hr).
  unfold follow in *.
  apply String.eqb_neq in Hp. rewrite Hp in Hr.
  replace (String.eqb (p ++ String "/" nm) "") with false
    by (destruct p; reflexivity).
  apply String.eqb_neq in Hp.
  rewrite isRooted_append by exact Hp.
  rewrite segments_append_name by assumption.
  rewrite app_assoc, resolve_steps_app.
  destruct (resolve_steps [fs_root w] _) as [[|n0 rest]|]; try discriminate.
  inversion Hr; subst n0. simpl.
  apply String.eqb_neq in Hnd, Hndd. rewrite Hnd, Hndd, Hl. reflexivity.
Qed.

Lemma resolve_child (w : World) (p nm : string) (mt : Z)
    (es : list (string * node)) (child : node) :
  resolve w p = Some (Dir mt es) -> entryName nm ->
  lookup_entry nm es = Some child ->
  resolve w (p ++ String "/" nm) = Some child.
Proof.
  intros Hr Hn Hl. unfold resolve in *.
  destruct (follow w p) as [[mt'|mt' es']|] eqn:EF; try discriminate Hr.
  { destruct (endsWithSlash p); discriminate Hr. }
  inversion Hr; subst mt' es'. clear Hr.
  rewrite (follow_child _ _ _ _ _ _ EF Hn Hl).
  destruct child as [mtc|mtc esc]; [|reflexivity].
  rewrite endsWithSlash_append by discriminate.
  destruct Hn as [[Hs [Hne _]] _].
  pose proof (endsWithSlash_noSlash nm Hs) as He.
  destruct nm as [|c nm]; [congruence|].
  change (endsWithSlash (String "/" (String c nm)))
    with (endsWithSlash (String c nm)).
  rewrite He. reflexivity.
Qed.

Lemma resolve_Join_entry (w : World) (p nm : string) (mt : Z)
    (es : list (string * node)) (child : node) :
  resolve w p = Some (Dir mt es) -> entryName nm ->
  NoDup (map fst es) -> In (nm, child) es ->
  resolve w (Filepath.Join p nm) = Some child.
Proof.
  intros Hr Hn Hnd Hin.
  pose proof (resolve_nonempty _ _ _ Hr) as Hp.
  unfold Filepath.Join. apply String.eqb_neq in Hp. rewrite Hp. simpl negb.
  cbv iota. apply resolve_Clean.
  change (p ++ "/" ++ nm) with (p ++ String "/" nm).
  eapply resolve_child; eauto. apply lookup_entry_In; assumption.
Qed.

Lemma wellNamed_Dir (mt : Z) (es : list (string * node)) :
  wellNamed (Dir mt es) ->
  NoDup (map fst es) /\
  Forall (fun e => entryName (fst e) /\ wellNamed (snd e)) es.
Proof.
  simpl. intros [Hnd H]. split; [exact Hnd|]. clear Hnd.
  induction es as [|[nm child] es IH]; [constructor|].
  destruct H as [H1 [H2 H3]]. constructor; [split; assumption | apply IH; exact H3].
Qed.

Lemma walkDir_resolves (w : World) (n : node) :
  forall path name,
    resolve w path = Some n -> wellNamed n ->
    Forall (fun f => resolve w (Path f)
                     = Some (File (fi_ModTime (FileInfo_of f))))
           (walkDir path name n []).
Proof.
  induction n as [mt|mt es IH] using node_induction; intros path name Hr Hw.
  - simpl. constructor; [exact Hr | constructor].
  - rewrite walkDir_Dir, walkEntries_flat. simpl.
    destruct (wellNamed_Dir _ _ Hw) as [Hnd Hall].
    apply Forall_flat_map. rewrite Forall_forall in *.
    intros [nm child] Hin. simpl.
    destruct (Hall _ Hin) as [Hn Hwc]. simpl in *.
    apply (IH _ Hin); [|exact Hwc].
    eapply resolve_Join_entry; eauto.
Qed.

(** X16. In a tree whose directory entries have proper, distinct names,
    every entry of the snapshot made by a request for "/" names, in the
    world of that request, the regular file it was made from, with the
    modification time recorded. *)
Theorem snapshot_files_exist (s : OPDS) (g : Globals) (w : World) (n : node) :
  resolve w (DirRoot s) = Some n -> wellNamed n ->
  Forall (fun f => resolve w (Path f)
                   = Some (File (fi_ModTime (FileInfo_of f))))
         (files (snd (Handler s g w "/"))).
Proof.
  intros Hr Hw. rewrite (Handler_root_files _ _ _ _ Hr).
  apply walkDir_resolves; assumption.
Qed.

Lemma library_wellNamed : wellNamed Example.library.
Proof.
  simpl. split.
  - repeat constructor; simpl; intuition discriminate.
  - repeat split; try discriminate;
      try (repeat constructor; simpl; intuition discriminate).
Qed.

Lemma snapshot_files_exist_witness :
  Forall (fun f => resolve (Example.world 200) (Path f)
                   = Some (File (fi_ModTime (FileInfo_of f))))
         (files (snd (Handler Example.libraryService
                              (startup (Example.world 100))
                              (Example.world 200) "/"))).
Proof.
  apply (snapshot_files_exist Example.libraryService
           (startup (Example.world 100)) (Example.world 200) Example.library).
  - reflexivity.
  - simpl. split.
    + repeat constructor; simpl; intuition discriminate.
    + repeat split; try discriminate;
        try (repeat constructor; simpl; intuition discriminate).
Defined.

(** ** One entry for each file *)

Lemma last_cons_default (names : list string) :
  forall (nm d : string), last (nm :: names) d = last names nm.
Proof.
  induction names as [|a names IH]; intros nm d; [reflexivity|].
  change (last (nm :: a :: names) d) with (last (a :: names) d).
  rewrite (IH a d), (IH a nm). reflexivity.
Qed.

Lemma walkDir_chains (n : node) :
  forall path name,
    wellNamed n ->
    exists chains,
      NoDup chains /\
      (forall names, In names chains <-> exists mt, fileAt n names mt) /\
      Forall2 (fun names f =>
                 Path f = joinAll path names /\
                 Name f = last names name /\
                 fi_Name (FileInfo_of f) = Name f /\
                 fi_IsDir (FileInfo_of f) = false /\
                 fileAt n names (fi_ModTime (FileInfo_of f)))
              chains (walkDir path name n []).
Proof.
  induction n as [mt|mt es IH] using node_induction; intros path name Hw.
  - exists [[]]. split; [|split].
    + constructor; [intros [] | constructor].
    + intros names. split.
      * intros [<-|[]]. exists mt. constructor.
      * intros [mt' H]. inversion H; subst. left. reflexivity.
    + simpl. constructor; [|constructor].
      repeat split. constructor.
  - destruct (wellNamed_Dir _ _ Hw) as [Hnd Hes]. clear Hw.
    rewrite walkDir_Dir, walkEntries_flat. simpl app.
    assert (H : exists chains,
               NoDup chains /\
               (forall names,
                   In names chains <->
                   exists nm child rest mt',
                     names = nm :: rest /\ In (nm, child) es /\
                     fileAt child rest mt') /\
               Forall2 (fun names f =>
                          Path f = joinAll path names /\
                          Name f = last names name /\
                          fi_Name (FileInfo_of f) = Name f /\
                          fi_IsDir (FileInfo_of f) = false /\
                          exists nm child rest,
                            names = nm :: rest /\ In (nm, child) es /\
                            fileAt child rest (fi_ModTime (FileInfo_of f)))
                       chains
                       (flat_map (fun e => walkDir (Filepath.Join path (fst e))
                                                   (fst e) (snd e) []) es)).
    { clear mt.
      induction es as [|[nm child] es IHes].
      - exists []. split; [constructor|]. split; [|constructor].
        intros names. split; [intros []|].
        intros [nm [child [rest [mt' [_ [[] _]]]]]].
      - inversion IH as [|? ? Hc IHrest]; subst. clear IH.
        inversion Hes as [|? ? [_ Hwc] Hes']; subst. clear Hes.
        simpl in Hnd. inversion Hnd as [|? ? Hni Hnd']; subst. clear Hnd.
        destruct (IHes IHrest Hnd' Hes') as [cs2 [N2 [M2 F2]]]. clear IHes.
        simpl in Hc, Hwc.
        destruct (Hc (Filepath.Join path nm) nm Hwc) as [cs1 [N1 [M1 F1]]].
        exists (map (cons nm) cs1 ++ cs2)%list. split; [|split].
        + apply NoDup_app; [| exact N2 |].
          * apply Finite.Injective_map_NoDup; [|exact N1].
            intros x y E. inversion E. reflexivity.
          * intros names H1 H2. apply in_map_iff in H1.
            destruct H1 as [rest [<- _]].
            apply M2 in H2.
            destruct H2 as [nm' [child' [rest' [mt' [E [Hin _]]]]]].
            inversion E; subst nm' rest'. apply Hni.
            apply (in_map fst) in Hin. exact Hin.
        + intros names. rewrite in_app_iff, in_map_iff. split.
          * intros [[rest [<- Hin]] | Hin].
            -- apply M1 in Hin. destruct Hin as [mt' Hf].
               exists nm, child, rest, mt'. simpl. auto.
            -- apply M2 in Hin.
               destruct Hin as [nm' [child' [rest' [mt' [E [Hin Hf]]]]]].
               exists nm', child', rest', mt'. simpl. auto.
          * intros [nm' [child' [rest' [mt' [-> [[E|Hin] Hf]]]]]].
            -- inversion E; subst nm' child'. left. exists rest'.
               split; [reflexivity|]. apply M1. eauto.
            -- right. apply M2. exists nm', child', rest', mt'. auto.
        + simpl flat_map. apply Forall2_app.
          * clear - F1. induction F1 as [|names f cs fs [P1 [P2 [P3 [P4 P5]]]] _ IHF];
              simpl; constructor; [|exact IHF].
            split; [exact P1|]. split; [rewrite last_cons_default; exact P2|].
            split; [exact P3|]. split; [exact P4|].
            exists nm, child, names. simpl. auto.
          * eapply Forall2_impl; [|exact F2].
            intros names f [P1 [P2 [P3 [P4 [nm' [child' [rest' [E [Hin Hf]]]]]]]]].
            repeat (split; [assumption|]).
            exists nm', child', rest'. simpl. auto. }
    destruct H as [chains [N [M F]]].
    exists chains. split; [exact N|]. split.
    + intros names. rewrite M. split.
      * intros [nm [child [rest [mt' [-> [Hin Hf]]]]]].
        exists mt'. econstructor; eassumption.
      * intros [mt' Hf]. inversion Hf; subst. eauto 8.
    + eapply Forall2_impl; [|exact F].
      intros names f [P1 [P2 [P3 [P4 [nm' [child' [rest' [-> [Hin Hf]]]]]]]]].
      repeat (split; [assumption|]).
      econstructor; eassumption.
Qed.

(** X2. After a request for "/" the snapshot has exactly one entry for each
    regular file below the catalog root, at any depth, and no other: its
    entries are, one for one, those of a list without repetition of the
    chains of names that lead from the root to a regular file.  Each entry
    has the path joined from the root and the names, the last name as its
    name, and the file's modification time; none is a directory.  The
    entries of each directory have proper, distinct names. *)
Theorem snapshot_one_entry_per_file (s : OPDS) (g : Globals) (w : World)
    (n : node) :
  resolve w (DirRoot s) = Some n -> wellNamed n ->
  exists chains,
    NoDup chains /\
    (forall names, In names chains <-> exists mt, fileAt n names mt) /\
    Forall2 (entryOf (DirRoot s) n) chains (files (snd (Handler s g w "/"))) /\
    length (files (snd (Handler s g w "/"))) = countFiles n.
Proof.
  intros Hr Hw. rewrite (Handler_root_files _ _ _ _ Hr).
  destruct (walkDir_chains n (DirRoot s) (Filepath.Base (DirRoot s)) Hw)
    as [chains [N [M F]]].
  exists chains. split; [exact N|]. split; [exact M|].
  split; [exact F | apply walkDir_length].
Qed.

Lemma snapshot_one_entry_per_file_witness :
  exists chains,
    NoDup chains /\
    (forall names, In names chains <->
                   exists mt, fileAt Example.library names mt) /\
    Forall2 (entryOf "/srv/library" Example.library) chains
            (files (snd (Handler Example.libraryService
                                 (startup (Example.world 100))
                                 (Example.world 200) "/"))) /\
    length (files (snd (Handler Example.libraryService
                                (startup (Example.world 100))
                                (Example.world 200) "/")))
    = countFiles Example.library.
Proof.
  apply (snapshot_one_entry_per_file Example.libraryService
           (startup (Example.world 100)) (Example.world 200) Example.library).
  - reflexivity.
  - apply library_wellNamed.
Defined.

Lemma serialized_TimeNow (b : bool) (g g' : Globals) (feed : Opds.Feed) :
  TimeNow g' = TimeNow g -> serialized b g' feed = serialized b g feed.
Proof. intros H. unfold serialized. rewrite H. reflexivity. Qed.

Lemma Handler_view (s : OPDS) (g : Globals) (w : World)
    (reqPath : string) (mt : Z) (es : list (string * node)) :
  reqPath = "/latest" \/ reqPath = "/titles" ->
  resolve w (DirRoot s) = Some (Dir mt es) ->
  Filepath.Clean (DirRoot s) <> "/" -> Filepath.Clean (DirRoot s) <> "." ->
  (forall f, In f (files g) -> resolve w (Path f) <> None) ->
  exists feed,
    fst (Handler s g w reqPath) = serialized (hasFileChild es) g feed /\
    length (Opds.f_Entries feed) = length (files g).
Proof.
  intros Hp Hr H1 H2 Hf.
  destruct Hp as [-> | ->].
  - destruct (Handler_virtual s g w "latest" laterThan mt es) as [feed [H Hl]];
      auto; [repeat split; discriminate | discriminate|].
    exists feed. split; [|exact Hl]. rewrite <- H.
    unfold Handler. change (Url.PathUnescape "/latest") with (Some "/latest").
    cbv iota beta. change (String.eqb "/latest" "/") with false.
    change (String.eqb "/latest" "/latest") with true. cbv iota.
    unfold sortByLatest. cbv zeta iota beta.
    destruct (mapM _ _); reflexivity.
  - destruct (Handler_virtual s g w "titles" nameBefore mt es) as [feed [H Hl]];
      auto; [repeat split; discriminate | discriminate|].
    exists feed. split; [|exact Hl]. rewrite <- H.
    unfold Handler. change (Url.PathUnescape "/titles") with (Some "/titles").
    cbv iota beta. change (String.eqb "/titles" "/") with false.
    change (String.eqb "/titles" "/latest") with false.
    change (String.eqb "/titles" "/titles") with true. cbv iota.
    unfold sortByTitle. cbv zeta iota beta.
    destruct (mapM _ _); reflexivity.
Qed.

(** X17. In a world that does not change in between, a request for "/"
    followed by one for "/latest" or "/titles" does not panic: the second
    is answered with a feed that has one entry for each entry of the tree
    under the catalog root that is not a directory.  The tree has proper,
    distinct entry names and the root's clean path is neither "/" nor ".". *)
Theorem index_then_view (s : OPDS) (g : Globals) (w : World)
    (reqPath : string) (mt : Z) (es : list (string * node)) :
  reqPath = "/latest" \/ reqPath = "/titles" ->
  resolve w (DirRoot s) = Some (Dir mt es) -> wellNamed (Dir mt es) ->
  Filepath.Clean (DirRoot s) <> "/" -> Filepath.Clean (DirRoot s) <> "." ->
  exists feed,
    fst (Handler s (snd (Handler s g w "/")) w reqPath)
    = serialized (hasFileChild es) g feed /\
    length (Opds.f_Entries feed) = countFiles (Dir mt es).
Proof.
  intros Hp Hr Hw H1 H2.
  destruct (Handler_view s (snd (Handler s g w "/")) w reqPath mt es Hp Hr H1 H2)
    as [feed [H Hl]].
  - intros f Hin. rewrite (Handler_root_files _ _ _ _ Hr) in Hin.
    pose proof (walkDir_resolves w _ (DirRoot s)
                  (Filepath.Base (DirRoot s)) Hr Hw) as Hall.
    rewrite Forall_forall in Hall. rewrite (Hall f Hin). discriminate.
  - exists feed. split.
    + rewrite H. apply serialized_TimeNow. apply Handler_TimeNow.
    + rewrite Hl. rewrite (Handler_root_files _ _ _ _ Hr).
      apply walkDir_length.
Qed.

Lemma index_then_view_witness :
  exists feed,
    fst (Handler Example.libraryService
                 (snd (Handler Example.libraryService
                               (startup (Example.world 100))
                               (Example.world 200) "/"))
                 (Example.world 200) "/titles")
    = serialized false (startup (Example.world 100)) feed /\
    length (Opds.f_Entries feed) = 7.
Proof.
  destruct (index_then_view Example.libraryService
              (startup (Example.world 100)) (Example.world 200) "/titles" 5
              (match Example.library with
               | Dir _ es => es
               | File _ => []
               end)) as [feed H].
  - right. reflexivity.
  - reflexivity.
  - simpl. split.
    + repeat constructor; simpl; intuition discriminate.
    + repeat split; try discriminate;
        try (repeat constructor; simpl; intuition discriminate).
  - vm_compute. discriminate.
  - vm_compute. discriminate.
  - exists feed. exact H.
Defined.

(** ** Views of snapshots with distinct keys *)

Lemma sorted_permutation_unique {A : Type} (R : A -> A -> Prop) (l1 : list A) :
  forall l2,
    StronglySorted R l1 -> StronglySorted R l2 -> Permutation l1 l2 ->
    (forall x y, In x l1 -> In y l1 -> R x y -> R y x -> x = y) ->
    l1 = l2.
Proof.
  induction l1 as [|x l1 IH]; intros l2 S1 S2 P Ha.
  - apply Permutation_nil in P. congruence.
  - destruct l2 as [|y l2].
    { apply Permutation_sym, Permutation_nil in P. discriminate. }
    inversion S1 as [|? ? S1' F1]; subst. inversion S2 as [|? ? S2' F2]; subst.
    assert (x = y).
    { assert (Hx : In x (y :: l2))
        by (eapply Permutation_in; [exact P | left; reflexivity]).
      assert (Hy : In y (x :: l1))
        by (eapply Permutation_in; [apply Permutation_sym; exact P
                                   | left; reflexivity]).
      destruct Hx as [->|Hx]; [reflexivity|].
      destruct Hy as [->|Hy]; [reflexivity|].
      rewrite Forall_forall in F1, F2.
      apply Ha; [left; reflexivity | right; exact Hy | apply F1; exact Hy
                | apply F2; exact Hx]. }
    subst y. f_equal. apply IH; auto.
    + eapply Permutation_cons_inv. exact P.
    + intros a b Ha' Hb'. apply Ha; right; assumption.
Qed.

Lemma NoDup_map_injective {A B : Type} (f : A -> B) (l : list A) :
  NoDup (map f l) -> forall x y, In x l -> In y l -> f x = f y -> x = y.
Proof.
  induction l as [|a l IH]; intros Hnd x y Hx Hy E; [destruct Hx|].
  simpl in Hnd. inversion Hnd as [|? ? Hni Hnd']; subst.
  destruct Hx as [->|Hx], Hy as [->|Hy]; auto.
  - exfalso. apply Hni. rewrite E. apply in_map. exact Hy.
  - exfalso. apply Hni. rewrite <- E. apply in_map. exact Hx.
Qed.

(** X18. When no two files of the snapshot have the same modification
    time, the view sorted by time is the same for every order in which the
    snapshot's entries are stored; likewise the view sorted by name when no
    two files have the same name.  The order that serving a view leaves in
    the package variable then does not show in the views served later. *)
Theorem views_independent_of_stored_order (s1 s2 : list BookFile) :
  Permutation s1 s2 ->
  (NoDup (map (fun f => fi_ModTime (FileInfo_of f)) s1) ->
   latest s1 = latest s2) /\
  (NoDup (map Name s1) -> byTitle s1 = byTitle s2).
Proof.
  intros P. unfold latest, byTitle, sortByLatest, sortByTitle. simpl. split.
  - intros Hnd. apply (sorted_permutation_unique notOlder).
    + apply latest_sorted.
    + apply latest_sorted.
    + rewrite !Slice_Permutation. exact P.
    + intros x y Hx Hy Rxy Ryx.
      apply (NoDup_map_injective _ _ Hnd);
        try (apply (Permutation_in _ (Slice_Permutation laterThan s1));
             assumption).
      unfold notOlder in *. cbv beta. lia.
  - intros Hnd. apply (sorted_permutation_unique nameAtMost).
    + apply byTitle_sorted.
    + apply byTitle_sorted.
    + rewrite !Slice_Permutation. exact P.
    + intros x y Hx Hy Rxy Ryx.
      apply (NoDup_map_injective _ _ Hnd);
        try (apply (Permutation_in _ (Slice_Permutation nameBefore s1));
             assumption).
      unfold nameAtMost in *. apply String.leb_antisym; assumption.
Qed.

Lemma views_independent_of_stored_order_witness :
  latest (files (Example.indexed Example.booksService))
  = latest (rev (files (Example.indexed Example.booksService))).
Proof.
  apply (views_independent_of_stored_order
           (files (Example.indexed Example.booksService))
           (rev (files (Example.indexed Example.booksService)))).
  - apply Permutation_rev.
  - vm_compute. repeat constructor; simpl; intuition discriminate.
Defined.

(** X19. The first entry of the view sorted by time is a file of the
    snapshot that none is more recent than, and the first entry of the
    view sorted by name one whose name none precedes; a view is empty only
    when the snapshot is. *)
Theorem views_first_entry (snapshot : list BookFile) :
  match latest snapshot with
  | [] => snapshot = []
  | x :: _ => In x snapshot /\ Forall (notOlder x) snapshot
  end /\
  match byTitle snapshot with
  | [] => snapshot = []
  | x :: _ => In x snapshot /\ Forall (nameAtMost x) snapshot
  end.
Proof.
  assert (Hd : forall (R : BookFile -> BookFile -> Prop) l,
             (forall x, R x x) -> StronglySorted R l -> Permutation l snapshot ->
             match l with
             | [] => snapshot = []
             | x :: _ => In x snapshot /\ Forall (R x) snapshot
             end).
  { intros R l Hrefl S P. destruct l as [|x l].
    - apply Permutation_nil. exact P.
    - split; [eapply Permutation_in; [exact P | left; reflexivity]|].
      inversion S as [|? ? _ F]; subst.
      eapply Permutation_Forall; [exact P|].
      constructor; [apply Hrefl | exact F]. }
  unfold latest, byTitle, sortByLatest, sortByTitle. simpl. split.
  - apply Hd; [intros x; unfold notOlder; lia | apply latest_sorted
              | apply Slice_Permutation].
  - apply Hd; [| apply byTitle_sorted | apply Slice_Permutation].
    intros x. unfold nameAtMost.
    destruct (String.leb_total (Name x) (Name x)); assumption.
Qed.

(** ** Following the links of a view *)

Lemma segments_append_slash (p q : string) :
  segments (p ++ String "/" q) = (segments p ++ segments q)%list.
Proof.
  unfold segments, Strings.split_slash.
  rewrite split_slash_aux_append, filter_app. reflexivity.
Qed.

Lemma resolve_same_segments (w : World) (p q : string) :
  p <> "" -> q <> "" -> Filepath.isRooted p = Filepath.isRooted q ->
  segments p = segments q -> endsWithSlash p = endsWithSlash q ->
  resolve w p = resolve w q.
Proof.
  intros Hp Hq Hr Hs He. unfold resolve, follow.
  apply String.eqb_neq in Hp, Hq. rewrite Hp, Hq, Hr, Hs, He. reflexivity.
Qed.

Lemma TrimPrefix_append (p r : string) : Strings.TrimPrefix (p ++ r) p = r.
Proof.
  unfold Strings.TrimPrefix.
  replace (Strings.TrimPrefix_aux (p ++ r) p) with (Some r); [reflexivity|].
  induction p as [|c p IH]; simpl.
  - destruct r; reflexivity.
  - rewrite Ascii.eqb_refl. exact IH.
Qed.

Lemma fold_clean_names (rooted : bool) (l : list string) :
  Forall entryName l ->
  forall K, fold_left (Filepath.clean_step rooted) l K = (rev l ++ K)%list.
Proof.
  induction 1 as [|nm l [[_ [Hne Hnd]] Hndd] _ IH]; intros K; simpl;
    [reflexivity|].
  rewrite IH, <- app_assoc. simpl.
  unfold Filepath.clean_step.
  apply String.eqb_neq in Hne, Hnd, Hndd. rewrite Hne, Hnd, Hndd.
  reflexivity.
Qed.

Lemma entryName_noSlash (l : list string) :
  Forall entryName l -> Forall (fun x => noSlash x = true) l.
Proof. apply Forall_impl. intros x [[H _] _]. exact H. Qed.

Lemma Join_cleanAbsolute (p nm : string) :
  cleanAbsolute p -> entryName nm ->
  Filepath.Join p nm = p ++ String "/" nm /\
  cleanAbsolute (Filepath.Join p nm).
Proof.
  intros [K [Hne [HK ->]]] Hnm.
  assert (HR : Forall entryName (rev K)) by (apply Forall_rev; exact HK).
  assert (Hrne : rev K <> []).
  { intro E. apply (f_equal (@rev string)) in E. rewrite rev_involutive in E.
    simpl in E. congruence. }
  assert (E : Filepath.Join (Filepath.render true K) nm
              = Filepath.render true (nm :: K)).
  { assert (Hsplit : Strings.split_slash (Filepath.render true K)
                     = "" :: rev K).
    { unfold Filepath.render.
      change ("/" ++ String.concat "/" (rev K))
        with (String "/" (String.concat "/" (rev K))).
      unfold Strings.split_slash at 1. simpl.
      fold (Strings.split_slash (String.concat "/" (rev K))).
      rewrite split_slash_concat
        by (try exact Hrne; apply entryName_noSlash; exact HR).
      reflexivity. }
    assert (Hroot : Filepath.isRooted (Filepath.render true K) = true)
      by reflexivity.
    assert (Hp : Filepath.render true K <> "") by discriminate.
    set (p := Filepath.render true K) in *. clearbody p.
    unfold Filepath.Join. pose proof Hp as Hp'.
    apply String.eqb_neq in Hp'. rewrite Hp'. simpl negb. cbv iota.
    unfold Filepath.Clean.
    replace (String.eqb (p ++ "/" ++ nm) "") with false
      by (destruct p; [congruence | reflexivity]).
    rewrite isRooted_append, Hroot by exact Hp.
    change (p ++ "/" ++ nm) with (p ++ String "/" nm).
    unfold Strings.split_slash in *.
    rewrite split_slash_aux_append, Hsplit.
    pose proof Hnm as [[Hs _] _].
    rewrite (split_slash_aux_plain "" nm Hs). change ("" ++ nm) with nm.
    simpl app. simpl fold_left at 1.
    change (Filepath.clean_step true [] "") with (@nil string).
    rewrite (fold_clean_names true (rev K ++ [nm])).
    - rewrite rev_app_distr, rev_involutive, app_nil_r. reflexivity.
    - apply Forall_app. split; [exact HR|].
      constructor; [exact Hnm | constructor]. }
  rewrite E.
  split.
  - unfold Filepath.render. simpl rev. rewrite concat_snoc by exact Hrne.
    rewrite !append_assoc. reflexivity.
  - exists (nm :: K). split; [discriminate|]. split; [|reflexivity].
    constructor; assumption.
Qed.

Lemma cleanAbsolute_of_clean (p : string) :
  Filepath.Clean p = p -> Filepath.isRooted p = true -> p <> "/" ->
  cleanAbsolute p.
Proof.
  intros Hc Hr Hne.
  assert (Hp : p <> "") by (intros ->; discriminate Hr).
  unfold Filepath.Clean in Hc. pose proof Hp as Hp'.
  apply String.eqb_neq in Hp'. rewrite Hp', Hr in Hc.
  set (K := fold_left (Filepath.clean_step true) (Strings.split_slash p) [])
    in *.
  assert (HK : cleanStack true K).
  { apply fold_clean_stack.
    - apply split_slash_aux_noSlash. reflexivity.
    - split; [constructor | intros _ []]. }
  destruct HK as [HK1 HK2]. exists K. split; [|split].
  - intros E. rewrite E in Hc. apply Hne. rewrite <- Hc. reflexivity.
  - rewrite Forall_forall in *. intros x Hx. split; [apply HK1; exact Hx|].
    intros ->. exact (HK2 eq_refl Hx).
  - symmetry. exact Hc.
Qed.

Lemma walkDir_paths (n : node) :
  forall path name f,
    cleanAbsolute path -> wellNamed n -> In f (walkDir path name n []) ->
    exists r, Path f = path ++ r /\
              (isDirNode n = true -> exists r', r = String "/" r').
Proof.
  induction n as [mt|mt es IH] using node_induction;
    intros path name f Hc Hw Hin.
  - simpl in Hin. destruct Hin as [<-|[]]. exists "". simpl.
    rewrite append_nil_r. split; [reflexivity | discriminate].
  - rewrite walkDir_Dir, walkEntries_flat in Hin. simpl in Hin.
    apply in_flat_map in Hin. destruct Hin as [[nm child] [He Hin]].
    simpl in Hin.
    destruct (wellNamed_Dir _ _ Hw) as [_ Hall].
    rewrite Forall_forall in IH, Hall.
    destruct (Hall _ He) as [Hn Hwc]. simpl in Hn, Hwc.
    destruct (Join_cleanAbsolute path nm Hc Hn) as [Ej Hcj].
    destruct (IH _ He _ _ _ Hcj Hwc Hin) as [r [Hr _]].
    exists (String "/" (nm ++ r)). split.
    + rewrite Hr, Ej, append_assoc. reflexivity.
    + intros _. exists (nm ++ r). reflexivity.
Qed.

Lemma Join_root_element (e : string) :
  properElement e -> e <> ".." -> Filepath.Join "/" e = "/" ++ e.
Proof.
  intros [Hs [Hne Hnd]] Hndd.
  unfold Filepath.Join, Filepath.Clean. simpl.
  rewrite (split_slash_aux_plain "" e Hs). simpl.
  unfold Filepath.clean_step.
  apply String.eqb_neq in Hne, Hnd, Hndd. rewrite Hne, Hnd, Hndd.
  reflexivity.
Qed.

Lemma PathEscape_slash_element (r : string) :
  properElement (Url.PathEscape (String "/" r)) /\
  Url.PathEscape (String "/" r) <> "..".
Proof.
  destruct (PathEscape_decodes (String "/" r)) as [_ Hs].
  split; [split; [exact Hs|]|]; simpl; try split; discriminate.
Qed.

(** ** Malformed request paths *)

Lemma unhex_not_percent (c : ascii) (n : N) :
  Url.unhex c = Some n -> Ascii.eqb c "%" = false.
Proof.
  destruct c as [[] [] [] [] [] [] [] []]; vm_compute; intros H;
    try discriminate H; reflexivity.
Qed.

Lemma PathUnescape_None_inv (n : nat) :
  forall s, String.length s <= n -> Url.PathUnescape s = None ->
            exists pre t, s = pre ++ String "%" t /\ notAnEscape t.
Proof.
  induction n as [|n IH]; intros s Hl H.
  - destruct s; [discriminate H | simpl in Hl; lia].
  - destruct s as [|c s]; [discriminate H|].
    destruct (Ascii.eqb_spec c "%") as [->|Hc].
    + destruct s as [|h [|l s]]; try (exists "", EmptyString; simpl; auto; fail).
      * exists "", (String h ""). simpl. auto.
      * rewrite PathUnescape_percent in H.
        destruct (Url.unhex h) as [a|] eqn:Eh;
          [|exists "", (String h (String l s)); simpl; auto].
        destruct (Url.unhex l) as [b|] eqn:El;
          [|exists "", (String h (String l s)); simpl; auto].
        destruct (Url.PathUnescape s) eqn:Es; [discriminate H|].
        destruct (IH s ltac:(simpl in Hl; lia) Es) as [pre [t [-> Ht]]].
        exists (String "%" (String h (String l pre))), t. auto.
    + apply Ascii.eqb_neq in Hc. rewrite PathUnescape_plain in H by exact Hc.
      destruct (Url.PathUnescape s) eqn:Es; [discriminate H|].
      destruct (IH s ltac:(simpl in Hl; lia) Es) as [pre [t [-> Ht]]].
      exists (String c pre), t. auto.
Qed.

Lemma PathUnescape_bad_escape (n : nat) :
  forall pre t, String.length pre <= n -> notAnEscape t ->
                Url.PathUnescape (pre ++ String "%" t) = None.
Proof.
  assert (Hbad : forall t, notAnEscape t ->
                           Url.PathUnescape (String "%" t) = None).
  { intros [|h [|l t]] Ht; try reflexivity.
    rewrite PathUnescape_percent. simpl in Ht.
    destruct Ht as [-> | Ht]; [reflexivity|].
    rewrite Ht. destruct (Url.unhex h); reflexivity. }
  induction n as [|n IH]; intros pre t Hl Ht.
  - destruct pre; [apply Hbad; exact Ht | simpl in Hl; lia].
  - destruct pre as [|c pre]; [apply Hbad; exact Ht|].
    destruct (Ascii.eqb_spec c "%") as [->|Hc].
    + change ((String "%" pre) ++ String "%" t)
        with (String "%" (pre ++ String "%" t)).
      destruct pre as [|h pre].
      { simpl. destruct t; reflexivity. }
      destruct pre as [|l pre].
      { simpl append. rewrite PathUnescape_percent.
        destruct (Url.unhex h); reflexivity. }
      simpl append. rewrite PathUnescape_percent.
      destruct (Url.unhex h); [|reflexivity].
      destruct (Url.unhex l); [|reflexivity].
      rewrite IH; [reflexivity | simpl in Hl; lia | exact Ht].
    + apply Ascii.eqb_neq in Hc. simpl append.
      rewrite PathUnescape_plain by exact Hc.
      rewrite IH; [reflexivity | simpl in Hl; lia | exact Ht].
Qed.

(** X21. The handler returns an error, instead of serving or panicking,
    exactly for the request paths in which some '%' is not followed by two
    hexadecimal digits; the package variables are then unchanged.  No
    other failure is returned as an error. *)
Theorem malformed_request_iff (s : OPDS) (g : Globals) (w : World)
    (reqPath : string) :
  (fst (Handler s g w reqPath) = ReturnError <->
   exists pre t, reqPath = pre ++ String "%" t /\ notAnEscape t) /\
  (fst (Handler s g w reqPath) = ReturnError ->
   snd (Handler s g w reqPath) = g).
Proof.
  assert (He : Url.PathUnescape reqPath = None <->
               exists pre t, reqPath = pre ++ String "%" t /\ notAnEscape t).
  { split.
    - apply (PathUnescape_None_inv (String.length reqPath)). lia.
    - intros [pre [t [-> Ht]]].
      apply (PathUnescape_bad_escape (String.length pre)); [lia | exact Ht]. }
  rewrite <- He. clear He.
  destruct (Url.PathUnescape reqPath) as [urlPath|] eqn:Hu.
  - assert (Hn : fst (Handler s g w reqPath) <> ReturnError).
    { destruct (Handler_response s g w _ _ Hu)
        as [->|[[fPath ->]|[g' [fPath [feed [-> _]]]]]]; try discriminate.
      intros H. exact (serveFeed_not_ReturnError _ _ _ _ H). }
    split; [split; [intros H; destruct (Hn H) | discriminate]|].
    intros H. destruct (Hn H).
  - unfold Handler. rewrite Hu. simpl. tauto.
Qed.

(** ** Paths that name nothing *)

(** X22. A request for a path other than "/", "/latest" and "/titles" that,
    joined to the catalog root, names nothing makes the handler panic,
    whatever the state; the package variables are left as they were. *)
Theorem missing_path_panics (s : OPDS) (g : Globals) (w : World)
    (reqPath urlPath : string) :
  Url.PathUnescape reqPath = Some urlPath ->
  isVirtual urlPath = false ->
  resolve w (Filepath.Join (DirRoot s) urlPath) = None ->
  Handler s g w reqPath = (Panic, g).
Proof.
  intros Hu Hv Hr. rewrite (Handler_other _ _ _ _ _ Hu Hv), Hr. reflexivity.
Qed.

Lemma missing_path_panics_witness :
  Handler Example.shelvesService (startup (Example.world 100))
          (Example.world 200) "/no%20such%20shelf"
  = (Panic, startup (Example.world 100)).
Proof.
  apply (missing_path_panics _ _ _ _ "/no such shelf"); reflexivity.
Defined.

(** ** The views at the edges *)

(** X23. Before any request for "/" the snapshot is empty, and "/latest"
    and "/titles" are answered with a feed without entries, not with an
    error.  The catalog root is a directory whose clean path is neither
    "/" nor ".". *)
Theorem views_before_indexing (s : OPDS) (w0 w : World) (reqPath : string)
    (mt : Z) (es : list (string * node)) :
  reqPath = "/latest" \/ reqPath = "/titles" ->
  resolve w (DirRoot s) = Some (Dir mt es) ->
  Filepath.Clean (DirRoot s) <> "/" -> Filepath.Clean (DirRoot s) <> "." ->
  exists feed,
    fst (Handler s (startup w0) w reqPath)
    = serialized (hasFileChild es) (startup w0) feed /\
    Opds.f_Entries feed = [].
Proof.
  intros Hp Hr H1 H2.
  destruct (Handler_view s (startup w0) w reqPath mt es Hp Hr H1 H2)
    as [feed [H Hl]]; [intros f []|].
  exists feed. split; [exact H|].
  simpl in Hl. destruct (Opds.f_Entries feed); [reflexivity | discriminate].
Qed.

Lemma views_before_indexing_witness :
  exists feed,
    fst (Handler Example.libraryService (startup (Example.world 100))
                 (Example.world 200) "/latest")
    = serialized false (startup (Example.world 100)) feed /\
    Opds.f_Entries feed = [].
Proof.
  destruct (views_before_indexing Example.libraryService (Example.world 100)
              (Example.world 200) "/latest" 5
              (match Example.library with
               | Dir _ es => es
               | File _ => []
               end)) as [feed H].
  - left. reflexivity.
  - reflexivity.
  - vm_compute. discriminate.
  - vm_compute. discriminate.
  - exists feed. exact H.
Defined.

Lemma Handler_view_fPath (s : OPDS) (g : Globals) (w : World)
    (reqPath : string) :
  reqPath = "/latest" \/ reqPath = "/titles" ->
  resolve w (Strings.TrimSuffix (Filepath.Join (DirRoot s) reqPath) reqPath)
    = None ->
  fst (Handler s g w reqPath) = Panic.
Proof.
  intros [-> | ->] Hr; unfold Handler.
  - change (Url.PathUnescape "/latest") with (Some "/latest").
    cbv iota beta. change (String.eqb "/latest" "/") with false.
    change (String.eqb "/latest" "/latest") with true. cbv iota.
    unfold sortByLatest. cbv zeta iota beta.
    destruct (mapM _ _); [|reflexivity].
    unfold fst. rewrite serveFeed_resolve, Hr. reflexivity.
  - change (Url.PathUnescape "/titles") with (Some "/titles").
    cbv iota beta. change (String.eqb "/titles" "/") with false.
    change (String.eqb "/titles" "/latest") with false.
    change (String.eqb "/titles" "/titles") with true. cbv iota.
    unfold sortByTitle. cbv zeta iota beta.
    destruct (mapM _ _); [|reflexivity].
    unfold fst. rewrite serveFeed_resolve, Hr. reflexivity.
Qed.

(** X24. The views trim the request path off the joined path and classify
    what is left.  With the catalog root "/" nothing is left, and
    "/latest" and "/titles" always panic; with the catalog root "." what
    is left is "latest" or "titles", a path in the working directory, and
    the views panic when no such entry exists there. *)
Theorem views_of_degenerate_roots (s : OPDS) (g : Globals) (w : World)
    (reqPath : string) :
  reqPath = "/latest" \/ reqPath = "/titles" ->
  (DirRoot s = "/" -> fst (Handler s g w reqPath) = Panic) /\
  (DirRoot s = "." ->
   resolve w (Strings.TrimPrefix reqPath "/") = None ->
   fst (Handler s g w reqPath) = Panic).
Proof.
  intros Hp. split.
  - intros Hd. apply Handler_view_fPath; [exact Hp|].
    rewrite Hd. destruct Hp as [-> | ->]; reflexivity.
  - intros Hd Hr. apply Handler_view_fPath; [exact Hp|].
    rewrite Hd. destruct Hp as [-> | ->]; exact Hr.
Qed.

Lemma views_of_degenerate_roots_witness :
  fst (Handler (mkOPDS "." "" "" "") (startup (Example.world 100))
               (Example.world 200) "/latest") = Panic.
Proof.
  destruct (views_of_degenerate_roots (mkOPDS "." "" "" "")
              (startup (Example.world 100)) (Example.world 200) "/latest"
              (or_introl eq_refl)) as [_ H].
  apply H; reflexivity.
Defined.

(** ** Following a link *)

Lemma PathUnescape_noPercent (s : string) :
  noPercent s = true -> Url.PathUnescape s = Some s.
Proof.
  induction s as [|c s IH]; [reflexivity|]. simpl noPercent.
  intros H. apply andb_true_iff in H. destruct H as [Hc Hs].
  apply negb_true_iff in Hc.
  rewrite (PathUnescape_plain _ _ Hc), (IH Hs). reflexivity.
Qed.

(** X20. A client that follows a link of a view requests the link's
    target, and [net/http] hands the handler that target decoded once, as
    [req.URL.Path]; the handler decodes it again.  Let the catalog root be
    given by a clean absolute path other than "/", and the tree under it
    have proper, distinct entry names.  For each entry of the snapshot the
    target decodes; when the decoded path has no per-cent sign the handler
    hands to [http.ServeFile] a path that names the regular file the entry
    was made from, and when it has a per-cent sign that two hexadecimal
    digits do not follow the handler returns an error. *)
Theorem link_leads_to_file (s : OPDS) (g g' : Globals) (w : World)
    (mt : Z) (es : list (string * node)) :
  Filepath.Clean (DirRoot s) = DirRoot s ->
  Filepath.isRooted (DirRoot s) = true -> DirRoot s <> "/" ->
  resolve w (DirRoot s) = Some (Dir mt es) -> wellNamed (Dir mt es) ->
  Forall (fun f =>
            exists reqPath,
              Url.PathUnescape (hrefOf s f) = Some reqPath /\
              (noPercent reqPath = true ->
               exists fPath,
                 fst (Handler s g' w reqPath) = ServeFile fPath /\
                 resolve w fPath
                 = Some (File (fi_ModTime (FileInfo_of f)))) /\
              ((exists pre t,
                   reqPath = pre ++ String "%" t /\ notAnEscape t) ->
               Handler s g' w reqPath = (ReturnError, g')))
         (files (snd (Handler s g w "/"))).
Proof.
  intros Hc Hroot Hne Hr Hw.
  pose proof (cleanAbsolute_of_clean _ Hc Hroot Hne) as Hca.
  pose proof (resolve_nonempty _ _ _ Hr) as Hp.
  rewrite (Handler_root_files _ _ _ _ Hr).
  pose proof (walkDir_resolves w _ (DirRoot s) (Filepath.Base (DirRoot s))
                Hr Hw) as Hall.
  rewrite Forall_forall in *. intros f Hin.
  destruct (walkDir_paths _ _ _ _ Hca Hw Hin) as [r [Hpath Hdir]].
  destruct (Hdir eq_refl) as [r' ->].
  specialize (Hall f Hin). unfold hrefOf. rewrite Hpath in *.
  rewrite TrimPrefix_append.
  destruct (PathEscape_slash_element r') as [He1 He2].
  rewrite (Join_root_element _ He1 He2).
  exists ("/" ++ String "/" r'). split; [|split].
  - change ("/" ++ Url.PathEscape (String "/" r'))
      with (String "/" (Url.PathEscape (String "/" r'))).
    rewrite PathUnescape_plain by reflexivity.
    destruct (PathEscape_decodes (String "/" r')) as [-> _]. reflexivity.
  - intros Hnp.
    set (fPath := Filepath.Join (DirRoot s) ("/" ++ String "/" r')).
    assert (Hf : resolve w fPath = Some (File (fi_ModTime (FileInfo_of f)))).
    { subst fPath. unfold Filepath.Join.
      pose proof Hp as Hp'. apply String.eqb_neq in Hp'. rewrite Hp'.
      simpl negb. cbv iota. apply resolve_Clean.
      rewrite <- Hall. apply resolve_same_segments.
      - destruct (DirRoot s); [congruence | discriminate].
      - destruct (DirRoot s); [congruence | discriminate].
      - rewrite !isRooted_append by exact Hp. reflexivity.
      - change (DirRoot s ++ "/" ++ "/" ++ String "/" r')
          with (DirRoot s ++ String "/" (String "/" (String "/" r'))).
        rewrite !segments_append_slash. reflexivity.
      - change (DirRoot s ++ "/" ++ "/" ++ String "/" r')
          with (DirRoot s ++ String "/" (String "/" (String "/" r'))).
        rewrite !endsWithSlash_append by discriminate. reflexivity. }
    exists fPath. split; [|exact Hf].
    rewrite (Handler_other s g' w _ _ (PathUnescape_noPercent _ Hnp))
      by reflexivity.
    fold fPath. rewrite Hf. reflexivity.
  - intros [pre [t [E Ht]]]. unfold Handler. rewrite E.
    rewrite (PathUnescape_bad_escape (String.length pre) pre t);
      [reflexivity | lia | exact Ht].
Qed.

Lemma link_leads_to_file_witness :
  Forall (fun f =>
            exists reqPath,
              Url.PathUnescape (hrefOf Example.libraryService f)
              = Some reqPath /\
              (noPercent reqPath = true ->
               exists fPath,
                 fst (Handler Example.libraryService
                              (startup (Example.world 100))
                              (Example.world 200) reqPath)
                 = ServeFile fPath /\
                 resolve (Example.world 200) fPath
                 = Some (File (fi_ModTime (FileInfo_of f)))) /\
              ((exists pre t,
                   reqPath = pre ++ String "%" t /\ notAnEscape t) ->
               Handler Example.libraryService (startup (Example.world 100))
                       (Example.world 200) reqPath
               = (ReturnError, startup (Example.world 100))))
         (files (snd (Handler Example.libraryService
                              (startup (Example.world 100))
                              (Example.world 200) "/"))).
Proof.
  apply (link_leads_to_file Example.libraryService
           (startup (Example.world 100)) (startup (Example.world 100))
           (Example.world 200) 5
           (match Example.library with
            | Dir _ es => es
            | File _ => []
            end)).
  - reflexivity.
  - reflexivity.
  - discriminate.
  - reflexivity.
  - simpl. split.
    + repeat constructor; simpl; intuition discriminate.
    + repeat split; try discriminate;
        try (repeat constructor; simpl; intuition discriminate).
Defined.
